(** * CodingChallenge: circle rasterisation, bounding circles, circle and
    ellipse fitting.

    The C++ sources (Problem1, Problem2, extracredit) compute on [double] and
    [int].  The code is embedded once, generically in the arithmetic: the
    class [Arith] lists the operations on [double] the sources use, and every
    function of the program is written against it, statement by statement.

    Two arithmetics instantiate the class.

    - [Binary64]: IEEE 754 binary64 on Rocq's primitive floats, the
      arithmetic the compiled program runs (round to nearest even, NaN,
      infinities).  The embedding is executable on it, and every statement
      about a concrete run is evaluated there.
    - [Exact]: the real numbers, the arithmetic the mathematical
      statements of the specification speak about (no rounding, no NaN, no
      infinity; division by zero follows Rocq's convention [x / 0 = 0]).
      Statements quantified over all inputs that need algebra are proved
      there.

    Statements that only follow the control flow are proved for every
    arithmetic at once.

    [int] is modelled by [Z]; the one place where the range of [int] decides
    a result, the conversion [static_cast<int>] of a [double], is partial.

    The file has three parts: the embedding of the code, the vocabulary of
    the statements with the concrete inputs, and the theorems. *)

From Stdlib Require Import ZArith List Bool Reals Lra Lia Psatz.
From Stdlib Require Floats.
From stdpp Require Import base list.
Import ListNotations.

Local Open Scope Z_scope.

(** * Part I: the code *)

(** ** The arithmetic interface *)

Definition INT_MIN : Z := - 2 ^ 31.
Definition INT_MAX : Z := 2 ^ 31 - 1.

(** [int_range z] holds when [z] is a value of the 32-bit type [int]. *)
Definition int_range (z : Z) : bool := (INT_MIN <=? z) && (z <=? INT_MAX).

(** The operations on [double] the sources use.  Comparisons return [bool]
    as in C++ ([ltb x y] is [x < y], [leb x y] is [x <= y]).  [of_int] is the
    implicit conversion of an [int] or [size_t] to [double]; [to_int] is
    [static_cast<int>], undefined ([None]) when the truncated value is no
    [int]; [dec m e] is the decimal literal [m * 10 ^ e]. *)
Class Arith (T : Type) : Type := {
  add : T -> T -> T;
  sub : T -> T -> T;
  mul : T -> T -> T;
  div : T -> T -> T;
  ltb : T -> T -> bool;
  leb : T -> T -> bool;
  std_abs : T -> T;
  std_sqrt : T -> T;
  std_floor : T -> T;
  std_ceil : T -> T;
  std_isnan : T -> bool;
  std_isinf : T -> bool;
  of_int : Z -> T;
  to_int : T -> option Z;
  dec : Z -> Z -> T;
  DBL_MAX : T
}.

(** The functions of <cmath> beyond the IEEE operations. *)
Class Libm (T : Type) : Type := {
  std_atan2 : T -> T -> T;
  std_cos : T -> T;
  std_sin : T -> T
}.

Declare Scope num_scope.
Delimit Scope num_scope with num.
Infix "+" := add : num_scope.
Infix "-" := sub : num_scope.
Infix "*" := mul : num_scope.
Infix "/" := div : num_scope.
Infix "<?" := ltb : num_scope.
Infix "<=?" := leb : num_scope.
Notation "x >? y" := (ltb y x) : num_scope.
Notation "x >=? y" := (leb y x) : num_scope.
Notation "# n" := (dec n 0) (at level 1, n at level 0, format "# n") : num_scope.

(** [std::min] and [std::max] of <algorithm>, as the standard defines them:
    [min(a, b)] is [b] when [b < a] and [a] otherwise, [max(a, b)] is [b]
    when [a < b] and [a] otherwise. *)
Definition std_min {T} `{Arith T} (a b : T) : T := if (b <? a)%num then b else a.
Definition std_max {T} `{Arith T} (a b : T) : T := if (a <? b)%num then b else a.

(** [for (int i = lo; i < hi; ++i) body] as a fold over [lo, hi). *)
Definition for_loop {S : Type} (lo hi : Z) (body : Z -> S -> S) (s : S) : S :=
  fold_left (fun s i => body i s) (seqZ lo (hi - lo)) s.

(** What the proofs below use of [<] and [<=] on [double].  The laws hold
    in IEEE arithmetic, where every comparison with NaN is false, and on
    the reals. *)
Class ArithOrder (T : Type) `{Arith T} : Prop := {
  leb_gtb : forall x y : T, (x <=? y)%num = true -> (x >? y)%num = false;
  ltb_leb : forall x y : T, (x <? y)%num = true -> (x <=? y)%num = true;
  not_ltb_geb : forall x y : T,
    std_isnan x = false -> std_isnan y = false ->
    (x <? y)%num = false -> (x >=? y)%num = true;
  not_leb_gtb : forall x y : T,
    std_isnan x = false -> std_isnan y = false ->
    (x <=? y)%num = false -> (x >? y)%num = true;
  isnan_zero : std_isnan (dec 0 0) = false
}.

(** ** Exact arithmetic: the real numbers *)

Module Exact.

Definition Rltb (x y : R) : bool := if Rlt_dec x y then true else false.
Definition Rleb (x y : R) : bool := if Rle_dec x y then true else false.

(** Largest integer below or at [x], least integer above or at [x], and the
    integer part towards zero. *)
Definition Zfloor (x : R) : Z := Int_part x.
Definition Zceil (x : R) : Z := - Int_part (- x).
Definition Ztrunc (x : R) : Z := if Rle_dec 0 x then Zfloor x else Zceil x.

Definition R_to_int (x : R) : option Z :=
  let z := Ztrunc x in if int_range z then Some z else None.

Definition R_dec (m e : Z) : R :=
  match e with
  | Zneg p => (IZR m / IZR (Z.pow_pos 10 p))%R
  | _ => IZR (m * 10 ^ e)
  end.

(** The largest finite binary64 number, [(2^53 - 1) * 2^971]. *)
Definition R_DBL_MAX : R := IZR ((2 ^ 53 - 1) * 2 ^ 971).

#[global] Instance arith : Arith R := {
  add := Rplus;
  sub := Rminus;
  mul := Rmult;
  div := Rdiv;
  ltb := Rltb;
  leb := Rleb;
  std_abs := Rabs;
  std_sqrt := sqrt;
  std_floor := fun x => IZR (Zfloor x);
  std_ceil := fun x => IZR (Zceil x);
  std_isnan := fun _ => false;
  std_isinf := fun _ => false;
  of_int := IZR;
  to_int := R_to_int;
  dec := R_dec;
  DBL_MAX := R_DBL_MAX
}.

(** [atan2 y x], the argument of the point [(x, y)] in (-PI, PI]. *)
Definition R_atan2 (y x : R) : R :=
  if Rlt_dec 0 x then atan (y / x)
  else if Rlt_dec x 0 then
    if Rle_dec 0 y then (atan (y / x) + PI)%R else (atan (y / x) - PI)%R
  else if Rlt_dec 0 y then (PI / 2)%R
  else if Rlt_dec y 0 then (- (PI / 2))%R
  else 0%R.

#[global] Instance libm : Libm R := {
  std_atan2 := R_atan2;
  std_cos := cos;
  std_sin := sin
}.

End Exact.

(** ** IEEE 754 binary64 on primitive floats *)

Module Binary64.
Import Stdlib.Floats.Floats.

(** The type [double]. *)
Abbreviation double := float.

(** The integer [z] rounded to the nearest binary64 number. *)
Definition float_of_Z (z : Z) : float :=
  SF2Prim (binary_normalize prec emax z 0 false).

(** The decimal literal [m * 10 ^ e] rounded to the nearest binary64 number,
    as a C++ compiler reads it.  For a negative exponent the quotient is
    computed to more than 64 bits with a sticky last bit, then rounded
    once. *)
Definition float_of_dec (m e : Z) : float :=
  if 0 <=? e then float_of_Z (m * 10 ^ e)
  else
    let q := 10 ^ (- e) in
    let k := Z.max 0 (64 + Z.log2 q - Z.log2 (Z.abs m)) in
    let n := Z.abs m * 2 ^ k in
    let d := 2 * (n / q) + (if n mod q =? 0 then 0 else 1) in
    SF2Prim (binary_normalize prec emax (if m <? 0 then - d else d) (- k - 1) false).

(** The integer part of a finite float, rounded down. *)
Definition SF_floor (x : spec_float) : option Z :=
  match x with
  | S754_zero _ => Some 0
  | S754_finite s m e =>
      let v := if s then Zneg m else Zpos m in
      Some (if 0 <=? e then v * 2 ^ e else v / 2 ^ (- e))
  | _ => None
  end.

(** [std::floor]: NaN, infinities, zeros and floats that are integers
    already (exponent at least 0) are returned as they are. *)
Definition float_floor (f : float) : float :=
  match Prim2SF f with
  | S754_finite s m e =>
      if 0 <=? e then f
      else match SF_floor (S754_finite s m e) with
           | Some z => float_of_Z z
           | None => f
           end
  | _ => f
  end.

Definition float_ceil (f : float) : float :=
  PrimFloat.opp (float_floor (PrimFloat.opp f)).

(** [static_cast<int>]: truncation towards zero; undefined for NaN,
    infinities and values whose integer part is no [int]. *)
Definition float_to_int (f : float) : option Z :=
  let t := if PrimFloat.ltb f 0%float then float_ceil f else float_floor f in
  match SF_floor (Prim2SF t) with
  | Some z => if int_range z then Some z else None
  | None => None
  end.

Definition float_DBL_MAX : float := SF2Prim (S754_finite false (2 ^ 53 - 1) 971).

(** Positive infinity. *)
Definition INFINITY : float := PrimFloat.infinity.

#[global] Instance arith : Arith float := {
  add := PrimFloat.add;
  sub := PrimFloat.sub;
  mul := PrimFloat.mul;
  div := PrimFloat.div;
  ltb := PrimFloat.ltb;
  leb := PrimFloat.leb;
  std_abs := PrimFloat.abs;
  std_sqrt := PrimFloat.sqrt;
  std_floor := float_floor;
  std_ceil := float_ceil;
  std_isnan := PrimFloat.is_nan;
  std_isinf := PrimFloat.is_infinity;
  of_int := float_of_Z;
  to_int := float_to_int;
  dec := float_of_dec;
  DBL_MAX := float_DBL_MAX
}.

(** <cmath> is no code of the repository, and primitive floats have no
    transcendental functions.  Every statement about all inputs is proved
    for an arbitrary instance of [Libm].  The two runs of [FitEllipse]
    evaluated on binary64 that reach <cmath> call [atan2] once, and [cos]
    and [sin] once on half its result; the table below holds the values at
    these arguments, which are the correctly rounded ones and those glibc
    returns.  At any other argument the table has no entry and answers
    NaN; no statement below depends on such an answer. *)
Definition cmath_atan2 (y x : float) : float :=
  if PrimFloat.eqb y (float_of_dec 48837013125 (-6))
     && PrimFloat.eqb x (float_of_dec (-65116017499999994) (-12))
  then float_of_dec 2498091544796509 (-15)
  else if PrimFloat.eqb y (float_of_dec (-13322676295501878) (-32))
          && PrimFloat.eqb x (float_of_dec (-11102230246251565) (-32))
  then float_of_dec (-22655346029916) (-13)
  else PrimFloat.nan.

Definition cmath_cos (x : float) : float :=
  if PrimFloat.eqb x (float_of_dec 12490457723982544 (-16))
  then float_of_dec 31622776601683794 (-17)
  else if PrimFloat.eqb x (float_of_dec (-11327673014958) (-13))
  then float_of_dec 4241553962497236 (-16)
  else PrimFloat.nan.

Definition cmath_sin (x : float) : float :=
  if PrimFloat.eqb x (float_of_dec 12490457723982544 (-16))
  then float_of_dec 9486832980505138 (-16)
  else if PrimFloat.eqb x (float_of_dec (-11327673014958) (-13))
  then float_of_dec (-9055894212236801) (-16)
  else PrimFloat.nan.

#[global] Instance cmath_table : Libm float := {
  std_atan2 := cmath_atan2;
  std_cos := cmath_cos;
  std_sin := cmath_sin
}.

End Binary64.

(** ** Problem1: Geometry.h, Config.h, Grid.h, Rasterizer.h *)

Module Problem1.

(** [class Point2D]. *)
Record Point2D (T : Type) : Type := mkPoint2D { pt_x : T; pt_y : T }.
Arguments mkPoint2D {T} _ _.
Arguments pt_x {T} _.
Arguments pt_y {T} _.

(** [class Circle]. *)
Record Circle (T : Type) : Type := mkCircle { center : Point2D T; radius : T }.
Arguments mkCircle {T} _ _.
Arguments center {T} _.
Arguments radius {T} _.

(** [struct GridPoint]. *)
Record GridPoint (T : Type) : Type := mkGridPoint {
  gridPosition : Point2D T;
  canvasPosition : Point2D T;
  highlighted : bool
}.
Arguments mkGridPoint {T} _ _ _.
Arguments gridPosition {T} _.
Arguments canvasPosition {T} _.
Arguments highlighted {T} _.

(** [class CoordinateTransform]. *)
Record CoordinateTransform (T : Type) : Type := mkCoordinateTransform {
  gridSpacing : T;
  gridOrigin : Point2D T;
  gridSize : Z
}.
Arguments mkCoordinateTransform {T} _ _ _.
Arguments gridSpacing {T} _.
Arguments gridOrigin {T} _.
Arguments gridSize {T} _.

(** [class Grid]: the vector of points in row-major order, the size and
    the transform. *)
Record Grid (T : Type) : Type := mkGrid {
  points : list (GridPoint T);
  size : Z;
  transform : CoordinateTransform T
}.
Arguments mkGrid {T} _ _ _.
Arguments points {T} _.
Arguments size {T} _.
Arguments transform {T} _.

Section Code.
Context {T : Type} {A : Arith T}.
Local Open Scope num_scope.

(** Config.h *)
Definition GRID_SIZE : Z := 20.
Definition WINDOW_WIDTH : Z := 800.
Definition WINDOW_HEIGHT : Z := 800.
Definition GRID_PADDING : Z := 50.
Definition RASTERIZATION_THRESHOLD : T := dec 7071 (-4).

(** [Point2D::distanceTo]. *)
Definition distanceTo (p other : Point2D T) : T :=
  let dx := pt_x p - pt_x other in
  let dy := pt_y p - pt_y other in
  std_sqrt (dx * dx + dy * dy).

(** [Circle::isValid]. *)
Definition isValid (c : Circle T) : bool := radius c >? #0.

(** The constructor of [CoordinateTransform].  The operations on [int]
    are those of [Z]: they are the ones of C++ as long as every value is a
    value of [int], and overflow is undefined there. *)
Definition CoordinateTransform_new (gridSz canvasWidth canvasHeight padding : Z)
  : CoordinateTransform T :=
  let availableWidth := (canvasWidth - 2 * padding)%Z in
  let availableHeight := (canvasHeight - 2 * padding)%Z in
  let minDimension := Z.min availableWidth availableHeight in
  let gridSpacing := of_int minDimension / of_int (gridSz - 1) in
  let origin_x :=
    of_int padding + (of_int availableWidth - gridSpacing * of_int (gridSz - 1)) / #2 in
  let origin_y :=
    of_int padding + (of_int availableHeight - gridSpacing * of_int (gridSz - 1)) / #2 in
  mkCoordinateTransform gridSpacing (mkPoint2D origin_x origin_y) gridSz.

(** [CoordinateTransform::canvasToGrid]. *)
Definition canvasToGrid (t : CoordinateTransform T) (canvas : Point2D T) : Point2D T :=
  mkPoint2D
    ((pt_x canvas - pt_x (gridOrigin t)) / gridSpacing t)
    ((pt_y canvas - pt_y (gridOrigin t)) / gridSpacing t).

(** [CoordinateTransform::gridToCanvas]. *)
Definition gridToCanvas (t : CoordinateTransform T) (grid : Point2D T) : Point2D T :=
  mkPoint2D
    (pt_x (gridOrigin t) + pt_x grid * gridSpacing t)
    (pt_y (gridOrigin t) + pt_y grid * gridSpacing t).

(** The constructor of [Grid]: the points are appended row by row, the
    point of row [row] and column [col] at grid position [(col, row)].
    [points.reserve(size * size)] changes the capacity of the vector only;
    its [int] product, like the other operations on [int], is the one of [Z]
    where it is a value of [int]. *)
Definition Grid_new (gridSize canvasWidth canvasHeight padding : Z) : Grid T :=
  let transform := CoordinateTransform_new gridSize canvasWidth canvasHeight padding in
  let points :=
    for_loop 0 gridSize (fun row points =>
      for_loop 0 gridSize (fun col points =>
        let gridPos := mkPoint2D (of_int col) (of_int row) in
        let canvasPos := gridToCanvas transform gridPos in
        points ++ [mkGridPoint gridPos canvasPos false]) points) [] in
  mkGrid points gridSize transform.

(** [Grid::getPoint]: [points[row * size + col]]. *)
Definition getPoint (grid : Grid T) (row col : Z) : option (GridPoint T) :=
  points grid !! Z.to_nat (row * size grid + col).

(** An assignment through the reference [grid.getPointMutable(row, col)]:
    the point at index [row * size + col] is replaced by [f] of it.  The
    class keeps [size * size] points, and every caller below passes
    [0 <= row, col < size], so the index is in range. *)
Definition getPointMutable (grid : Grid T) (row col : Z)
    (f : GridPoint T -> GridPoint T) : Grid T :=
  mkGrid (alter f (Z.to_nat (row * size grid + col)) (points grid))
         (size grid) (transform grid).

(** [point.highlighted = b]. *)
Definition set_highlighted (b : bool) (point : GridPoint T) : GridPoint T :=
  mkGridPoint (gridPosition point) (canvasPosition point) b.

(** The test both rasterisers apply to a point. *)
Definition near_boundary (circle : Circle T) (point : GridPoint T) : bool :=
  let distToCenter := distanceTo (center circle) (gridPosition point) in
  let distToBoundary := std_abs (distToCenter - radius circle) in
  distToBoundary <=? RASTERIZATION_THRESHOLD.

(** [CircleRasterizer::rasterize]. *)
Definition rasterize (grid : Grid T) (circle : Circle T) : Grid T :=
  if negb (isValid circle) then grid
  else
    let size := size grid in
    for_loop 0 size (fun row grid =>
      for_loop 0 size (fun col grid =>
        getPointMutable grid row col (fun point =>
          set_highlighted (near_boundary circle point) point)) grid) grid.

(** The four bounds of the bounding box of [rasterizeOptimized], each a
    [static_cast<int>] of a [double]. *)
Definition bounding_box (size : Z) (circle : Circle T) : option (Z * Z * Z * Z) :=
  let threshold := RASTERIZATION_THRESHOLD in
  lo_row ← to_int (std_floor (pt_y (center circle) - radius circle - threshold));
  hi_row ← to_int (std_ceil (pt_y (center circle) + radius circle + threshold));
  lo_col ← to_int (std_floor (pt_x (center circle) - radius circle - threshold));
  hi_col ← to_int (std_ceil (pt_x (center circle) + radius circle + threshold));
  Some (Z.max 0 lo_row, Z.min (size - 1) hi_row, Z.max 0 lo_col, Z.min (size - 1) hi_col).

(** [CircleRasterizer::rasterizeOptimized]; [None] when a conversion to
    [int] is undefined. *)
Definition rasterizeOptimized (grid : Grid T) (circle : Circle T) : option (Grid T) :=
  if negb (isValid circle) then Some grid
  else
    let size := size grid in
    '(minRow, maxRow, minCol, maxCol) ← bounding_box size circle;
    let grid :=
      for_loop minRow (maxRow + 1) (fun row grid =>
        for_loop minCol (maxCol + 1) (fun col grid =>
          getPointMutable grid row col (fun point =>
            set_highlighted (near_boundary circle point) point)) grid) grid in
    Some (for_loop 0 size (fun row grid =>
      for_loop 0 size (fun col grid =>
        if (row <? minRow)%Z || (maxRow <? row)%Z || (col <? minCol)%Z || (maxCol <? col)%Z
        then getPointMutable grid row col (set_highlighted false)
        else grid) grid) grid).

(** The state of the loop of [calculateBoundingCircles]. *)
Record bounds_state : Type := mkBounds {
  minDistance : T;
  maxDistance : T;
  hasHighlightedPoints : bool
}.

(** [Grid::calculateBoundingCircles].  The two circles are passed by
    reference: the function returns its result with their final values. *)
Definition calculateBoundingCircles (grid : Grid T) (center : Point2D T)
    (innerCircle outerCircle : Circle T) : bool * Circle T * Circle T :=
  let st :=
    fold_left (fun st point =>
      if highlighted point then
        let dist := distanceTo center (gridPosition point) in
        mkBounds (std_min (minDistance st) dist) (std_max (maxDistance st) dist) true
      else st) (points grid) (mkBounds DBL_MAX (dec 0 0) false) in
  if negb (hasHighlightedPoints st) then (false, innerCircle, outerCircle)
  else (true, mkCircle center (minDistance st), mkCircle center (maxDistance st)).

(** *** The other members of Geometry.h and Grid.h *)

(** [Point2D()] and [Circle()]. *)
Definition Point2D_default : Point2D T := mkPoint2D (dec 0 0) (dec 0 0).
Definition Circle_default : Circle T := mkCircle Point2D_default (dec 0 0).

(** [Point2D::distanceSquaredTo]. *)
Definition distanceSquaredTo (p other : Point2D T) : T :=
  let dx := pt_x p - pt_x other in
  let dy := pt_y p - pt_y other in
  dx * dx + dy * dy.

(** [Circle::distanceFromBoundary]. *)
Definition distanceFromBoundary (c : Circle T) (point : Point2D T) : T :=
  let distToCenter := distanceTo (center c) point in
  std_abs (distToCenter - radius c).

(** [Circle::isPointNearBoundary]. *)
Definition isPointNearBoundary (c : Circle T) (point : Point2D T) (threshold : T) : bool :=
  distanceFromBoundary c point <=? threshold.

(** [CoordinateTransform::canvasDistanceToGrid]. *)
Definition canvasDistanceToGrid (t : CoordinateTransform T) (canvasDistance : T) : T :=
  canvasDistance / gridSpacing t.

(** [CoordinateTransform::gridDistanceToCanvas]. *)
Definition gridDistanceToCanvas (t : CoordinateTransform T) (gridDistance : T) : T :=
  gridDistance * gridSpacing t.

(** [CoordinateTransform::getGridSpacing]. *)
Definition getGridSpacing (t : CoordinateTransform T) : T := gridSpacing t.

(** [Grid::resetHighlights]: the flag of every point is cleared in
    place. *)
Definition resetHighlights (grid : Grid T) : Grid T :=
  mkGrid (map (set_highlighted false) (points grid)) (size grid) (transform grid).

(** [Grid::getHighlightedPoints]: the grid positions of the highlighted
    points, pushed back in the order of the points. *)
Definition getHighlightedPoints (grid : Grid T) : list (Point2D T) :=
  fold_left (fun result point =>
    if highlighted point then result ++ [gridPosition point] else result)
    (points grid) [].

(** *** main.cpp: [class Application], without its rendering *)

Record Application : Type := mkApplication {
  app_grid : Grid T;
  isDragging : bool;
  dragStartCanvas : Point2D T;
  dragCurrentCanvas : Point2D T;
  hasRasterizedCircle : bool;
  userCircleGrid : Circle T;
  innerBoundGrid : Circle T;
  outerBoundGrid : Circle T
}.

(** The constructor of [Application]. *)
Definition Application_new : Application :=
  mkApplication (Grid_new GRID_SIZE WINDOW_WIDTH WINDOW_HEIGHT GRID_PADDING)
                false Point2D_default Point2D_default
                false Circle_default Circle_default Circle_default.

(** [Application::onMouseDown]. *)
Definition onMouseDown (app : Application) (x y : Z) : Application :=
  let dragStart := mkPoint2D (of_int x) (of_int y) in
  mkApplication (resetHighlights (app_grid app)) true dragStart dragStart
                false (userCircleGrid app) (innerBoundGrid app) (outerBoundGrid app).

(** [Application::onMouseMove]. *)
Definition onMouseMove (app : Application) (x y : Z) : Application :=
  if isDragging app then
    mkApplication (app_grid app) (isDragging app) (dragStartCanvas app)
                  (mkPoint2D (of_int x) (of_int y))
                  (hasRasterizedCircle app) (userCircleGrid app)
                  (innerBoundGrid app) (outerBoundGrid app)
  else app.

(** [Application::onMouseUp]; [None] when [rasterizeOptimized] has no
    defined result. *)
Definition onMouseUp (app : Application) (x y : Z) : option Application :=
  if negb (isDragging app) then Some app
  else
    let dragCurrent := mkPoint2D (of_int x) (of_int y) in
    let transform := transform (app_grid app) in
    let centerGrid := canvasToGrid transform (dragStartCanvas app) in
    let edgeGrid := canvasToGrid transform dragCurrent in
    let radiusGrid := distanceTo centerGrid edgeGrid in
    if radiusGrid >? dec 1 (-1) then
      let userCircle := mkCircle centerGrid radiusGrid in
      grid ← rasterizeOptimized (app_grid app) userCircle;
      let '(found, inner, outer) :=
        calculateBoundingCircles grid centerGrid (innerBoundGrid app) (outerBoundGrid app) in
      Some (mkApplication grid false (dragStartCanvas app) dragCurrent
              (if found then true else hasRasterizedCircle app) userCircle inner outer)
    else
      Some (mkApplication (app_grid app) false (dragStartCanvas app) dragCurrent
              (hasRasterizedCircle app) (userCircleGrid app)
              (innerBoundGrid app) (outerBoundGrid app)).

End Code.

Arguments Application T : clear implicits.
Arguments mkApplication {T} _ _ _ _ _ _ _ _.
Arguments app_grid {T} _.
Arguments isDragging {T} _.
Arguments dragStartCanvas {T} _.
Arguments dragCurrentCanvas {T} _.
Arguments hasRasterizedCircle {T} _.
Arguments userCircleGrid {T} _.
Arguments innerBoundGrid {T} _.
Arguments outerBoundGrid {T} _.

End Problem1.

(** ** Problem2: Geometry.h *)

Module Problem2.

(** [struct Point]. *)
Record Point (T : Type) : Type := mkPoint { pt_x : T; pt_y : T }.
Arguments mkPoint {T} _ _.
Arguments pt_x {T} _.
Arguments pt_y {T} _.

(** [struct Circle]. *)
Record Circle (T : Type) : Type := mkCircle { center : Point T; radius : T }.
Arguments mkCircle {T} _ _.
Arguments center {T} _.
Arguments radius {T} _.

(** The six moments accumulated by the second loop of [FitCircle]. *)
Record moments (T : Type) : Type := mkMoments {
  Mxx : T; Myy : T; Mxy : T; Mxz : T; Myz : T; Mzz : T
}.
Arguments mkMoments {T} _ _ _ _ _ _.
Arguments Mxx {T} _.
Arguments Myy {T} _.
Arguments Mxy {T} _.
Arguments Mxz {T} _.
Arguments Myz {T} _.
Arguments Mzz {T} _.

(** One pass through the body of the Newton loop either leaves the loop
    with the final [xnew], or goes on with new [xnew] and [ynew]. *)
Inductive newton_result (T : Type) : Type :=
  | Break (xnew : T)
  | Next (xnew ynew : T).
Arguments Break {T} _.
Arguments Next {T} _ _.

(** The locals of [FitCircle] that are live after the Newton loop. *)
Record fit_locals (T : Type) : Type := mkLocals {
  l_cx : T; l_cy : T; l_M : moments T;
  l_Mz : T; l_Cov_xy : T; l_Var_z : T;
  l_A0 : T; l_A1 : T; l_A2 : T; l_A22 : T;
  l_xnew : T; l_DET : T
}.
Arguments mkLocals {T} _ _ _ _ _ _ _ _ _ _ _ _.
Arguments l_cx {T} _.
Arguments l_cy {T} _.
Arguments l_M {T} _.
Arguments l_Mz {T} _.
Arguments l_Cov_xy {T} _.
Arguments l_Var_z {T} _.
Arguments l_A0 {T} _.
Arguments l_A1 {T} _.
Arguments l_A2 {T} _.
Arguments l_A22 {T} _.
Arguments l_xnew {T} _.
Arguments l_DET {T} _.

Section Code.
Context {T : Type} {A : Arith T}.
Local Open Scope num_scope.

(** [Circle()]: the invalid circle. *)
Definition Circle_default : Circle T := mkCircle (mkPoint #0 #0) #0.

(** [for (p : points) acc += f(p)], from [acc = 0]. *)
Definition sum_over (f : Point T -> T) (points : list (Point T)) : T :=
  fold_left (fun acc p => acc + f p) points #0.

Definition accumulate_moments (translated : list (Point T)) : moments T :=
  fold_left (fun m p =>
    let zi := pt_x p * pt_x p + pt_y p * pt_y p in
    mkMoments (Mxx m + pt_x p * pt_x p) (Myy m + pt_y p * pt_y p)
              (Mxy m + pt_x p * pt_y p) (Mxz m + pt_x p * zi)
              (Myz m + pt_y p * zi) (Mzz m + zi * zi))
    translated (mkMoments #0 #0 #0 #0 #0 #0).

Definition epsilon : T := dec 1 (-12).
Definition IterMax : Z := 20.

(** The quartic [f] and its derivative, as the loop evaluates them. *)
Definition newton_f (A0 A1 A2 x : T) : T := A0 + x * (A1 + x * (A2 + #4 * x * x)).
Definition newton_df (A1 A22 x : T) : T := A1 + x * (A22 + #16 * x * x).

(** The body of the Newton loop at iteration [iter], entered with [xnew]
    and [ynew]. *)
Definition newton_body (A0 A1 A2 A22 : T) (iter : Z) (xnew ynew : T) : newton_result T :=
  let yold := ynew in
  let ynew := newton_f A0 A1 A2 xnew in
  if std_abs ynew >? std_abs yold then Break #0
  else
    let Dy := newton_df A1 A22 xnew in
    let xold := xnew in
    let xnew := xold - ynew / Dy in
    if std_abs ((xnew - xold) / xnew) <? epsilon then Break xnew
    else
      let xnew := if (iter >=? IterMax - 1)%Z then #0 else xnew in
      if xnew <? #0 then Break #0 else Next xnew ynew.

(** [for (int iter = ...; iter < IterMax; iter++)] with [n] iterations
    left. *)
Fixpoint newton_loop (A0 A1 A2 A22 : T) (n : nat) (iter : Z) (xnew ynew : T) : T :=
  match n with
  | O => xnew
  | S n' =>
      match newton_body A0 A1 A2 A22 iter xnew ynew with
      | Break x => x
      | Next x y => newton_loop A0 A1 A2 A22 n' (iter + 1) x y
      end
  end.

(** [FitCircle] up to the computation of [DET]. *)
Definition FitCircle_locals (points : list (Point T)) : fit_locals T :=
  let size := of_int (Z.of_nat (length points)) in
  let sum_x := sum_over pt_x points in
  let sum_y := sum_over pt_y points in
  let cx := sum_x / size in
  let cy := sum_y / size in
  let translated := map (fun p => mkPoint (pt_x p - cx) (pt_y p - cy)) points in
  let m := accumulate_moments translated in
  let Mxx := Mxx m / size in
  let Myy := Myy m / size in
  let Mxy := Mxy m / size in
  let Mxz := Mxz m / size in
  let Myz := Myz m / size in
  let Mzz := Mzz m / size in
  let Mz := Mxx + Myy in
  let Cov_xy := Mxx * Myy - Mxy * Mxy in
  let Var_z := Mzz - Mz * Mz in
  let A2 := #4 * Cov_xy - #3 * Mz * Mz - Mzz in
  let A1 := Var_z * Mz + #4 * Cov_xy * Mz + Mxz * Mxz + Myz * Myz in
  let A0 := Mxz * (Mxz * Myy - Myz * Mxy) + Myz * (Myz * Mxx - Mxz * Mxy) - Var_z * Cov_xy in
  let A22 := A2 + A2 in
  let ynew := dec 1 20 in
  let xnew := #0 in
  let xnew := newton_loop A0 A1 A2 A22 (Z.to_nat IterMax) 0 xnew ynew in
  let DET := xnew * xnew - xnew * Mz + Cov_xy in
  mkLocals cx cy (mkMoments Mxx Myy Mxy Mxz Myz Mzz) Mz Cov_xy Var_z A0 A1 A2 A22 xnew DET.

(** [FitCircle]. *)
Definition FitCircle (points : list (Point T)) : Circle T :=
  if (length points <? 3)%nat then Circle_default
  else
    let v := FitCircle_locals points in
    let m := l_M v in
    let xnew := l_xnew v in
    let DET := l_DET v in
    if std_abs DET <? dec 1 (-10) then Circle_default
    else
      let center_x := (Mxz m * (Myy m - xnew) - Myz m * Mxy m) / DET / #2 in
      let center_y := (Myz m * (Mxx m - xnew) - Mxz m * Mxy m) / DET / #2 in
      let center_x := center_x + l_cx v in
      let center_y := center_y + l_cy v in
      let sum_r := sum_over (fun p =>
        let dx := pt_x p - center_x in
        let dy := pt_y p - center_y in
        std_sqrt (dx * dx + dy * dy)) points in
      let radius := sum_r / of_int (Z.of_nat (length points)) in
      if std_isnan center_x || std_isnan center_y || std_isnan radius
         || std_isinf center_x || std_isinf center_y || std_isinf radius
         || (radius <=? #0) || (radius >? #10000)
      then Circle_default
      else mkCircle (mkPoint center_x center_y) radius.

(** *** Config.h and Grid.h *)

Definition GRID_SIZE : Z := 20.
Definition WINDOW_WIDTH : Z := 800.
Definition WINDOW_HEIGHT : Z := 800.

(** [WINDOW_WIDTH / GRID_SIZE], the division of [int]. *)
Definition CELL_SIZE : Z := Z.quot WINDOW_WIDTH GRID_SIZE.

(** [struct GridPoint]; [gp_i] and [gp_j] are its members [i], the row,
    and [j], the column. *)
Record GridPoint : Type := mkGridPoint { gp_i : Z; gp_j : Z; selected : bool }.

(** [GridPoint()] and [GridPoint(i, j)]. *)
Definition GridPoint_default : GridPoint := mkGridPoint 0 0 false.
Definition GridPoint_new (i j : Z) : GridPoint := mkGridPoint i j false.

(** [GridPoint::GetPixelCoords]: the centre of the cell. *)
Definition GetPixelCoords (p : GridPoint) : Point T :=
  mkPoint (of_int (gp_j p * CELL_SIZE) + of_int CELL_SIZE / #2)
          (of_int (gp_i p * CELL_SIZE) + of_int CELL_SIZE / #2).

(** [class Grid]: the rows of points. *)
Record Grid : Type := mkGrid { points : list (list GridPoint) }.

(** The constructor of [Grid]: the vector is resized to [GRID_SIZE]
    rows, each row is resized to [GRID_SIZE] points and then assigned point
    by point. *)
Definition Grid_new : Grid :=
  let points := resize (Z.to_nat GRID_SIZE) [] [] in
  mkGrid (for_loop 0 GRID_SIZE (fun i points =>
    let points :=
      alter (resize (Z.to_nat GRID_SIZE) GridPoint_default) (Z.to_nat i) points in
    for_loop 0 GRID_SIZE (fun j points =>
      alter (fun row => <[Z.to_nat j := GridPoint_new i j]> row) (Z.to_nat i) points)
      points) points).

(** [points[i][j].selected = b], an assignment through the two
    subscripts. *)
Definition set_selected (b : bool) (p : GridPoint) : GridPoint :=
  mkGridPoint (gp_i p) (gp_j p) b.

(** [Grid::GetPoint]: the two subscripts of a read; [None] where the
    subscripts are out of range. *)
Definition GetPoint (g : Grid) (i j : Z) : option GridPoint :=
  if (0 <=? i)%Z && (0 <=? j)%Z
  then row ← points g !! Z.to_nat i; row !! Z.to_nat j
  else None.

(** [Grid::TogglePoint]. *)
Definition TogglePoint (g : Grid) (i j : Z) : Grid :=
  if (i >=? 0)%Z && (i <? GRID_SIZE)%Z && (j >=? 0)%Z && (j <? GRID_SIZE)%Z
  then mkGrid (alter (alter (fun p => set_selected (negb (selected p)) p) (Z.to_nat j))
                     (Z.to_nat i) (points g))
  else g.

(** [Grid::IsSelected]. *)
Definition IsSelected (g : Grid) (i j : Z) : option bool :=
  if (i >=? 0)%Z && (i <? GRID_SIZE)%Z && (j >=? 0)%Z && (j <? GRID_SIZE)%Z
  then selected <$> GetPoint g i j
  else Some false.

(** [Grid::Clear]. *)
Definition Clear (g : Grid) : Grid :=
  mkGrid (for_loop 0 GRID_SIZE (fun i points =>
    for_loop 0 GRID_SIZE (fun j points =>
      alter (alter (set_selected false) (Z.to_nat j)) (Z.to_nat i) points) points)
    (points g)).

(** [Grid::GetSelectedPoints]: the pixel coordinates of the selected
    points, row by row. *)
Definition GetSelectedPoints (g : Grid) : option (list (Point T)) :=
  for_loop 0 GRID_SIZE (fun i selectedPoints =>
    for_loop 0 GRID_SIZE (fun j selectedPoints =>
      selectedPoints ← selectedPoints;
      p ← GetPoint g i j;
      Some (if selected p then selectedPoints ++ [GetPixelCoords p] else selectedPoints))
      selectedPoints) (Some []).

(** [Grid::PixelToGrid]: the result and the two output parameters [i] and
    [j], which are assigned in every case. *)
Definition PixelToGrid (x y : Z) : bool * Z * Z :=
  let j := Z.quot x CELL_SIZE in
  let i := Z.quot y CELL_SIZE in
  ((i >=? 0)%Z && (i <? GRID_SIZE)%Z && (j >=? 0)%Z && (j <? GRID_SIZE)%Z, i, j).

(** [Grid::GetSize]. *)
Definition GetSize (g : Grid) : Z := GRID_SIZE.

(** *** main.cpp: [class Application], without its rendering *)

(** The two message boxes of [GenerateCircle], by their captions. *)
Inductive MessageBox : Type :=
  | NotEnoughPoints
  | InvalidPointConfiguration.

Record Application : Type := mkApplication {
  grid : Grid;
  bestFitCircle : Circle T;
  showCircle : bool
}.

(** The constructor of [Application]. *)
Definition Application_new : Application := mkApplication Grid_new Circle_default false.

(** [Application::OnMouseDown]. *)
Definition OnMouseDown (app : Application) (x y : Z) : Application :=
  let '(inside, i, j) := PixelToGrid x y in
  if inside then mkApplication (TogglePoint (grid app) i j) (bestFitCircle app) false
  else app.

(** [Application::GenerateCircle]: the new state and the message box
    shown, if any. *)
Definition GenerateCircle (app : Application) : option (Application * option MessageBox) :=
  selectedPoints ← GetSelectedPoints (grid app);
  if (length selectedPoints <? 3)%nat
  then Some (mkApplication (grid app) (bestFitCircle app) false, Some NotEnoughPoints)
  else
    let bestFitCircle := FitCircle selectedPoints in
    if radius bestFitCircle >? #0
    then Some (mkApplication (grid app) bestFitCircle true, None)
    else Some (mkApplication (grid app) bestFitCircle false, Some InvalidPointConfiguration).

(** [Application::Clear]. *)
Definition Application_Clear (app : Application) : Application :=
  mkApplication (Clear (grid app)) (bestFitCircle app) false.

End Code.

Arguments Application T : clear implicits.
Arguments mkApplication {T} _ _ _.
Arguments grid {T} _.
Arguments bestFitCircle {T} _.
Arguments showCircle {T} _.

End Problem2.

(** ** extracredit: Geometry.h *)

Module ExtraCredit.

(** [struct Point]. *)
Record Point (T : Type) : Type := mkPoint { pt_x : T; pt_y : T }.
Arguments mkPoint {T} _ _.
Arguments pt_x {T} _.
Arguments pt_y {T} _.

(** [struct EllipseShape]; [a] is the semi-major and [b] the semi-minor
    axis. *)
Record EllipseShape (T : Type) : Type := mkEllipseShape {
  center : Point T;
  a : T;
  b : T;
  angle : T;
  valid : bool
}.
Arguments mkEllipseShape {T} _ _ _ _ _.
Arguments center {T} _.
Arguments a {T} _.
Arguments b {T} _.
Arguments angle {T} _.
Arguments valid {T} _.

Section Code.
Context {T : Type} {A : Arith T} {L : Libm T}.
Local Open Scope num_scope.

(** [EllipseShape()]: the invalid result. *)
Definition EllipseShape_default : EllipseShape T :=
  mkEllipseShape (mkPoint #0 #0) #0 #0 #0 false.

(** [EllipseShape(c, a, b, angle)]: a valid result. *)
Definition EllipseShape_new (c : Point T) (a b angle : T) : EllipseShape T :=
  mkEllipseShape c a b angle true.

(** [for (p : points) acc += f(p)], from [acc = 0]. *)
Definition sum_over (f : Point T -> T) (points : list (Point T)) : T :=
  fold_left (fun acc p => acc + f p) points #0.

(** The determinant of the collinearity check, from the sums of centred
    squares and products (not divided by the number of points). *)
Definition collinearity_det (points : list (Point T)) : T :=
  let n := of_int (Z.of_nat (length points)) in
  let sum_x := sum_over pt_x points in
  let sum_y := sum_over pt_y points in
  let mean_x := sum_x / n in
  let mean_y := sum_y / n in
  let var_x := sum_over (fun p => let dx := pt_x p - mean_x in dx * dx) points in
  let var_y := sum_over (fun p => let dy := pt_y p - mean_y in dy * dy) points in
  let covar := sum_over (fun p =>
    let dx := pt_x p - mean_x in let dy := pt_y p - mean_y in dx * dy) points in
  var_x * var_y - covar * covar.

(** Row [k] of the design matrix [D2]: [(x, y, 1)]. *)
Definition D2_row (p : Point T) (i : nat) : T :=
  match i with
  | O => pt_x p
  | S O => pt_y p
  | _ => #1
  end.

(** [S3[i][j]]: the sum over the points of [D2[k][i] * D2[k][j]]. *)
Definition S3 (points : list (Point T)) (i j : nat) : T :=
  sum_over (fun p => D2_row p i * D2_row p j) points.

(** [det_S3], the determinant of [S3] expanded along its first row. *)
Definition det_S3 (points : list (Point T)) : T :=
  let S3 := S3 points in
  S3 0%nat 0%nat * (S3 1%nat 1%nat * S3 2%nat 2%nat - S3 1%nat 2%nat * S3 2%nat 1%nat)
  - S3 0%nat 1%nat * (S3 1%nat 0%nat * S3 2%nat 2%nat - S3 1%nat 2%nat * S3 2%nat 0%nat)
  + S3 0%nat 2%nat * (S3 1%nat 0%nat * S3 2%nat 1%nat - S3 1%nat 1%nat * S3 2%nat 0%nat).

(** The end of [FitEllipse]: the axes are swapped when [b > a], with the
    angle turned by a quarter turn, and the result is validated. *)
Definition order_and_validate (mx my a_axis b_axis theta : T) : EllipseShape T :=
  let '(a_axis, b_axis, theta) :=
    if b_axis >? a_axis
    then (b_axis, a_axis, theta + dec 314159265358979323846 (-20) / #2)
    else (a_axis, b_axis, theta) in
  if std_isnan a_axis || std_isnan b_axis || std_isnan theta
     || (a_axis <=? #0) || (b_axis <=? #0) || (a_axis >? #10000) || (b_axis >? #10000)
  then EllipseShape_default
  else EllipseShape_new (mkPoint mx my) a_axis b_axis theta.

(** The moment-based part of [FitEllipse] up to the test [b_axis > a_axis]:
    the centre [(mx, my)], the second central moments, the angle of the
    principal axis and the two axes; the values of the locals [mx], [my],
    [a_axis], [b_axis] and [theta] at that point. *)
Definition moment_axes (points : list (Point T)) : T * T * T * T * T :=
  let n := of_int (Z.of_nat (length points)) in
  let mx := sum_over pt_x points / n in
  let my := sum_over pt_y points / n in
  let mxx := sum_over (fun p => let dx := pt_x p - mx in dx * dx) points / n in
  let myy := sum_over (fun p => let dy := pt_y p - my in dy * dy) points / n in
  let mxy := sum_over (fun p =>
    let dx := pt_x p - mx in let dy := pt_y p - my in dx * dy) points / n in
  let theta := dec 5 (-1) * std_atan2 (#2 * mxy) (mxx - myy) in
  let cos_t := std_cos theta in
  let sin_t := std_sin theta in
  let var1 := mxx * cos_t * cos_t + myy * sin_t * sin_t + #2 * mxy * cos_t * sin_t in
  let var2 := mxx * sin_t * sin_t + myy * cos_t * cos_t - #2 * mxy * cos_t * sin_t in
  let a_axis := #2 * std_sqrt (std_abs var1) in
  let b_axis := #2 * std_sqrt (std_abs var2) in
  (mx, my, a_axis, b_axis, theta).

(** The moment-based part of [FitEllipse]. *)
Definition moment_fit (points : list (Point T)) : EllipseShape T :=
  let '(mx, my, a_axis, b_axis, theta) := moment_axes points in
  order_and_validate mx my a_axis b_axis theta.

(** [FitEllipse].  The matrices [S1], [S2], [S3inv], [T], [M] and [C] of
    the source are written and never read; of the design matrices only
    [S3] reaches a test. *)
Definition FitEllipse (points : list (Point T)) : EllipseShape T :=
  if (length points <? 5)%nat then EllipseShape_default
  else
    let det := collinearity_det points in
    if std_abs det <? dec 1 (-6) then EllipseShape_default
    else
      let det_S3 := det_S3 points in
      if std_abs det_S3 <? dec 1 (-10) then EllipseShape_default
      else moment_fit points.

(** *** [SolveLinearSystem]

    The matrix [Aug] is a vector of row vectors.  It is allocated with [n]
    rows of [n + 1] entries, and every subscript of the function stays
    within these bounds; a read outside the arguments [A] and [b] is
    undefined in C++ and reads as 0 here. *)

(** [M[i][j]] and [x[i]], read. *)
Definition sub2 (M : list (list T)) (i j : Z) : T :=
  default #0 (row ← M !! Z.to_nat i; row !! Z.to_nat j).
Definition sub1 (x : list T) (i : Z) : T := default #0 (x !! Z.to_nat i).

(** [M[i][j] = v] and [x[i] = v]. *)
Definition assign2 (M : list (list T)) (i j : Z) (v : T) : list (list T) :=
  alter (fun row => <[Z.to_nat j := v]> row) (Z.to_nat i) M.
Definition assign1 (x : list T) (i : Z) (v : T) : list T := <[Z.to_nat i := v]> x.

(** [for (int i = hi; i >= lo; i--) body]. *)
Definition for_loop_down {S : Type} (hi lo : Z) (body : Z -> S -> S) (s : S) : S :=
  fold_left (fun s i => body i s) (reverse (seqZ lo (hi - lo + 1))) s.

(** The augmented matrix [(A | b)]. *)
Definition augmented (A : list (list T)) (b : list T) : list (list T) :=
  let n := Z.of_nat (length b) in
  let Aug := replicate (Z.to_nat n) (replicate (Z.to_nat (n + 1)) #0) in
  for_loop 0 n (fun i Aug =>
    let Aug := for_loop 0 n (fun j Aug => assign2 Aug i j (sub2 A i j)) Aug in
    assign2 Aug i n (sub1 b i)) Aug.

(** The search of the pivot row for the column [i]. *)
Definition find_pivot (Aug : list (list T)) (n i : Z) : Z :=
  for_loop (i + 1) n (fun k maxRow =>
    if std_abs (sub2 Aug k i) >? std_abs (sub2 Aug maxRow i) then k else maxRow) i.

(** [std::swap(Aug[i], Aug[maxRow])]. *)
Definition swap_rows (Aug : list (list T)) (i maxRow : Z) : list (list T) :=
  let row_i := default [] (Aug !! Z.to_nat i) in
  let row_max := default [] (Aug !! Z.to_nat maxRow) in
  <[Z.to_nat maxRow := row_i]> (<[Z.to_nat i := row_max]> Aug).

(** The elimination of the column [i] from the row [k]. *)
Definition eliminate_row (Aug : list (list T)) (n i k : Z) : list (list T) :=
  let factor := sub2 Aug k i / sub2 Aug i i in
  for_loop i (n + 1) (fun j Aug =>
    assign2 Aug k j (sub2 Aug k j - factor * sub2 Aug i j)) Aug.

(** One pass through the body of the elimination loop. *)
Definition elimination_step (n i : Z) (Aug : list (list T)) : list (list T) :=
  let maxRow := find_pivot Aug n i in
  let Aug := swap_rows Aug i maxRow in
  if std_abs (sub2 Aug i i) <? dec 1 (-10) then Aug
  else for_loop (i + 1) n (fun k Aug => eliminate_row Aug n i k) Aug.

(** Gaussian elimination with partial pivoting. *)
Definition gaussian_elimination (n : Z) (Aug : list (list T)) : list (list T) :=
  for_loop 0 n (elimination_step n) Aug.

(** Back substitution into the vector [x], resized to [n]. *)
Definition back_substitution (Aug : list (list T)) (n : Z) (x : list T) : list T :=
  let x := resize (Z.to_nat n) #0 x in
  for_loop_down (n - 1) 0 (fun i x =>
    let x := assign1 x i (sub2 Aug i n) in
    let x := for_loop (i + 1) n (fun j x =>
      assign1 x i (sub1 x i - sub2 Aug i j * sub1 x j)) x in
    if std_abs (sub2 Aug i i) >? dec 1 (-10)
    then assign1 x i (sub1 x i / sub2 Aug i i)
    else x) x.

(** [SolveLinearSystem]: the vector [x] after the call. *)
Definition SolveLinearSystem (A : list (list T)) (b : list T) (x : list T) : list T :=
  let n := Z.of_nat (length b) in
  let Aug := augmented A b in
  let Aug := gaussian_elimination n Aug in
  back_substitution Aug n x.

End Code.

End ExtraCredit.

(** * Part II: the vocabulary of the statements and the concrete inputs *)

(** The sum of [f] over a list of any elements, in the reals. *)
Fixpoint Rsum {X : Type} (f : X -> R) (l : list X) : R :=
  match l with
  | [] => 0%R
  | p :: l' => (f p + Rsum f l')%R
  end.

(** ** Problem1 *)

Module Problem1Spec.
Import Problem1.

Section Generic.
Context {T : Type} {A : Arith T}.

(** The invariant of [class Grid], set up by its constructor and kept
    by every member function: [size * size] points in row-major order, the
    point of row [row] and column [col] at grid position [(col, row)]. *)
Definition Grid_inv (g : Grid T) : Prop :=
  length (points g) = (Z.to_nat (size g) * Z.to_nat (size g))%nat /\
  forall row col, 0 <= row < size g -> 0 <= col < size g ->
    exists p, getPoint g row col = Some p /\
              gridPosition p = mkPoint2D (of_int col) (of_int row).

(** The flags of a grid, in the order of its points. *)
Definition flags (g : Grid T) : list bool := map highlighted (points g).

(** [lo <= x < hi]. *)
Definition in_range (lo hi x : Z) : bool := (lo <=? x) && (x <? hi).

(** One cell of a sweep: the assignment [F row col] through
    [getPointMutable], under the guard [P row col]. *)
Definition guarded (P : Z -> Z -> bool) (F : Z -> Z -> GridPoint T -> GridPoint T)
    (row col : Z) (g : Grid T) : Grid T :=
  if P row col then getPointMutable g row col (F row col) else g.

(** The two nested loops all sweeps of the rasterisers share. *)
Definition sweep (P : Z -> Z -> bool) (F : Z -> Z -> GridPoint T -> GridPoint T)
    (lo_r hi_r lo_c hi_c : Z) (g : Grid T) : Grid T :=
  for_loop lo_r hi_r (fun row g =>
    for_loop lo_c hi_c (fun col g => guarded P F row col g) g) g.

(** What a sweep leaves of a grid [g]: size, transform and number of
    points are those of [g], and the point of row [r] and column [c] is the
    one of [g], changed by [H r c]. *)
Definition updated (H : Z -> Z -> GridPoint T -> GridPoint T) (g g' : Grid T) : Prop :=
  size g' = size g /\ transform g' = transform g /\
  length (points g') = length (points g) /\
  forall r c, 0 <= r -> 0 <= c < size g ->
    getPoint g' r c = H r c <$> getPoint g r c.

(** The change [F] on the cells of [D], and none elsewhere. *)
Definition effect (D : Z -> Z -> bool) (F : Z -> Z -> GridPoint T -> GridPoint T)
    (r c : Z) : GridPoint T -> GridPoint T :=
  if D r c then F r c else Datatypes.id.

End Generic.

(** The four bounds of the bounding box of [rasterizeOptimized] in exact
    arithmetic, before the conversion to [int] and the clamping to the
    grid. *)
Definition box_lo_row (c : Circle R) : Z :=
  Exact.Zfloor (pt_y (center c) - radius c - RASTERIZATION_THRESHOLD)%R.
Definition box_hi_row (c : Circle R) : Z :=
  Exact.Zceil (pt_y (center c) + radius c + RASTERIZATION_THRESHOLD)%R.
Definition box_lo_col (c : Circle R) : Z :=
  Exact.Zfloor (pt_x (center c) - radius c - RASTERIZATION_THRESHOLD)%R.
Definition box_hi_col (c : Circle R) : Z :=
  Exact.Zceil (pt_x (center c) + radius c + RASTERIZATION_THRESHOLD)%R.

(** The bounds are values of [int]: the four conversions are defined. *)
Definition box_in_int_range (c : Circle R) : Prop :=
  int_range (box_lo_row c) = true /\ int_range (box_hi_row c) = true /\
  int_range (box_lo_col c) = true /\ int_range (box_hi_col c) = true.

(** The highlighted points of a grid and their distances from [center],
    in the order of the points. *)
Definition highlighted_points {T : Type} (g : Grid T) : list (GridPoint T) :=
  List.filter highlighted (points g).
Definition highlighted_distances (g : Grid R) (center : Point2D R) : list R :=
  map (fun p => distanceTo center (gridPosition p)) (highlighted_points g).

(** Every operation on [int] of the constructors of [Grid] and of
    [CoordinateTransform] has a value of [int]: the four arguments,
    [2 * padding], the two available sides, [gridSize - 1] and the product
    [size * size] passed to [reserve]. *)
Definition constructor_in_int_range (gridSize canvasWidth canvasHeight padding : Z) : bool :=
  int_range gridSize && int_range canvasWidth && int_range canvasHeight
  && int_range padding && int_range (2 * padding)
  && int_range (canvasWidth - 2 * padding) && int_range (canvasHeight - 2 * padding)
  && int_range (gridSize - 1) && int_range (gridSize * gridSize).

(** *** Inputs in exact arithmetic *)

(** The grid of the program: [Grid(GRID_SIZE, WINDOW_WIDTH, WINDOW_HEIGHT,
    GRID_PADDING)]. *)
Definition config_grid_exact : Grid R :=
  Grid_new GRID_SIZE WINDOW_WIDTH WINDOW_HEIGHT GRID_PADDING.

(** The circle of radius 3 centred at (-1, 5), left of the 20 x 20 grid:
    it crosses the first columns and passes through the grid point
    (2, 5). *)
Definition circle_across_edge : Circle R := (mkCircle (mkPoint2D (-1) 5) 3)%R.

(** The circle of radius 5 centred at the grid point (10, 10). *)
Definition circle_in_grid_exact : Circle R := (mkCircle (mkPoint2D 10 10) 5)%R.

(** The circle of radius 3e9 centred at (0, 3e9): it passes through the
    grid point (0, 0). *)
Definition far_circle_exact : Circle R :=
  (mkCircle (mkPoint2D 0 3000000000) 3000000000)%R.

(** The 2 x 2 grid with the point of row 1 and column 1 highlighted. *)
Definition grid_2x2_one : Grid R :=
  getPointMutable (Grid_new 2 800 800 50) 1 1 (set_highlighted true).

(** *** Inputs on binary64 *)

Definition config_grid : Grid Binary64.double :=
  Grid_new GRID_SIZE WINDOW_WIDTH WINDOW_HEIGHT GRID_PADDING.

(** [far_circle_exact] on binary64. *)
Definition far_circle : Circle Binary64.double :=
  mkCircle (mkPoint2D (dec 0 0) (dec 3 9)) (dec 3 9).

(** The circle of radius 1.707105 centred at the grid point (0, 0). *)
Definition circle_1_707105 : Circle Binary64.double :=
  mkCircle (mkPoint2D (dec 0 0) (dec 0 0)) (dec 1707105 (-6)).

(** The circle of radius 4.2 centred at (5.3, 7.1). *)
Definition circle_in_grid : Circle Binary64.double :=
  mkCircle (mkPoint2D (dec 53 (-1)) (dec 71 (-1))) (dec 42 (-1)).

(** The grid of the program with the single point (0, 0) highlighted. *)
Definition config_grid_origin : Grid Binary64.double :=
  getPointMutable config_grid 0 0 (set_highlighted true).

(** *** The application *)

(** The grid of an application is a grid of the class, with the size and
    the transform the constructor of [Application] gives it. *)
Definition Application_inv {T : Type} `{Arith T} (app : Application T) : Prop :=
  Grid_inv (app_grid app) /\ size (app_grid app) = GRID_SIZE /\
  transform (app_grid app)
  = CoordinateTransform_new GRID_SIZE WINDOW_WIDTH WINDOW_HEIGHT GRID_PADDING.

(** A mouse coordinate as [LOWORD] and [HIWORD] deliver it: 16 bits. *)
Definition mouse_coordinate (z : Z) : Prop := 0 <= z <= 65535.

(** A sequence of [WM_MOUSEMOVE] events, handled in order. *)
Definition mouse_moves {T : Type} `{Arith T} (app : Application T)
    (moves : list (Z * Z)) : Application T :=
  fold_left (fun app '(x, y) => onMouseMove app x y) moves app.

End Problem1Spec.

(** ** Problem2 *)

Module Problem2Spec.
Import Problem2.

(** The points lie on one straight line [a * x + b * y = c]. *)
Definition collinear (points : list (Point R)) : Prop :=
  exists a b c : R, (a <> 0 \/ b <> 0)%R /\
    forall p, In p points -> (a * pt_x p + b * pt_y p = c)%R.

(** Four points of the unit circle, in exact arithmetic and on binary64. *)
Definition unit_circle_four : list (Point R) :=
  [mkPoint 1 0; mkPoint 0 1; mkPoint (-1) 0; mkPoint 0 (-1)]%R.
Definition unit_circle_four_double : list (Point Binary64.double) :=
  [mkPoint (of_int 1) (of_int 0); mkPoint (of_int 0) (of_int 1);
   mkPoint (of_int (-1)) (of_int 0); mkPoint (of_int 0) (of_int (-1))].

(** Three pixel centres of the 20 x 20 selection grid (cell size 40): the
    cells of rows 0, 3, 9 and columns 0, 1, 3, on the line
    [y = 3 * x - 40]. *)
Definition collinear_three_px : list (Z * Z) := [(20, 20); (60, 140); (140, 380)].
Definition collinear_three : list (Point Binary64.double) :=
  map (fun '(x, y) => mkPoint (of_int x) (of_int y)) collinear_three_px.

(** *** The selection grid *)

(** [0 <= i, j < GRID_SIZE]. *)
Definition in_grid (i j : Z) : bool :=
  (0 <=? i) && (i <? GRID_SIZE) && (0 <=? j) && (j <? GRID_SIZE).

(** The cells [(i, j)] of the grid, row by row. *)
Definition cells : list (Z * Z) :=
  concat (map (fun i => map (fun j => (i, j)) (seqZ 0 GRID_SIZE)) (seqZ 0 GRID_SIZE)).

(** The grid of [GRID_SIZE] rows of [GRID_SIZE] points in which the point
    of row [i] and column [j] carries the indices [i] and [j] and is selected
    when [sel i j] holds. *)
Definition grid_of (sel : Z -> Z -> bool) : Grid :=
  mkGrid (map (fun i => map (fun j => mkGridPoint i j (sel i j)) (seqZ 0 GRID_SIZE))
              (seqZ 0 GRID_SIZE)).

(** The invariant of [class Grid]: the grid is [grid_of] some selection. *)
Definition Grid_wf (g : Grid) : Prop := exists sel, g = grid_of sel.

(** The grids the public members of the class make. *)
Inductive reachable : Grid -> Prop :=
  | reachable_new : reachable Grid_new
  | reachable_toggle (g : Grid) (i j : Z) : reachable g -> reachable (TogglePoint g i j)
  | reachable_clear (g : Grid) : reachable g -> reachable (Clear g).

(** The pixel at the centre of the cell [(i, j)]: [(j * CELL_SIZE +
    CELL_SIZE / 2.0, i * CELL_SIZE + CELL_SIZE / 2.0)]. *)
Definition cell_centre {T : Type} `{Arith T} (c : Z * Z) : Point T :=
  mkPoint (add (of_int (c.2 * CELL_SIZE)) (div (of_int CELL_SIZE) (dec 2 0)))
          (add (of_int (c.1 * CELL_SIZE)) (div (of_int CELL_SIZE) (dec 2 0))).

(** The selected cells of a grid, row by row. *)
Definition selected_cells (g : Grid) : list (Z * Z) :=
  List.filter (fun c => match IsSelected g c.1 c.2 with Some true => true | _ => false end)
              cells.

End Problem2Spec.

(** ** extracredit *)

Module ExtraCreditSpec.
Import ExtraCredit.

(** The points lie on one straight line [a * x + b * y = c]. *)
Definition collinear (points : list (Point R)) : Prop :=
  exists a b c : R, (a <> 0 \/ b <> 0)%R /\
    forall p, In p points -> (a * pt_x p + b * pt_y p = c)%R.

(** Four points of the ellipse of semi-axes 2 and 1 about the origin,
    with its centre. *)
Definition ellipse_five : list (Point R) :=
  [mkPoint 2 0; mkPoint (-2) 0; mkPoint 0 1; mkPoint 0 (-1); mkPoint 0 0]%R.

(** Six collinear pixel centres of the 20 x 20 selection grid (cell size
    40), on the line [y = 2 * x - 20], in the order
    [Grid::GetSelectedPoints] lists them. *)
Definition collinear_six_px : list (Z * Z) :=
  [(20, 20); (60, 100); (100, 180); (140, 260); (180, 340); (300, 580)].
Definition collinear_six : list (Point Binary64.double) :=
  map (fun '(x, y) => mkPoint (of_int x) (of_int y)) collinear_six_px.

(** Five points of the diagonal. *)
Definition diagonal_five : list (Point Binary64.double) :=
  map (fun x => mkPoint (of_int x) (of_int x)) [0; 1; 2; 3; 4].

(** Five points of the line [y = 3 * x + 1] inside the window of 800 x 800
    pixels, given in sixteenths of a pixel: (12.5, 38.5),
    (91.1875, 274.5625), (149, 448), (220.3125, 661.9375) and
    (265.8125, 798.4375).  The coordinates are binary64 numbers, without
    rounding. *)
Definition collinear_five_16 : list (Z * Z) :=
  [(200, 616); (1459, 4393); (2384, 7168); (3525, 10591); (4253, 12775)].
Definition collinear_five : list (Point Binary64.double) :=
  map (fun '(x, y) => mkPoint (div (of_int x) (of_int 16)) (div (of_int y) (of_int 16)))
      collinear_five_16.

(** Five points whose second moments [mxx] and [myy] are equal and whose
    [mxy] is 0 in exact arithmetic: (0.9, 0.9), (0.9, 2.3), (2.3, 2.3),
    (3, 2.3) and (0.9, 3.7). *)
Definition swap_five : list (Point Binary64.double) :=
  [mkPoint (dec 9 (-1)) (dec 9 (-1)); mkPoint (dec 9 (-1)) (dec 23 (-1));
   mkPoint (dec 23 (-1)) (dec 23 (-1)); mkPoint (dec 3 0) (dec 23 (-1));
   mkPoint (dec 9 (-1)) (dec 37 (-1))].

(** *** The linear systems of [SolveLinearSystem] *)

Section Generic.
Context {T : Type} {A : Arith T}.

(** The shape of the augmented matrix: [n] rows of [n + 1] entries. *)
Definition augmented_shape (n : Z) (M : list (list T)) : Prop :=
  length M = Z.to_nat n /\ Forall (fun row => length row = Z.to_nat (n + 1)) M.

End Generic.

(** [M] has [n] rows of [n] entries. *)
Definition square (n : Z) (M : list (list R)) : Prop :=
  length M = Z.to_nat n /\ Forall (fun row => length row = Z.to_nat n) M.

(** The row [i] of the product of the first [n] columns of [M] with [x]. *)
Definition row_product (M : list (list R)) (x : list R) (n i : Z) : R :=
  Rsum (fun j => sub2 M i j * sub1 x j)%R (seqZ 0 n).

(** [x] solves the system of the augmented matrix [M]. *)
Definition solves (M : list (list R)) (x : list R) (n : Z) : Prop :=
  forall r, 0 <= r < n -> row_product M x n r = sub2 M r n.

(** The columns before [i] are zero below the diagonal. *)
Definition echelon (n i : Z) (M : list (list R)) : Prop :=
  forall r c, 0 <= c < i -> c < r < n -> sub2 M r c = 0%R.

(** The system [x + 2 y = 5], [3 x + 4 y = 6]. *)
Definition system_2x2 : list (list R) * list R := ([[1; 2]; [3; 4]], [5; 6])%R.

(** The 2 x 2 zero matrix with the right-hand side (1, 2). *)
Definition zero_system_2x2 : list (list R) * list R := ([[0; 0]; [0; 0]], [1; 2])%R.

End ExtraCreditSpec.

(** * Part III: the theorems *)

(** ** Facts of exact arithmetic *)

Module ExactFacts.
Import Exact.
Local Open Scope R_scope.

Lemma Rltb_true (x y : R) : Rltb x y = true <-> x < y.
Proof. unfold Rltb. destruct (Rlt_dec x y); split; (congruence || tauto). Qed.

Lemma Rltb_false (x y : R) : Rltb x y = false <-> y <= x.
Proof. unfold Rltb. destruct (Rlt_dec x y); split; intros; (congruence || lra). Qed.

Lemma Rleb_true (x y : R) : Rleb x y = true <-> x <= y.
Proof. unfold Rleb. destruct (Rle_dec x y); split; (congruence || tauto). Qed.

Lemma Rleb_false (x y : R) : Rleb x y = false <-> y < x.
Proof. unfold Rleb. destruct (Rle_dec x y); split; intros; (congruence || lra). Qed.

Lemma R_dec_int (z : Z) : R_dec z 0 = IZR z.
Proof. unfold R_dec. now rewrite Z.pow_0_r, Z.mul_1_r. Qed.

(** The operations of the class at the instance [Exact.arith] are those of
    the reals. *)
Ltac exact_arith :=
  cbn [add sub mul div ltb leb std_abs std_sqrt std_floor std_ceil std_isnan
       std_isinf of_int to_int dec DBL_MAX Exact.arith
       std_atan2 std_cos std_sin Exact.libm] in *;
  rewrite ?R_dec_int in *.

(** The order of the reals satisfies the laws. *)
#[global] Instance order : ArithOrder R.
Proof.
  split; cbn [ltb leb std_isnan dec arith].
  - intros x y Hle. apply Rltb_false. now apply Rleb_true.
  - intros x y Hlt. apply Rleb_true. apply Rltb_true in Hlt. lra.
  - intros x y _ _ Hnlt. apply Rleb_true. now apply Rltb_false.
  - intros x y _ _ Hnle. apply Rltb_true. now apply Rleb_false.
  - reflexivity.
Qed.

(** *** Floor, ceiling and the conversion to [int] *)

Lemma Zfloor_bounds (x : R) : IZR (Zfloor x) <= x < IZR (Zfloor x) + 1.
Proof. unfold Zfloor. destruct (base_Int_part x). lra. Qed.

Lemma Zceil_bounds (x : R) : IZR (Zceil x) - 1 < x <= IZR (Zceil x).
Proof.
  unfold Zceil. rewrite opp_IZR. destruct (base_Int_part (- x)). lra.
Qed.

Lemma Zfloor_unique (z : Z) (x : R) : IZR z <= x < IZR z + 1 -> Zfloor x = z.
Proof.
  intros [H1 H2]. pose proof (Zfloor_bounds x) as [Hb1 Hb2].
  assert (Hlt1 : (Zfloor x < z + 1)%Z) by (apply lt_IZR; rewrite plus_IZR; lra).
  assert (Hlt2 : (z < Zfloor x + 1)%Z) by (apply lt_IZR; rewrite plus_IZR; lra).
  lia.
Qed.

Lemma Zceil_unique (z : Z) (x : R) : IZR z - 1 < x <= IZR z -> Zceil x = z.
Proof.
  intros [H1 H2]. pose proof (Zceil_bounds x) as [Hb1 Hb2].
  assert (Hlt1 : (Zceil x - 1 < z)%Z) by (apply lt_IZR; rewrite minus_IZR; lra).
  assert (Hlt2 : (z - 1 < Zceil x)%Z) by (apply lt_IZR; rewrite minus_IZR; lra).
  lia.
Qed.

Lemma Zfloor_IZR (z : Z) : Zfloor (IZR z) = z.
Proof. apply Zfloor_unique. lra. Qed.

Lemma Zceil_IZR (z : Z) : Zceil (IZR z) = z.
Proof. apply Zceil_unique. lra. Qed.

Lemma Ztrunc_IZR (z : Z) : Ztrunc (IZR z) = z.
Proof. unfold Ztrunc. destruct (Rle_dec 0 (IZR z)); [apply Zfloor_IZR | apply Zceil_IZR]. Qed.

Lemma R_to_int_IZR (z : Z) : int_range z = true -> R_to_int (IZR z) = Some z.
Proof. intros H. unfold R_to_int. rewrite Ztrunc_IZR, H. reflexivity. Qed.

(** An integer outside the range of [int] has no conversion. *)
Lemma R_to_int_out_of_range (z : Z) : int_range z = false -> R_to_int (IZR z) = None.
Proof. intros H. unfold R_to_int. rewrite Ztrunc_IZR, H. reflexivity. Qed.

Lemma int_range_Zfloor (x : R) :
  -2147483648 <= x < 2147483648 -> int_range (Zfloor x) = true.
Proof.
  intros [H1 H2]. pose proof (Zfloor_bounds x) as [Hb1 Hb2].
  assert (Hlo : (-2147483648 < Zfloor x + 1)%Z) by (apply lt_IZR; rewrite plus_IZR; lra).
  assert (Hhi : (Zfloor x < 2147483648)%Z) by (apply lt_IZR; lra).
  unfold int_range, INT_MIN, INT_MAX.
  apply andb_true_intro. split; apply Z.leb_le; lia.
Qed.

Lemma int_range_Zceil (x : R) :
  -2147483649 < x <= 2147483647 -> int_range (Zceil x) = true.
Proof.
  intros [H1 H2]. pose proof (Zceil_bounds x) as [Hb1 Hb2].
  assert (Hlo : (-2147483649 < Zceil x)%Z) by (apply lt_IZR; lra).
  assert (Hhi : (Zceil x - 1 < 2147483647)%Z) by (apply lt_IZR; rewrite minus_IZR; lra).
  unfold int_range, INT_MIN, INT_MAX.
  apply andb_true_intro. split; apply Z.leb_le; lia.
Qed.

(** *** Square roots *)

Lemma sqrt_sum_squares_ge_l (u v : R) : Rabs u <= sqrt (u * u + v * v).
Proof.
  rewrite <- (sqrt_Rsqr_abs u). apply sqrt_le_1_alt. unfold Rsqr. nra.
Qed.

Lemma sqrt_sum_squares_ge_r (u v : R) : Rabs v <= sqrt (u * u + v * v).
Proof.
  rewrite <- (sqrt_Rsqr_abs v). apply sqrt_le_1_alt. unfold Rsqr. nra.
Qed.

(** *** Minimum and maximum *)

Lemma std_min_exact (x y : R) : std_min x y = Rmin x y.
Proof.
  unfold std_min, Rmin. exact_arith. unfold Rltb.
  destruct (Rlt_dec y x), (Rle_dec x y); try reflexivity; lra.
Qed.

Lemma std_max_exact (x y : R) : std_max x y = Rmax x y.
Proof.
  unfold std_max, Rmax. exact_arith. unfold Rltb.
  destruct (Rlt_dec x y), (Rle_dec x y); try reflexivity; lra.
Qed.

Lemma fold_Rmin_spec (ds : list R) (m0 : R) :
  let m := fold_left Rmin ds m0 in
  m <= m0 /\ (forall d, In d ds -> m <= d) /\ (m = m0 \/ In m ds).
Proof.
  revert m0. induction ds as [|d ds IH]; intros m0; cbn.
  - split; [lra |]. split; [tauto | now left].
  - destruct (IH (Rmin m0 d)) as (H1 & H2 & H3).
    pose proof (Rmin_l m0 d). pose proof (Rmin_r m0 d).
    split; [lra |]. split.
    + intros d' [<- | Hin]; [lra | now apply H2].
    + destruct H3 as [H3 | H3]; [| now right; right].
      rewrite H3. unfold Rmin. destruct (Rle_dec m0 d); [now left | right; now left].
Qed.

Lemma fold_Rmax_spec (ds : list R) (m0 : R) :
  let m := fold_left Rmax ds m0 in
  m0 <= m /\ (forall d, In d ds -> d <= m) /\ (m = m0 \/ In m ds).
Proof.
  revert m0. induction ds as [|d ds IH]; intros m0; cbn.
  - split; [lra |]. split; [tauto | now left].
  - destruct (IH (Rmax m0 d)) as (H1 & H2 & H3).
    pose proof (Rmax_l m0 d). pose proof (Rmax_r m0 d).
    split; [lra |]. split.
    + intros d' [<- | Hin]; [lra | now apply H2].
    + destruct H3 as [H3 | H3]; [| now right; right].
      rewrite H3. unfold Rmax. destruct (Rle_dec m0 d); [right; now left | now left].
Qed.

(** *** Sums *)

Lemma fold_left_Rsum {X : Type} (f : X -> R) (l : list X) (acc : R) :
  fold_left (fun acc p => acc + f p) l acc = acc + Rsum f l.
Proof.
  revert acc. induction l as [|p l IH]; intros acc; cbn; [lra |].
  rewrite IH. lra.
Qed.

Lemma Rsum_ext_in {X : Type} (f g : X -> R) (l : list X) :
  (forall p, In p l -> f p = g p) -> Rsum f l = Rsum g l.
Proof.
  induction l as [|p l IH]; intros H; cbn; [reflexivity |].
  rewrite (H p) by now left. rewrite IH; [reflexivity |].
  intros q Hq. apply H. now right.
Qed.

Lemma Rsum_zero {X : Type} (l : list X) : Rsum (fun _ => 0) l = 0.
Proof. induction l as [|p l IH]; cbn; lra. Qed.

Lemma Rsum_const {X : Type} (c : R) (l : list X) :
  Rsum (fun _ => c) l = IZR (Z.of_nat (length l)) * c.
Proof.
  induction l as [|p l IH]; [cbn [Rsum length]; change (Z.of_nat 0) with 0%Z; lra |].
  cbn [Rsum length]. rewrite IH, Nat2Z.inj_succ, succ_IZR. lra.
Qed.

Lemma Rsum_linear {X : Type} (a b : R) (f g : X -> R) (l : list X) :
  Rsum (fun p => a * f p + b * g p) l = a * Rsum f l + b * Rsum g l.
Proof. induction l as [|p l IH]; cbn; [lra | rewrite IH; lra]. Qed.

Lemma Rsum_map {X Y : Type} (f : Y -> R) (h : X -> Y) (l : list X) :
  Rsum f (map h l) = Rsum (fun p => f (h p)) l.
Proof. induction l as [|p l IH]; cbn; [reflexivity | now rewrite IH]. Qed.

(** The sum of the products of the deviations from [u] and [v]. *)
Lemma Rsum_centred {X : Type} (f g : X -> R) (u v : R) (l : list X) :
  Rsum (fun p => (f p - u) * (g p - v)) l =
  Rsum (fun p => f p * g p) l - v * Rsum f l - u * Rsum g l
  + IZR (Z.of_nat (length l)) * u * v.
Proof.
  induction l as [|p l IH]; [cbn [Rsum length]; change (Z.of_nat 0) with 0%Z; lra |].
  cbn [Rsum length]. rewrite IH, Nat2Z.inj_succ, succ_IZR. lra.
Qed.

(** A linear relation that holds at every element holds between the
    sums. *)
Lemma linear_relation_of_sums {X : Type} (a b : R) (f g : X -> R) (l : list X) :
  (forall p, In p l -> a * f p + b * g p = 0) ->
  a * Rsum f l + b * Rsum g l = 0.
Proof.
  intros H. rewrite <- Rsum_linear.
  now rewrite (Rsum_ext_in _ (fun _ => 0) l H), Rsum_zero.
Qed.

(** A linear relation that holds at every element holds between the
    sums, divided by any [n]. *)
Lemma relation_of_sums {X : Type} (a b n : R) (f g : X -> R) (l : list X) :
  (forall p, In p l -> a * f p + b * g p = 0) ->
  a * (Rsum f l / n) + b * (Rsum g l / n) = 0.
Proof.
  intros H.
  replace (a * (Rsum f l / n) + b * (Rsum g l / n))
    with ((a * Rsum f l + b * Rsum g l) / n) by (unfold Rdiv; ring).
  rewrite <- Rsum_linear.
  rewrite (Rsum_ext_in _ (fun _ => 0) l H), Rsum_zero. unfold Rdiv. ring.
Qed.

(** The centroid of points on a line lies on the line. *)
Lemma centroid_on_line {X : Type} (fx fy : X -> R) (a b c : R) (l : list X) :
  (0 < length l)%nat ->
  (forall p, In p l -> a * fx p + b * fy p = c) ->
  let n := IZR (Z.of_nat (length l)) in
  a * (Rsum fx l / n) + b * (Rsum fy l / n) = c.
Proof.
  intros Hlen Hline n.
  assert (Hn : n <> 0) by (unfold n; apply not_0_IZR; lia).
  replace (a * (Rsum fx l / n) + b * (Rsum fy l / n))
    with ((a * Rsum fx l + b * Rsum fy l) / n) by (unfold Rdiv; ring).
  rewrite <- Rsum_linear.
  rewrite (Rsum_ext_in _ (fun _ => c) l Hline), Rsum_const. fold n.
  field. exact Hn.
Qed.

(** Three linear relations between moments force [Cov_xy] and [A0] to
    vanish. *)
Lemma degenerate_moments (a b mxx myy mxy mxz myz var_z : R) :
  a <> 0 \/ b <> 0 ->
  a * mxx + b * mxy = 0 -> a * mxy + b * myy = 0 -> a * mxz + b * myz = 0 ->
  mxx * myy - mxy * mxy = 0 /\
  mxz * (mxz * myy - myz * mxy) + myz * (myz * mxx - mxz * mxy)
    - var_z * (mxx * myy - mxy * mxy) = 0.
Proof.
  intros [Ha | Hb] H1 H2 H3.
  - assert (E1 : mxx = - b * mxy / a) by (field_simplify_eq; [lra | exact Ha]).
    assert (E2 : mxy = - b * myy / a) by (field_simplify_eq; [lra | exact Ha]).
    assert (E3 : mxz = - b * myz / a) by (field_simplify_eq; [lra | exact Ha]).
    rewrite E1, E3, E2. split; field; exact Ha.
  - assert (E1 : mxy = - a * mxx / b) by (field_simplify_eq; [lra | exact Hb]).
    assert (E2 : myy = - a * mxy / b) by (field_simplify_eq; [lra | exact Hb]).
    assert (E3 : myz = - a * mxz / b) by (field_simplify_eq; [lra | exact Hb]).
    rewrite E2, E3, E1. split; field; exact Hb.
Qed.

End ExactFacts.

(** ** Facts of binary64 *)

Module Binary64Facts.
Import Stdlib.Floats.Floats.
Import Binary64.

(** Exchanging the operands of a comparison exchanges [Lt] and [Gt]. *)
Lemma SFcompare_swap (x y : spec_float) :
  SFcompare y x = option_map CompOpp (SFcompare x y).
Proof.
  destruct x as [sx|sx| |sx mx ex], y as [sy|sy| |sy my ey]; cbn;
    try reflexivity;
    try (destruct sx; reflexivity); try (destruct sy; reflexivity);
    try (destruct sx, sy; reflexivity).
  destruct sx, sy; cbn; try reflexivity;
    rewrite (Z.compare_antisym ex ey); destruct (ex ?= ey)%Z; cbn; try reflexivity;
    repeat f_equal; symmetry; exact (Pos.compare_cont_antisym mx my Eq).
Qed.

Lemma is_nan_false (x : float) :
  is_nan x = false -> exists c, SFcompare (Prim2SF x) (Prim2SF x) = Some c.
Proof.
  unfold is_nan. rewrite FloatAxioms.eqb_spec. unfold SFeqb.
  destruct (SFcompare (Prim2SF x) (Prim2SF x)) as [c|]; [eauto | discriminate].
Qed.

(** Two floats that are not NaN compare. *)
Lemma not_nan_comparable (x y : float) :
  is_nan x = false -> is_nan y = false ->
  exists c, SFcompare (Prim2SF x) (Prim2SF y) = Some c.
Proof.
  intros Hx Hy. apply is_nan_false in Hx as [cx Hx]. apply is_nan_false in Hy as [cy Hy].
  destruct (Prim2SF x) as [sx|sx| |sx mx ex], (Prim2SF y) as [sy|sy| |sy my ey];
    cbn in *; try discriminate; eauto.
Qed.

(** The order of binary64 satisfies the laws. *)
#[global] Instance order : ArithOrder float.
Proof.
  split; cbn [ltb leb std_isnan dec arith].
  - intros x y. rewrite FloatAxioms.leb_spec, FloatAxioms.ltb_spec.
    unfold SFleb, SFltb. rewrite (SFcompare_swap (Prim2SF x) (Prim2SF y)).
    destruct (SFcompare (Prim2SF x) (Prim2SF y)) as [[]|]; cbn; congruence.
  - intros x y. rewrite FloatAxioms.leb_spec, FloatAxioms.ltb_spec.
    unfold SFleb, SFltb.
    destruct (SFcompare (Prim2SF x) (Prim2SF y)) as [[]|]; cbn; congruence.
  - intros x y Hx Hy. rewrite FloatAxioms.leb_spec, FloatAxioms.ltb_spec.
    unfold SFleb, SFltb. rewrite (SFcompare_swap (Prim2SF x) (Prim2SF y)).
    destruct (not_nan_comparable x y Hx Hy) as [c ->].
    destruct c; cbn; congruence.
  - intros x y Hx Hy. rewrite FloatAxioms.leb_spec, FloatAxioms.ltb_spec.
    unfold SFleb, SFltb. rewrite (SFcompare_swap (Prim2SF x) (Prim2SF y)).
    destruct (not_nan_comparable x y Hx Hy) as [c ->].
    destruct c; cbn; congruence.
  - vm_compute. reflexivity.
Qed.

End Binary64Facts.

(** ** Counting loops *)

Section Loops.
Context {S : Type}.

Lemma for_loop_nil (lo hi : Z) (body : Z -> S -> S) (s : S) :
  hi <= lo -> for_loop lo hi body s = s.
Proof. intros H. unfold for_loop. rewrite seqZ_nil by lia. reflexivity. Qed.

Lemma for_loop_snoc (lo hi : Z) (body : Z -> S -> S) (s : S) :
  lo <= hi -> for_loop lo (hi + 1) body s = body hi (for_loop lo hi body s).
Proof.
  intros H. unfold for_loop.
  replace (hi + 1 - lo) with ((hi - lo) + 1) by lia.
  rewrite seqZ_app by lia. rewrite fold_left_app.
  replace (lo + (hi - lo)) with hi by lia.
  rewrite seqZ_cons by lia. rewrite seqZ_nil by lia. reflexivity.
Qed.

(** The invariant rule of a counting loop. *)
Lemma for_loop_invariant (I : Z -> S -> Prop) (lo hi : Z) (body : Z -> S -> S) (s : S) :
  lo <= hi ->
  I lo s ->
  (forall i s', lo <= i < hi -> I i s' -> I (i + 1) (body i s')) ->
  I hi (for_loop lo hi body s).
Proof.
  intros Hle H0 Hstep.
  assert (Hgen : forall n : nat, lo + Z.of_nat n <= hi ->
            I (lo + Z.of_nat n) (for_loop lo (lo + Z.of_nat n) body s)).
  { induction n as [|n IH]; intros Hn.
    - rewrite Z.add_0_r, for_loop_nil by lia. exact H0.
    - replace (lo + Z.of_nat (Datatypes.S n)) with ((lo + Z.of_nat n) + 1) by lia.
      rewrite for_loop_snoc by lia. apply Hstep; [lia | apply IH; lia]. }
  specialize (Hgen (Z.to_nat (hi - lo))).
  replace (lo + Z.of_nat (Z.to_nat (hi - lo))) with hi in Hgen by lia.
  apply Hgen. lia.
Qed.

(** A loop that appends one element per iteration appends the image of
    its range. *)
Lemma append_loop {X : Type} (f : Z -> X) (n : Z) (l : list X) :
  for_loop 0 n (fun col l => l ++ [f col]) l = l ++ map f (seqZ 0 n).
Proof.
  destruct (Z.le_gt_cases 0 n) as [Hle|Hgt].
  - unfold for_loop. rewrite Z.sub_0_r.
    generalize (seqZ 0 n). intros cols. revert l.
    induction cols as [|c cols IH]; intros l; cbn; [now rewrite app_nil_r |].
    rewrite IH. now rewrite <- app_assoc.
  - unfold for_loop. rewrite !seqZ_nil by lia. cbn. now rewrite app_nil_r.
Qed.

End Loops.

(** ** Problem1: the rasterisers, the bounding circles and the transform *)

Module Problem1Facts.
Import Problem1 Problem1Spec.

Section Generic.
Context {T : Type} {A : Arith T}.
Local Open Scope num_scope.

Lemma cell_index_inj (n r c r' c' : Z) :
  (0 <= r)%Z -> (0 <= r')%Z -> (0 <= c < n)%Z -> (0 <= c' < n)%Z ->
  Z.to_nat (r * n + c) = Z.to_nat (r' * n + c') -> r = r' /\ c = c'.
Proof.
  intros Hr Hr' Hc Hc' Heq.
  assert (Hz : (r * n + c = r' * n + c')%Z) by nia.
  assert (r = r') by nia. subst r'. split; [reflexivity | lia].
Qed.

Lemma updated_refl (g : Grid T) : updated (fun _ _ => Datatypes.id) g g.
Proof.
  repeat split. intros r c _ _. now rewrite option_fmap_id.
Qed.

Lemma guarded_updated (P : Z -> Z -> bool) F (D : Z -> Z -> bool) (row col : Z)
    (g0 g : Grid T) :
  (0 <= row)%Z -> (0 <= col < size g0)%Z ->
  D row col = false ->
  updated (effect D F) g0 g ->
  updated (effect (fun r c => D r c || ((r =? row)%Z && (c =? col)%Z && P r c)) F)
          g0 (guarded P F row col g).
Proof.
  intros Hrow Hcol HD (Hsz & Htr & Hlen & Hpt). unfold guarded.
  assert (Hpt' : forall r c, (0 <= r)%Z -> (0 <= c < size g0)%Z ->
            points g !! Z.to_nat (r * size g0 + c) = effect D F r c <$> getPoint g0 r c).
  { intros r c Hr Hc. rewrite <- (Hpt r c Hr Hc). unfold getPoint. now rewrite Hsz. }
  destruct (P row col) eqn:HP.
  - unfold getPointMutable. repeat split; cbn [size transform points].
    + exact Hsz.
    + exact Htr.
    + rewrite length_alter. exact Hlen.
    + intros r c Hr Hc. unfold getPoint at 1. cbn [points size].
      rewrite Hsz. rewrite list_lookup_alter.
      destruct (decide (Z.to_nat (row * size g0 + col) = Z.to_nat (r * size g0 + c))) as [He|Hne].
      * apply cell_index_inj in He as [-> ->]; try lia.
        rewrite (Hpt' r c Hr Hc). unfold effect.
        rewrite HD, !Z.eqb_refl, HP. cbn.
        destruct (getPoint g0 r c); reflexivity.
      * rewrite (Hpt' r c Hr Hc). unfold effect.
        destruct (Z.eqb_spec r row) as [->|]; destruct (Z.eqb_spec c col) as [->|];
          cbn; rewrite ?orb_false_r; try reflexivity.
        congruence.
  - repeat split; try assumption.
    intros r c Hr Hc. rewrite (Hpt r c Hr Hc). unfold effect.
    destruct (Z.eqb_spec r row) as [->|]; destruct (Z.eqb_spec c col) as [->|];
      cbn; rewrite ?orb_false_r; try reflexivity.
    now rewrite HP, orb_false_r.
Qed.

Lemma updated_ext (H H' : Z -> Z -> GridPoint T -> GridPoint T) (g g' : Grid T) :
  (forall r c p, (0 <= r)%Z -> (0 <= c < size g)%Z -> H r c p = H' r c p) ->
  updated H g g' -> updated H' g g'.
Proof.
  intros Hext (Hsz & Htr & Hlen & Hpt). repeat split; try assumption.
  intros r c Hr Hc. rewrite (Hpt r c Hr Hc).
  destruct (getPoint g r c); cbn; [f_equal; now apply Hext | reflexivity].
Qed.

Lemma updated_effect_ext (D D' : Z -> Z -> bool) F (g g' : Grid T) :
  (forall r c, (0 <= r)%Z -> (0 <= c < size g)%Z -> D r c = D' r c) ->
  updated (effect D F) g g' -> updated (effect D' F) g g'.
Proof.
  intros HD. apply updated_ext. intros r c p Hr Hc. unfold effect.
  now rewrite (HD r c Hr Hc).
Qed.

(** The inner loop over the columns [lo, hi) of row [row]. *)
Lemma inner_updated (P : Z -> Z -> bool) F (D : Z -> Z -> bool) (row lo hi : Z)
    (g0 g : Grid T) :
  (0 <= row)%Z -> (0 <= lo)%Z -> (hi <= size g0)%Z ->
  (forall c, (lo <= c < hi)%Z -> D row c = false) ->
  updated (effect D F) g0 g ->
  updated (effect (fun r c => D r c || ((r =? row)%Z && in_range lo hi c && P r c)) F)
          g0 (for_loop lo hi (fun col g => guarded P F row col g) g).
Proof.
  intros Hrow Hlo Hhi HD Hg.
  destruct (Z.le_gt_cases lo hi) as [Hle|Hgt].
  - apply (for_loop_invariant
      (fun j g' => updated
         (effect (fun r c => D r c || ((r =? row)%Z && in_range lo j c && P r c)) F) g0 g')).
    + exact Hle.
    + revert Hg. apply updated_effect_ext. intros r c _ _. unfold in_range.
      destruct (Z.leb_spec lo c), (Z.ltb_spec c lo); cbn;
        rewrite ?andb_false_r, ?orb_false_r; try reflexivity; lia.
    + intros j g' Hj Hg'.
      assert (Hfresh : D row j || ((row =? row)%Z && in_range lo j j && P row j) = false).
      { rewrite (HD j) by lia. unfold in_range.
        destruct (Z.ltb_spec j j); [lia |]. now rewrite !andb_false_r. }
      pose proof (guarded_updated P F
        (fun r c => D r c || ((r =? row)%Z && in_range lo j c && P r c))
        row j g0 g' Hrow ltac:(lia) Hfresh Hg') as Hnext.
      revert Hnext. apply updated_effect_ext.
      intros r c _ _. unfold in_range.
      destruct (Z.eqb_spec r row); destruct (Z.eqb_spec c j);
        destruct (Z.leb_spec lo c); destruct (Z.ltb_spec c j);
        destruct (Z.ltb_spec c (j + 1)); destruct (D r c); destruct (P r c);
        cbn; try reflexivity; lia.
  - rewrite for_loop_nil by lia. revert Hg. apply updated_effect_ext.
    intros r c _ _. unfold in_range.
    destruct (Z.leb_spec lo c), (Z.ltb_spec c hi); cbn;
      rewrite ?andb_false_r, ?orb_false_r; try reflexivity; lia.
Qed.

(** A sweep changes exactly the points of the rows [lo_r, hi_r) and
    columns [lo_c, hi_c) at which the guard holds. *)
Lemma sweep_updated (P : Z -> Z -> bool) F (lo_r hi_r lo_c hi_c : Z) (g : Grid T) :
  (0 <= lo_r)%Z -> (0 <= lo_c)%Z -> (hi_c <= size g)%Z ->
  updated (effect (fun r c => in_range lo_r hi_r r && in_range lo_c hi_c c && P r c) F)
          g (sweep P F lo_r hi_r lo_c hi_c g).
Proof.
  intros Hlr Hlc Hhc. unfold sweep.
  destruct (Z.le_gt_cases lo_r hi_r) as [Hle|Hgt].
  - apply (for_loop_invariant
      (fun i g' => updated
         (effect (fun r c => in_range lo_r i r && in_range lo_c hi_c c && P r c) F) g g')).
    + exact Hle.
    + eapply updated_ext; [| apply updated_refl].
      intros r c p _ _. unfold effect, in_range.
      destruct (Z.leb_spec lo_r r), (Z.ltb_spec r lo_r); cbn; try reflexivity; lia.
    + intros i g' Hi Hg'.
      assert (Hfresh : forall c, (lo_c <= c < hi_c)%Z ->
                in_range lo_r i i && in_range lo_c hi_c c && P i c = false).
      { intros c _. unfold in_range.
        destruct (Z.ltb_spec i i); [lia |]. now rewrite andb_false_r. }
      pose proof (inner_updated P F
        (fun r c => in_range lo_r i r && in_range lo_c hi_c c && P r c)
        i lo_c hi_c g g' ltac:(lia) Hlc Hhc Hfresh Hg') as Hnext.
      revert Hnext. apply updated_effect_ext.
      intros r c _ _. unfold in_range.
      destruct (Z.eqb_spec r i); destruct (Z.leb_spec lo_r r);
        destruct (Z.ltb_spec r i); destruct (Z.ltb_spec r (i + 1));
        destruct ((lo_c <=? c)%Z && (c <? hi_c)%Z); destruct (P r c);
        cbn; try reflexivity; lia.
  - rewrite for_loop_nil by lia.
    eapply updated_ext; [| apply updated_refl].
    intros r c p _ _. unfold effect, in_range.
    destruct (Z.leb_spec lo_r r), (Z.ltb_spec r hi_r); cbn; try reflexivity; lia.
Qed.

Lemma index_cell (g : Grid T) (i : nat) :
  length (points g) = (Z.to_nat (size g) * Z.to_nat (size g))%nat ->
  (i < length (points g))%nat ->
  exists r c, (0 <= r < size g)%Z /\ (0 <= c < size g)%Z /\
              i = Z.to_nat (r * size g + c).
Proof.
  intros Hlen Hi.
  assert (Hpos : (0 < size g)%Z) by (destruct (size g); cbn in *; lia).
  exists (Z.of_nat i / size g)%Z, (Z.of_nat i mod size g)%Z.
  pose proof (Z.div_mod (Z.of_nat i) (size g) ltac:(lia)) as Hdm.
  pose proof (Z.mod_pos_bound (Z.of_nat i) (size g) Hpos) as Hmod.
  assert (Hdiv : (0 <= Z.of_nat i / size g < size g)%Z).
  { split; [apply Z.div_pos; lia |]. apply Z.div_lt_upper_bound; [lia |]. nia. }
  repeat split; try lia.
Qed.

(** Two grids of the same shape with the same points cell by cell have
    the same points. *)
Lemma points_eq_by_cell (g g1 g2 : Grid T) :
  length (points g) = (Z.to_nat (size g) * Z.to_nat (size g))%nat ->
  size g1 = size g -> length (points g1) = length (points g) ->
  size g2 = size g -> length (points g2) = length (points g) ->
  (forall r c, (0 <= r < size g)%Z -> (0 <= c < size g)%Z ->
     getPoint g1 r c = getPoint g2 r c) ->
  points g1 = points g2.
Proof.
  intros Hlen Hs1 Hl1 Hs2 Hl2 Hcell. apply list_eq. intros i.
  destruct (Nat.lt_ge_cases i (length (points g))) as [Hi|Hi].
  - destruct (index_cell g i Hlen Hi) as (r & c & Hr & Hc & ->).
    specialize (Hcell r c Hr Hc). unfold getPoint in Hcell.
    now rewrite Hs1, Hs2 in Hcell.
  - rewrite !(proj2 (lookup_ge_None _ _)) by lia. reflexivity.
Qed.

(** On a valid circle [rasterize] is the full sweep of the boundary
    test. *)
Lemma rasterize_sweep (g : Grid T) (c : Circle T) :
  isValid c = true ->
  rasterize g c =
  sweep (fun _ _ => true) (fun _ _ p => set_highlighted (near_boundary c p) p)
        0 (size g) 0 (size g) g.
Proof. intros Hv. unfold rasterize. rewrite Hv. reflexivity. Qed.

Lemma rasterize_updated (g : Grid T) (c : Circle T) :
  isValid c = true ->
  updated (effect (fun r col => in_range 0 (size g) r && in_range 0 (size g) col)
                  (fun _ _ p => set_highlighted (near_boundary c p) p))
          g (rasterize g c).
Proof.
  intros Hv. rewrite (rasterize_sweep g c Hv).
  eapply updated_effect_ext; [| apply sweep_updated; lia].
  intros r col _ _. cbn. now rewrite andb_true_r.
Qed.

(** [rasterize] rewrites the flag of every point with the boundary test
    and nothing else. *)
Lemma rasterize_points (g : Grid T) (c : Circle T) :
  length (points g) = (Z.to_nat (size g) * Z.to_nat (size g))%nat ->
  isValid c = true ->
  points (rasterize g c) =
  map (fun p => set_highlighted (near_boundary c p) p) (points g).
Proof.
  intros Hlen Hv. destruct (rasterize_updated g c Hv) as (Hsz & _ & Hl & Hpt).
  apply list_eq. intros i. rewrite list_lookup_fmap.
  destruct (Nat.lt_ge_cases i (length (points g))) as [Hi|Hi].
  - destruct (index_cell g i Hlen Hi) as (r & col & Hr & Hc & ->).
    specialize (Hpt r col ltac:(lia) Hc). unfold getPoint in Hpt. rewrite Hsz in Hpt.
    rewrite Hpt. unfold effect, in_range.
    destruct (Z.leb_spec 0 r), (Z.ltb_spec r (size g)),
      (Z.leb_spec 0 col), (Z.ltb_spec col (size g)); try lia. reflexivity.
  - rewrite !(proj2 (lookup_ge_None _ _)) by lia. reflexivity.
Qed.

(** C2, as the code has it.  In every arithmetic: after [rasterize] on a
    valid circle, a grid point is highlighted if and only if the distance
    of its grid position from the boundary of the circle is at most
    [Config::RASTERIZATION_THRESHOLD], the decimal 0.7071 (and not the
    square root of 2 over 2). *)
Theorem rasterize_flag_iff_within_threshold (g : Grid T) (c : Circle T) :
  length (points g) = (Z.to_nat (size g) * Z.to_nat (size g))%nat ->
  (radius c >? #0) = true ->
  forall (i : nat) (p : GridPoint T),
    points (rasterize g c) !! i = Some p ->
    (highlighted p = true <->
     (std_abs (distanceTo (center c) (gridPosition p) - radius c) <=? dec 7071 (-4)) = true).
Proof.
  intros Hlen Hv i p Hp.
  rewrite (rasterize_points g c Hlen Hv), list_lookup_fmap in Hp.
  destruct (points g !! i) as [p0|]; [| discriminate].
  cbn in Hp. injection Hp as <-. cbn [highlighted gridPosition set_highlighted].
  reflexivity.
Qed.

(** The constructor of [Grid] establishes the invariant. *)
Lemma Grid_new_inv (gridSize canvasWidth canvasHeight padding : Z) :
  Grid_inv (Grid_new gridSize canvasWidth canvasHeight padding).
Proof.
  unfold Grid_inv, Grid_new, getPoint. cbn [points size].
  set (t := CoordinateTransform_new gridSize canvasWidth canvasHeight padding).
  set (mk := fun row col : Z =>
    mkGridPoint (mkPoint2D (of_int col) (of_int row))
                (gridToCanvas t (mkPoint2D (of_int col) (of_int row))) false).
  set (n := gridSize).
  destruct (Z.le_gt_cases 0 n) as [Hle|Hgt].
  - pose (I := fun (i : Z) (l : list (GridPoint T)) =>
      length l = (Z.to_nat i * Z.to_nat n)%nat /\
      forall r c, (0 <= r < i)%Z -> (0 <= c < n)%Z ->
        l !! Z.to_nat (r * n + c) = Some (mk r c)).
    assert (Hinv : I n (for_loop 0 n (fun row l =>
         for_loop 0 n (fun col l => l ++ [mk row col]) l) [])).
    { apply (for_loop_invariant I); [exact Hle | |]; unfold I.
      - split; [reflexivity | intros; lia].
      - intros i l Hi (Hlen & Hpt). rewrite append_loop. split.
        + rewrite length_app, length_map, length_seqZ. nia.
        + intros r c Hr Hc. destruct (Z.eq_dec r i) as [->|Hne].
          * rewrite lookup_app_r by nia.
            replace (Z.to_nat (i * n + c) - length l)%nat with (Z.to_nat c) by nia.
            rewrite list_lookup_fmap, lookup_seqZ_lt by lia. cbn.
            now rewrite Z2Nat.id by lia.
          * rewrite lookup_app_l by nia. apply Hpt; lia. }
    destruct Hinv as (Hlen & Hpt). split; [exact Hlen |].
    intros row col Hr Hc. exists (mk row col). split; [now apply Hpt | reflexivity].
  - rewrite for_loop_nil by lia. split; [cbn; lia | intros; lia].
Qed.

(** [rasterize] keeps the invariant. *)
Lemma rasterize_inv (g : Grid T) (c : Circle T) :
  Grid_inv g -> Grid_inv (rasterize g c).
Proof.
  intros (Hlen & Hpos). destruct (isValid c) eqn:Hv.
  - destruct (rasterize_updated g c Hv) as (Hsz & _ & Hl & Hpt).
    split; [now rewrite Hl, Hsz |].
    rewrite Hsz. intros row col Hr Hc.
    destruct (Hpos row col Hr Hc) as (p & Hp & Hgp).
    rewrite (Hpt row col ltac:(lia) Hc), Hp. cbn.
    eexists. split; [reflexivity |]. unfold effect.
    destruct (in_range 0 (size g) row && in_range 0 (size g) col); exact Hgp.
  - unfold rasterize. rewrite Hv. cbn. now split.
Qed.

Context {O : ArithOrder T}.

(** C8.  In every arithmetic: on a circle of radius at most 0 both
    rasterisers return at once; the grid, its positions and its flags are
    what they were. *)
Theorem rasterize_invalid_circle_noop (g : Grid T) (c : Circle T) :
  (radius c <=? #0) = true ->
  rasterize g c = g /\ rasterizeOptimized g c = Some g.
Proof.
  intros Hr. apply leb_gtb in Hr.
  unfold rasterize, rasterizeOptimized, isValid. rewrite Hr. split; reflexivity.
Qed.

End Generic.

(** *** Exact arithmetic *)

Section OnReals.
Import Exact ExactFacts.
Local Open Scope R_scope.

Lemma threshold_exact : @RASTERIZATION_THRESHOLD R _ = 7071 / 10000.
Proof. reflexivity. Qed.

Lemma distanceTo_exact (p q : Point2D R) :
  distanceTo p q = sqrt ((pt_x p - pt_x q) * (pt_x p - pt_x q)
                         + (pt_y p - pt_y q) * (pt_y p - pt_y q)).
Proof. reflexivity. Qed.

Lemma distanceTo_nonneg (p q : Point2D R) : 0 <= distanceTo p q.
Proof. rewrite distanceTo_exact. apply sqrt_pos. Qed.

(** The distance is at least the difference of the abscissas and at least
    the difference of the ordinates. *)
Lemma distanceTo_ge_dx (p q : Point2D R) : Rabs (pt_x p - pt_x q) <= distanceTo p q.
Proof. rewrite distanceTo_exact. apply sqrt_sum_squares_ge_l. Qed.

Lemma distanceTo_ge_dy (p q : Point2D R) : Rabs (pt_y p - pt_y q) <= distanceTo p q.
Proof. rewrite distanceTo_exact. apply sqrt_sum_squares_ge_r. Qed.

(** A point farther than [radius + threshold] from the centre fails the
    boundary test. *)
Lemma far_not_near (c : Circle R) (p : GridPoint R) :
  radius c + 7071 / 10000 < distanceTo (center c) (gridPosition p) ->
  near_boundary c p = false.
Proof.
  intros Hfar. unfold near_boundary. rewrite threshold_exact. exact_arith.
  apply Rleb_false. rewrite Rabs_right; lra.
Qed.

(** Outside the bounding box the boundary test fails. *)
Lemma outside_box_not_near (c : Circle R) (p : GridPoint R) (row col : Z) :
  0 < radius c ->
  gridPosition p = mkPoint2D (IZR col) (IZR row) ->
  (row < Zfloor (pt_y (center c) - radius c - RASTERIZATION_THRESHOLD)
   \/ Zceil (pt_y (center c) + radius c + RASTERIZATION_THRESHOLD) < row
   \/ col < Zfloor (pt_x (center c) - radius c - RASTERIZATION_THRESHOLD)
   \/ Zceil (pt_x (center c) + radius c + RASTERIZATION_THRESHOLD) < col)%Z ->
  near_boundary c p = false.
Proof.
  intros Hrad Hpos Hout. apply far_not_near. rewrite Hpos.
  rewrite threshold_exact in Hout. exact_arith.
  pose proof (distanceTo_ge_dx (center c) (mkPoint2D (IZR col) (IZR row))) as Hdx.
  pose proof (distanceTo_ge_dy (center c) (mkPoint2D (IZR col) (IZR row))) as Hdy.
  cbn [pt_x pt_y] in Hdx, Hdy.
  destruct Hout as [H | [H | [H | H]]].
  - pose proof (Zfloor_bounds (pt_y (center c) - radius c - 7071 / 10000)) as [Hb _].
    apply IZR_lt in H. eapply Rlt_le_trans; [| exact Hdy].
    rewrite Rabs_right; lra.
  - pose proof (Zceil_bounds (pt_y (center c) + radius c + 7071 / 10000)) as [_ Hb].
    apply IZR_lt in H. eapply Rlt_le_trans; [| exact Hdy].
    rewrite Rabs_left; lra.
  - pose proof (Zfloor_bounds (pt_x (center c) - radius c - 7071 / 10000)) as [Hb _].
    apply IZR_lt in H. eapply Rlt_le_trans; [| exact Hdx].
    rewrite Rabs_right; lra.
  - pose proof (Zceil_bounds (pt_x (center c) + radius c + 7071 / 10000)) as [_ Hb].
    apply IZR_lt in H. eapply Rlt_le_trans; [| exact Hdx].
    rewrite Rabs_left; lra.
Qed.

Lemma Grid_ext (g1 g2 : Grid R) :
  points g1 = points g2 -> size g1 = size g2 -> transform g1 = transform g2 ->
  g1 = g2.
Proof. destruct g1, g2. cbn. intros -> -> ->. reflexivity. Qed.

Lemma bounding_box_exact (n : Z) (c : Circle R) :
  box_in_int_range c ->
  bounding_box n c =
  Some (Z.max 0 (box_lo_row c), Z.min (n - 1) (box_hi_row c),
        Z.max 0 (box_lo_col c), Z.min (n - 1) (box_hi_col c)).
Proof.
  intros (H1 & H2 & H3 & H4). unfold bounding_box. exact_arith.
  fold (box_lo_row c) (box_hi_row c) (box_lo_col c) (box_hi_col c).
  rewrite (R_to_int_IZR _ H1), (R_to_int_IZR _ H2), (R_to_int_IZR _ H3), (R_to_int_IZR _ H4).
  reflexivity.
Qed.

(** With the conversions defined, [rasterizeOptimized] computes the grid
    [rasterize] computes. *)
Lemma rasterizeOptimized_exact (g : Grid R) (c : Circle R) :
  Grid_inv g -> 0 < radius c -> box_in_int_range c ->
  rasterizeOptimized g c = Some (rasterize g c).
Proof.
  intros (Hlen & Hpos) Hrad Hbox.
  assert (Hv : isValid c = true) by (unfold isValid; exact_arith; now apply Rltb_true).
  unfold rasterizeOptimized. rewrite Hv. cbn [negb].
  rewrite (bounding_box_exact (size g) c Hbox). cbn [mbind option_bind].
  set (minRow := Z.max 0 (box_lo_row c)). set (maxRow := Z.min (size g - 1) (box_hi_row c)).
  set (minCol := Z.max 0 (box_lo_col c)). set (maxCol := Z.min (size g - 1) (box_hi_col c)).
  set (F := fun (_ _ : Z) (p : GridPoint R) => set_highlighted (near_boundary c p) p).
  set (Pout := fun row col : Z =>
    (row <? minRow)%Z || (maxRow <? row)%Z || (col <? minCol)%Z || (maxCol <? col)%Z).
  set (g1 := sweep (fun _ _ => true) F minRow (maxRow + 1) minCol (maxCol + 1) g).
  change (Some (sweep Pout (fun _ _ => set_highlighted false) 0 (size g) 0 (size g) g1)
          = Some (rasterize g c)).
  set (g2 := sweep Pout (fun _ _ => set_highlighted false) 0 (size g) 0 (size g) g1).
  f_equal.
  destruct (sweep_updated (fun _ _ => true) F minRow (maxRow + 1) minCol (maxCol + 1) g)
    as (Hs1 & Ht1 & Hl1 & Hp1); [lia | lia | lia |]. fold g1 in Hs1, Ht1, Hl1, Hp1.
  destruct (sweep_updated Pout (fun _ _ => set_highlighted false) 0 (size g) 0 (size g) g1)
    as (Hs2 & Ht2 & Hl2 & Hp2); [lia | lia | lia |]. fold g2 in Hs2, Ht2, Hl2, Hp2.
  destruct (rasterize_updated g c Hv) as (Hs3 & Ht3 & Hl3 & Hp3).
  apply Grid_ext; [| congruence | congruence].
  apply (points_eq_by_cell g); try congruence.
  intros r col Hr Hc.
  rewrite (Hp2 r col) by lia. rewrite (Hp1 r col) by lia. rewrite (Hp3 r col) by lia.
  destruct (Hpos r col Hr Hc) as (p & -> & Hgp). cbn [fmap option_fmap option_map].
  f_equal. unfold effect, in_range, Pout.
  destruct (Z.leb_spec 0 r), (Z.ltb_spec r (size g)),
    (Z.leb_spec 0 col), (Z.ltb_spec col (size g)); try lia.
  cbn [andb].
  destruct (Z.ltb_spec r minRow) as [Ho1|Hi1]; cbn [orb].
  { destruct (Z.leb_spec minRow r); [lia |]. cbn [andb]. unfold F, Datatypes.id.
    rewrite (outside_box_not_near c p r col Hrad Hgp); [reflexivity |].
    left. fold (box_lo_row c). lia. }
  destruct (Z.ltb_spec maxRow r) as [Ho2|Hi2]; cbn [orb].
  { destruct (Z.ltb_spec r (maxRow + 1)); [lia |]. rewrite andb_false_r. cbn [andb].
    unfold F, Datatypes.id.
    rewrite (outside_box_not_near c p r col Hrad Hgp); [reflexivity |].
    right; left. fold (box_hi_row c). lia. }
  destruct (Z.ltb_spec col minCol) as [Ho3|Hi3]; cbn [orb].
  { destruct (Z.leb_spec minCol col); [lia |]. rewrite !andb_false_r. cbn [andb].
    unfold F, Datatypes.id.
    rewrite (outside_box_not_near c p r col Hrad Hgp); [reflexivity |].
    right; right; left. fold (box_lo_col c). lia. }
  destruct (Z.ltb_spec maxCol col) as [Ho4|Hi4]; cbn [orb].
  { destruct (Z.ltb_spec col (maxCol + 1)); [lia |]. rewrite !andb_false_r. cbn [andb].
    unfold F, Datatypes.id.
    rewrite (outside_box_not_near c p r col Hrad Hgp); [reflexivity |].
    right; right; right. fold (box_hi_col c). lia. }
  destruct (Z.leb_spec minRow r), (Z.ltb_spec r (maxRow + 1)),
    (Z.leb_spec minCol col), (Z.ltb_spec col (maxCol + 1)); try lia.
  reflexivity.
Qed.

(** X25.  In exact arithmetic: for every grid that satisfies the
    invariant of the class and every valid circle whose four bounding-box
    bounds are values of [int], [rasterizeOptimized] is defined and leaves
    the flags [rasterize] leaves; the centre may lie anywhere. *)
Theorem rasterizeOptimized_agrees_with_rasterize (g : Grid R) (c : Circle R) :
  Grid_inv g -> 0 < radius c -> box_in_int_range c ->
  exists g', rasterizeOptimized g c = Some g' /\ flags g' = flags (rasterize g c).
Proof.
  intros Hg Hrad Hbox. exists (rasterize g c). split; [| reflexivity].
  now apply rasterizeOptimized_exact.
Qed.

(** In exact arithmetic: the grid of the program after [rasterize] on
    [circle_in_grid_exact], which leaves points highlighted, and the circle
    [circle_across_edge], whose centre lies outside the grid and whose box,
    rows 1 to 9 and columns 0 to 3 after clamping, holds the grid point
    (2, 5) of the circle. *)
Lemma rasterizeOptimized_agrees_with_rasterize_witness :
  let g := rasterize config_grid_exact circle_in_grid_exact in
  (box_lo_row circle_across_edge = 1%Z /\ box_hi_row circle_across_edge = 9%Z /\
   box_lo_col circle_across_edge = (-5)%Z /\ box_hi_col circle_across_edge = 3%Z) /\
  exists g', rasterizeOptimized g circle_across_edge = Some g' /\
             flags g' = flags (rasterize g circle_across_edge).
Proof.
  intros g.
  assert (Hbox : box_lo_row circle_across_edge = 1%Z /\
                 box_hi_row circle_across_edge = 9%Z /\
                 box_lo_col circle_across_edge = (-5)%Z /\
                 box_hi_col circle_across_edge = 3%Z).
  { unfold box_lo_row, box_hi_row, box_lo_col, box_hi_col.
    rewrite threshold_exact. cbn [center radius pt_x pt_y circle_across_edge].
    repeat split; (apply Zfloor_unique || apply Zceil_unique); lra. }
  split; [exact Hbox |].
  apply rasterizeOptimized_agrees_with_rasterize.
  - apply rasterize_inv, Grid_new_inv.
  - cbn. lra.
  - destruct Hbox as (H1 & H2 & H3 & H4).
    unfold box_in_int_range. rewrite H1, H2, H3, H4. repeat split; reflexivity.
Defined.

(** The circle [far_circle_exact] in exact arithmetic: it is valid,
    [rasterize] highlights the grid point of row 0 and column 0, which lies
    on it, and the upper row bound of [rasterizeOptimized] is 6000000001,
    which has no conversion to [int]. *)
Lemma far_circle_exact_run :
  0 < radius far_circle_exact /\
  box_hi_row far_circle_exact = 6000000001%Z /\
  rasterizeOptimized config_grid_exact far_circle_exact = None /\
  highlighted <$> getPoint (rasterize config_grid_exact far_circle_exact) 0 0 = Some true.
Proof.
  assert (Hrad : 0 < radius far_circle_exact) by (cbn; lra).
  assert (Hv : isValid far_circle_exact = true)
    by (unfold isValid; exact_arith; now apply Rltb_true).
  assert (Hhi : box_hi_row far_circle_exact = 6000000001%Z).
  { unfold box_hi_row. rewrite threshold_exact.
    cbn [far_circle_exact center radius pt_x pt_y]. apply Zceil_unique. lra. }
  split; [exact Hrad |]. split; [exact Hhi |]. split.
  - unfold rasterizeOptimized. rewrite Hv. cbn [negb]. cbv zeta.
    assert (Hbox : bounding_box (size config_grid_exact) far_circle_exact = None).
    { unfold bounding_box. cbv zeta. exact_arith.
      fold (box_lo_row far_circle_exact) (box_hi_row far_circle_exact).
      assert (Hlo : box_lo_row far_circle_exact = (-1)%Z).
      { unfold box_lo_row. rewrite threshold_exact.
        cbn [far_circle_exact center radius pt_x pt_y]. apply Zfloor_unique. lra. }
      rewrite Hlo, Hhi.
      rewrite (R_to_int_IZR (-1)) by reflexivity.
      rewrite (R_to_int_out_of_range 6000000001) by reflexivity. reflexivity. }
    rewrite Hbox. reflexivity.
  - destruct (rasterize_updated config_grid_exact far_circle_exact Hv)
      as (_ & _ & _ & Hpt).
    assert (Hsz : size config_grid_exact = 20%Z) by reflexivity.
    rewrite (Hpt 0%Z 0%Z) by (rewrite ?Hsz; lia).
    destruct (Grid_new_inv (T := R) GRID_SIZE WINDOW_WIDTH WINDOW_HEIGHT GRID_PADDING)
      as (_ & Hcell).
    fold config_grid_exact in Hcell.
    destruct (Hcell 0%Z 0%Z) as (p & Hp & Hgp); [rewrite Hsz; lia | rewrite Hsz; lia |].
    rewrite Hp. cbn [fmap option_fmap option_map].
    f_equal. unfold effect. rewrite Hsz.
    change (in_range 0 20 0) with true. cbn [andb set_highlighted highlighted].
    unfold near_boundary. rewrite Hgp, distanceTo_exact, threshold_exact.
    cbn [far_circle_exact center radius pt_x pt_y]. exact_arith.
    apply Rleb_true.
    replace ((0 - 0) * (0 - 0) + (3000000000 - 0) * (3000000000 - 0))
      with (3000000000 * 3000000000) by ring.
    rewrite sqrt_square by lra.
    replace (3000000000 - 3000000000) with 0 by ring. rewrite Rabs_R0. lra.
Qed.

(** **** Bounding circles *)

(** The loop of [calculateBoundingCircles] folds [Rmin] and [Rmax] over
    the distances of the highlighted points. *)
Lemma bounds_loop (center : Point2D R) (l : list (GridPoint R)) (st : bounds_state) :
  fold_left (fun st point =>
      if highlighted point then
        let dist := distanceTo center (gridPosition point) in
        mkBounds (std_min (minDistance st) dist) (std_max (maxDistance st) dist) true
      else st) l st
  = let ds := map (fun p => distanceTo center (gridPosition p)) (List.filter highlighted l) in
    mkBounds (fold_left Rmin ds (minDistance st)) (fold_left Rmax ds (maxDistance st))
             (hasHighlightedPoints st || negb (forallb (fun p => negb (highlighted p)) l)).
Proof.
  revert st. induction l as [|p l IH]; intros st.
  - cbn. destruct st. cbn. now rewrite orb_false_r.
  - cbn [fold_left List.filter forallb]. rewrite IH.
    destruct (highlighted p); cbn [map fold_left negb andb minDistance maxDistance
                                    hasHighlightedPoints].
    + rewrite std_min_exact, std_max_exact. now rewrite orb_true_r.
    + reflexivity.
Qed.

Lemma no_highlighted_forallb (l : list (GridPoint R)) :
  List.filter highlighted l = [] <-> forallb (fun p => negb (highlighted p)) l = true.
Proof.
  induction l as [|p l IH]; cbn; [tauto |].
  destruct (highlighted p); cbn; [split; discriminate | exact IH].
Qed.

(** What the loop computes in exact arithmetic, where no distance is
    infinite or NaN.  For every grid, centre and pair of circles passed in:
    with no highlighted point the result is
    [false] and the two circles are untouched; otherwise the result is
    [true], the outer circle is [Circle(center, M)] with [M] the greatest
    distance from the centre to a highlighted point, and the inner circle
    is [Circle(center, m)], where [m] is the least such distance provided
    that some highlighted point is no farther than [DBL_MAX] from the
    centre; with one highlighted point, no farther than [DBL_MAX], both
    radii are its distance. *)
Theorem calculateBoundingCircles_spec (g : Grid R) (center : Point2D R)
    (innerCircle outerCircle : Circle R) :
  let ds := highlighted_distances g center in
  let result := calculateBoundingCircles g center innerCircle outerCircle in
  (highlighted_points g = [] -> result = (false, innerCircle, outerCircle)) /\
  (highlighted_points g <> [] ->
     exists m M, result = (true, mkCircle center m, mkCircle center M) /\
       In M ds /\ (forall d, In d ds -> d <= M) /\
       ((exists d, In d ds /\ d <= DBL_MAX) -> In m ds /\ forall d, In d ds -> m <= d)) /\
  (forall p, highlighted_points g = [p] ->
     distanceTo center (gridPosition p) <= DBL_MAX ->
     result = (true, mkCircle center (distanceTo center (gridPosition p)),
                     mkCircle center (distanceTo center (gridPosition p)))).
Proof.
  intros ds result.
  assert (Hres : result =
    let st := mkBounds (fold_left Rmin ds R_DBL_MAX) (fold_left Rmax ds 0)
                       (negb (forallb (fun p => negb (highlighted p)) (points g))) in
    if negb (hasHighlightedPoints st) then (false, innerCircle, outerCircle)
    else (true, mkCircle center (minDistance st), mkCircle center (maxDistance st))).
  { unfold result, calculateBoundingCircles. rewrite bounds_loop. reflexivity. }
  cbn [hasHighlightedPoints minDistance maxDistance] in Hres.
  assert (Hsome : highlighted_points g <> [] ->
    exists m M, result = (true, mkCircle center m, mkCircle center M) /\
       In M ds /\ (forall d, In d ds -> d <= M) /\
       ((exists d, In d ds /\ d <= DBL_MAX) -> In m ds /\ forall d, In d ds -> m <= d)).
  { intros Hne.
    assert (Hf : forallb (fun p => negb (highlighted p)) (points g) = false).
    { destruct (forallb _ (points g)) eqn:E; [| reflexivity].
      apply no_highlighted_forallb in E. contradiction. }
    rewrite Hf in Hres. cbn [negb] in Hres.
    exists (fold_left Rmin ds R_DBL_MAX), (fold_left Rmax ds 0).
    split; [exact Hres |].
    destruct (fold_Rmax_spec ds 0) as (HM1 & HM2 & HM3).
    destruct (fold_Rmin_spec ds R_DBL_MAX) as (Hm1 & Hm2 & Hm3).
    assert (Hds : exists d0, In d0 ds).
    { unfold ds, highlighted_distances. destruct (highlighted_points g) as [|p0 l0];
        [contradiction |]. eexists. now left. }
    destruct Hds as [d0 Hd0].
    assert (Hnn : forall d, In d ds -> 0 <= d).
    { intros d Hd. unfold ds, highlighted_distances in Hd.
      apply in_map_iff in Hd as (p & <- & _). apply distanceTo_nonneg. }
    split; [| split; [exact HM2 |]].
    - destruct HM3 as [HM3 | HM3]; [| exact HM3].
      pose proof (HM2 d0 Hd0). pose proof (Hnn d0 Hd0).
      replace (fold_left Rmax ds 0) with d0 by lra. exact Hd0.
    - intros (d & Hd & Hle). split; [| exact Hm2].
      destruct Hm3 as [Hm3 | Hm3]; [| exact Hm3].
      pose proof (Hm2 d Hd). exact_arith.
      replace (fold_left Rmin ds R_DBL_MAX) with d by lra. exact Hd. }
  split; [| split; [exact Hsome |]].
  - intros Hnone. apply no_highlighted_forallb in Hnone.
    rewrite Hnone in Hres. exact Hres.
  - intros p Hp Hle.
    destruct Hsome as (m & M & Hr & HM & _ & Hm); [rewrite Hp; discriminate |].
    assert (Hds : ds = [distanceTo center (gridPosition p)]).
    { unfold ds, highlighted_distances. now rewrite Hp. }
    rewrite Hds in HM, Hm.
    destruct Hm as [Hm _]; [eexists; split; [now left | exact Hle] |].
    destruct HM as [<- | []]. destruct Hm as [<- | []]. exact Hr.
Qed.

Lemma calculateBoundingCircles_spec_witness :
  let center := mkPoint2D 4 5 in
  let unset := mkCircle (mkPoint2D 0 0) 0 in
  calculateBoundingCircles grid_2x2_one center unset unset
  = (true, mkCircle center 5, mkCircle center 5).
Proof.
  intros center unset.
  pose (p := mkGridPoint (mkPoint2D (IZR 1) (IZR 1))
               (gridToCanvas (CoordinateTransform_new 2 800 800 50)
                             (mkPoint2D (IZR 1) (IZR 1))) true).
  assert (Hd : distanceTo center (gridPosition p) = 5).
  { rewrite distanceTo_exact. cbn [gridPosition p pt_x pt_y center].
    replace ((4 - 1) * (4 - 1) + (5 - 1) * (5 - 1)) with (5 * 5) by lra.
    apply sqrt_square. lra. }
  rewrite <- Hd.
  apply (proj2 (proj2 (calculateBoundingCircles_spec grid_2x2_one center unset unset)) p).
  - reflexivity.
  - rewrite Hd. exact_arith. unfold R_DBL_MAX. apply IZR_le. vm_compute. discriminate.
Defined.

End OnReals.

(** *** Runs on binary64 *)

(** C1: the code at the failing input.  For the valid circle of radius
    3e9 centred at (0, 3e9), on binary64 ([far_circle]) and in exact
    arithmetic ([far_circle_exact]) alike: [rasterize] highlights the grid
    point of row 0 and column 0, which lies on the circle, while
    [rasterizeOptimized] has no defined result, since the upper row bound
    [ceil(3e9 + 3e9 + 0.7071) = 6000000001] is converted to [int] before it
    is clamped to the grid and is not a value of [int]. *)
Lemma rasterizeOptimized_undefined_far_circle :
  ((radius far_circle >? dec 0 0)%num = true /\
   std_ceil (pt_y (center far_circle) + radius far_circle + dec 7071 (-4))%num
     = of_int 6000000001 /\
   rasterizeOptimized config_grid far_circle = None /\
   highlighted <$> getPoint (rasterize config_grid far_circle) 0 0 = Some true) /\
  ((0 < radius far_circle_exact)%R /\
   box_hi_row far_circle_exact = 6000000001 /\
   rasterizeOptimized config_grid_exact far_circle_exact = None /\
   highlighted <$> getPoint (rasterize config_grid_exact far_circle_exact) 0 0 = Some true).
Proof.
  split; [vm_compute; repeat split; reflexivity | exact far_circle_exact_run].
Qed.

(** C2 fails as stated.  On binary64, after [rasterize] on
    [circle_1_707105] the grid point (1, 0), of row 0 and column 1, is not
    highlighted, although its distance from the boundary (about 0.707105)
    is at most the square root of 2 over 2 (about 0.7071068); it exceeds
    0.7071. *)
Lemma rasterize_threshold_is_not_sqrt2_over_2 :
  exists p : GridPoint Binary64.double,
    getPoint (rasterize config_grid circle_1_707105) 0 1 = Some p /\
    gridPosition p = mkPoint2D (of_int 1) (of_int 0) /\
    highlighted p = false /\
    (std_abs (distanceTo (gridPosition p) (center circle_1_707105)
              - radius circle_1_707105)
       <=? std_sqrt (dec 2 0) / dec 2 0)%num = true.
Proof. vm_compute. eexists. repeat split; reflexivity. Qed.

(** C3: the code at the failing input.  On binary64, with the single
    highlighted point (0, 0) and the centre [(DBL_MAX, DBL_MAX)], the
    distance from the centre to the point is computed as infinity; the outer
    radius is infinity, and the inner radius is [DBL_MAX], the value
    [minDistance] starts from, not the distance: the two radii differ. *)
Lemma calculateBoundingCircles_inner_stuck_at_DBL_MAX :
  let center := mkPoint2D DBL_MAX DBL_MAX in
  let unset := mkCircle (mkPoint2D (dec 0 0) (dec 0 0)) (dec 0 0) in
  map gridPosition (List.filter highlighted (points config_grid_origin))
    = [mkPoint2D (of_int 0) (of_int 0)] /\
  distanceTo center (mkPoint2D (of_int 0) (of_int 0)) = Binary64.INFINITY /\
  calculateBoundingCircles config_grid_origin center unset unset
    = (true, mkCircle center DBL_MAX, mkCircle center Binary64.INFINITY).
Proof. vm_compute. repeat split; reflexivity. Qed.

(** The two start values show again at a centre that is NaN: every
    distance is NaN, no comparison with it holds, and the result is the
    inner radius [DBL_MAX] and the outer radius 0. *)
Lemma calculateBoundingCircles_nan_centre :
  let center := mkPoint2D PrimFloat.nan PrimFloat.nan in
  let unset := mkCircle (mkPoint2D (dec 0 0) (dec 0 0)) (dec 0 0) in
  std_isnan (distanceTo center (mkPoint2D (of_int 0) (of_int 0))) = true /\
  calculateBoundingCircles config_grid_origin center unset unset
    = (true, mkCircle center DBL_MAX, mkCircle center (dec 0 0)).
Proof. vm_compute. split; reflexivity. Qed.

(** C9.  In exact arithmetic [canvasToGrid] and [gridToCanvas] of a
    transform with non-zero spacing are inverse to each other at every
    point.  For the grid 20 x 20 on the canvas 800 x 800 with padding 50
    the spacing is 700 / 19, about 36.84; on binary64 it lies between
    36.84 and 36.85, and the grid point (0, 0) taken to the canvas and
    back is (0, 0) again, bit for bit. *)
Theorem transform_round_trip :
  (forall (t : CoordinateTransform R) (p : Point2D R),
     gridSpacing t <> 0%R ->
     gridToCanvas t (canvasToGrid t p) = p /\ canvasToGrid t (gridToCanvas t p) = p) /\
  (gridSpacing (@CoordinateTransform_new R _ 20 800 800 50) = (700 / 19)%R /\
   (36.84 <= 700 / 19 <= 36.85)%R) /\
  (let t := @CoordinateTransform_new Binary64.double _ 20 800 800 50 in
   let origin := mkPoint2D (of_int 0) (of_int 0) in
   (dec 3684 (-2) <=? gridSpacing t)%num = true /\
   (gridSpacing t <=? dec 3685 (-2))%num = true /\
   canvasToGrid t (gridToCanvas t origin) = origin).
Proof.
  split; [| split].
  - intros t [x y] Hs. unfold gridToCanvas, canvasToGrid.
    cbn [add sub mul div Exact.arith pt_x pt_y].
    split; f_equal; field; exact Hs.
  - split; [| lra]. unfold CoordinateTransform_new.
    cbn [gridSpacing add sub mul div of_int Exact.arith Z.min Z.sub Z.mul].
    replace (Z.min (800 - 2 * 50) (800 - 2 * 50)) with 700%Z by reflexivity.
    replace (20 - 1)%Z with 19%Z by reflexivity. reflexivity.
  - vm_compute. repeat split; reflexivity.
Qed.

(** On binary64 the round trip is exact up to rounding only: the grid
    point (3, 7) taken to the canvas and back is (3, 6.9999999999999991),
    one unit in the last place below 7. *)
Lemma transform_round_trip_rounds :
  let t := @CoordinateTransform_new Binary64.double _ 20 800 800 50 in
  canvasToGrid t (gridToCanvas t (mkPoint2D (of_int 3) (of_int 7)))
  = mkPoint2D (of_int 3) (dec 69999999999999991 (-16)) /\
  (dec 69999999999999991 (-16) <? of_int 7)%num = true.
Proof. vm_compute. split; reflexivity. Qed.

(** In exact arithmetic: the canvas point (123, 456) under the transform
    of the program. *)
Lemma transform_round_trip_witness :
  let t := @CoordinateTransform_new R _ 20 800 800 50 in
  let p := mkPoint2D 123%R 456%R in
  gridToCanvas t (canvasToGrid t p) = p /\ canvasToGrid t (gridToCanvas t p) = p.
Proof.
  intros t p. apply (proj1 transform_round_trip t p).
  unfold t. rewrite (proj1 (proj1 (proj2 transform_round_trip))). lra.
Defined.

(** On binary64: the point of row 3 and column 4 after [rasterize] on
    [circle_in_grid]. *)
Lemma rasterize_flag_iff_within_threshold_witness :
  let p := mkGridPoint (mkPoint2D (of_int 4) (of_int 3))
             (gridToCanvas (transform config_grid) (mkPoint2D (of_int 4) (of_int 3))) true in
  points (rasterize config_grid circle_in_grid) !! 64%nat = Some p /\
  (highlighted p = true <->
   (std_abs (distanceTo (center circle_in_grid) (gridPosition p) - radius circle_in_grid)
      <=? dec 7071 (-4))%num = true).
Proof.
  intros p.
  assert (Hp : points (rasterize config_grid circle_in_grid) !! 64%nat = Some p)
    by (vm_compute; reflexivity).
  split; [exact Hp |].
  apply (rasterize_flag_iff_within_threshold config_grid circle_in_grid) with (i := 64%nat).
  - vm_compute. reflexivity.
  - vm_compute. reflexivity.
  - exact Hp.
Defined.

(** On binary64: a circle of radius 0 on the grid of the program. *)
Lemma rasterize_invalid_circle_noop_witness :
  let c := mkCircle (mkPoint2D (dec 5 0) (dec 5 0)) (dec 0 0) in
  (radius c <=? dec 0 0)%num = true /\
  rasterize config_grid c = config_grid /\
  rasterizeOptimized config_grid c = Some config_grid.
Proof.
  intros c. split; [vm_compute; reflexivity |].
  apply (rasterize_invalid_circle_noop config_grid c). vm_compute. reflexivity.
Defined.

End Problem1Facts.

(** ** Problem2: the Newton loop and the determinant test of [FitCircle] *)

Module Problem2Facts.
Import Problem2 Problem2Spec.

Section OnReals.
Import Exact ExactFacts.
Local Open Scope R_scope.

Lemma epsilon_exact : @epsilon R _ = 1 / 1000000000000.
Proof. reflexivity. Qed.

(** A step from a non-negative [xold] to a negative [xnew] never passes
    the convergence test: the relative step is at least 1. *)
Lemma negative_step_not_converged (xold xnew : R) :
  0 <= xold -> xnew < 0 -> 1 <= Rabs ((xnew - xold) / xnew).
Proof.
  intros Hold Hnew.
  replace ((xnew - xold) / xnew) with (1 + xold / - xnew) by (field; lra).
  assert (0 <= xold / - xnew).
  { apply Rmult_le_pos; [lra |]. apply Rlt_le, Rinv_0_lt_compat. lra. }
  rewrite Rabs_right; lra.
Qed.

(** The four ways through the body of the loop, in exact arithmetic. *)
Lemma newton_body_cases (A0 A1 A2 A22 : R) (iter : Z) (x y : R) :
  let fx := newton_f A0 A1 A2 x in
  let x' := x - fx / newton_df A1 A22 x in
  newton_body A0 A1 A2 A22 iter x y =
  if Rlt_dec (Rabs y) (Rabs fx) then Break 0
  else if Rlt_dec (Rabs ((x' - x) / x')) (1 / 1000000000000) then Break x'
  else if (iter >=? IterMax - 1)%Z then Next 0 fx
  else if Rlt_dec x' 0 then Break 0 else Next x' fx.
Proof.
  intros fx x'. unfold newton_body. rewrite epsilon_exact. exact_arith.
  fold fx. fold x'. unfold Rltb.
  destruct (Rlt_dec (Rabs y) (Rabs fx)); [reflexivity |].
  destruct (Rlt_dec (Rabs ((x' - x) / x')) (1 / 1000000000000)); [reflexivity |].
  destruct (iter >=? IterMax - 1)%Z.
  - destruct (Rlt_dec 0 0); [lra | reflexivity].
  - destruct (Rlt_dec x' 0); reflexivity.
Qed.

(** The loop keeps [xnew] non-negative. *)
Lemma newton_body_nonneg (A0 A1 A2 A22 : R) (iter : Z) (x y : R) :
  0 <= x ->
  match newton_body A0 A1 A2 A22 iter x y with
  | Break x1 => 0 <= x1
  | Next x1 _ => 0 <= x1
  end.
Proof.
  intros Hx. rewrite newton_body_cases.
  set (fx := newton_f A0 A1 A2 x). set (x' := x - fx / newton_df A1 A22 x).
  destruct (Rlt_dec (Rabs y) (Rabs fx)); [lra |].
  destruct (Rlt_dec (Rabs ((x' - x) / x')) (1 / 1000000000000)) as [Hc|Hc].
  - destruct (Rlt_dec x' 0) as [Hneg|]; [| lra].
    pose proof (negative_step_not_converged x x' Hx Hneg). lra.
  - destruct (iter >=? IterMax - 1)%Z; [lra |].
    destruct (Rlt_dec x' 0); lra.
Qed.

Lemma newton_loop_nonneg (A0 A1 A2 A22 : R) (n : nat) :
  forall (iter : Z) (x y : R), 0 <= x -> 0 <= newton_loop A0 A1 A2 A22 n iter x y.
Proof.
  induction n as [|n IH]; intros iter x y Hx; cbn [newton_loop]; [exact Hx |].
  pose proof (newton_body_nonneg A0 A1 A2 A22 iter x y Hx) as Hb.
  destruct (newton_body A0 A1 A2 A22 iter x y) as [x1 | x1 y1]; [exact Hb |].
  apply IH. exact Hb.
Qed.

(** C5.  In exact arithmetic, for every point set, at the iteration
    [iter] of the Newton loop of [FitCircle] with [n + 1] iterations left
    ([iter + n + 1 = IterMax]), entered with [x >= 0] and the previous
    value [y]: if [|f(x)|] exceeds [|y|] the loop ends with 0; if the
    Newton step from [x] is negative the loop ends with 0; at the last
    iteration without convergence the loop ends with 0; an iteration that
    goes on hands a non-negative [x] to the next one; and the loop ends
    with a non-negative value.  So the root [xnew] from which [DET] is
    computed is not negative. *)
Theorem newton_safety_rules (points : list (Point R)) :
  let v := FitCircle_locals points in
  let body := newton_body (l_A0 v) (l_A1 v) (l_A2 v) (l_A22 v) in
  let loop := newton_loop (l_A0 v) (l_A1 v) (l_A2 v) (l_A22 v) in
  let f := newton_f (l_A0 v) (l_A1 v) (l_A2 v) in
  let step := fun x => x - f x / newton_df (l_A1 v) (l_A22 v) x in
  (forall (n : nat) (iter : Z) (x y : R),
     (iter + Z.of_nat (S n) = IterMax)%Z -> 0 <= x ->
     (Rabs (f x) > Rabs y -> body iter x y = Break 0 /\ loop (S n) iter x y = 0) /\
     (Rabs (f x) <= Rabs y -> step x < 0 -> loop (S n) iter x y = 0) /\
     (Rabs (f x) <= Rabs y -> ~ Rabs ((step x - x) / step x) < epsilon ->
        n = 0%nat -> body iter x y = Next 0 (f x) /\ loop (S n) iter x y = 0) /\
     (forall x1 y1, body iter x y = Next x1 y1 -> 0 <= x1) /\
     0 <= loop (S n) iter x y) /\
  l_xnew v = loop (Z.to_nat IterMax) 0%Z 0 (dec 1 20) /\
  0 <= l_xnew v.
Proof.
  intros v body loop f step. split; [| split].
  - intros n iter x y Hiter Hx.
    pose proof (newton_body_cases (l_A0 v) (l_A1 v) (l_A2 v) (l_A22 v) iter x y) as Hb.
    cbv zeta in Hb. fold body f in Hb. fold (step x) in Hb.
    assert (Hloop : loop (S n) iter x y =
      match body iter x y with
      | Break x1 => x1
      | Next x1 y1 => loop n (iter + 1)%Z x1 y1
      end) by reflexivity.
    split; [| split; [| split; [| split]]].
    + intros Hgt. split.
      * rewrite Hb. destruct (Rlt_dec (Rabs y) (Rabs (f x))); [reflexivity | lra].
      * rewrite Hloop, Hb. destruct (Rlt_dec (Rabs y) (Rabs (f x))); [reflexivity | lra].
    + intros Hle Hneg. rewrite Hloop, Hb.
      destruct (Rlt_dec (Rabs y) (Rabs (f x))); [reflexivity |].
      pose proof (negative_step_not_converged x (step x) Hx Hneg) as Hnc.
      destruct (Rlt_dec (Rabs ((step x - x) / step x)) (1 / 1000000000000)); [lra |].
      destruct (Z.geb_spec iter (IterMax - 1)) as [Hlast|Hnot].
      * assert (n = 0%nat) as -> by (unfold IterMax in *; lia). reflexivity.
      * destruct (Rlt_dec (step x) 0); [reflexivity | lra].
    + intros Hle Hnc Hn. subst n. rewrite epsilon_exact in Hnc.
      assert (Hbody : body iter x y = Next 0 (f x)).
      { rewrite Hb. destruct (Rlt_dec (Rabs y) (Rabs (f x))); [lra |].
        destruct (Rlt_dec (Rabs ((step x - x) / step x)) (1 / 1000000000000));
          [contradiction |].
        destruct (Z.geb_spec iter (IterMax - 1)); [reflexivity | unfold IterMax in *; lia]. }
      split; [exact Hbody |]. rewrite Hloop, Hbody. reflexivity.
    + intros x1 y1 Hnext.
      pose proof (newton_body_nonneg (l_A0 v) (l_A1 v) (l_A2 v) (l_A22 v) iter x y Hx) as Hnn.
      fold body in Hnn. now rewrite Hnext in Hnn.
    + apply newton_loop_nonneg. exact Hx.
  - reflexivity.
  - change (0 <= loop (Z.to_nat IterMax) 0%Z 0 (dec 1 20)).
    apply newton_loop_nonneg. lra.
Qed.

(** **** Collinear points in exact arithmetic *)

Lemma sum_over_exact (f : Point R -> R) (l : list (Point R)) :
  sum_over f l = Rsum f l.
Proof. unfold sum_over. exact_arith. rewrite fold_left_Rsum. lra. Qed.

(** The six accumulators of the moments loop are six sums. *)
Lemma accumulate_moments_exact (tr : list (Point R)) :
  accumulate_moments tr =
  let zi := fun p : Point R => pt_x p * pt_x p + pt_y p * pt_y p in
  mkMoments (Rsum (fun p => pt_x p * pt_x p) tr) (Rsum (fun p => pt_y p * pt_y p) tr)
            (Rsum (fun p => pt_x p * pt_y p) tr) (Rsum (fun p => pt_x p * zi p) tr)
            (Rsum (fun p => pt_y p * zi p) tr) (Rsum (fun p => zi p * zi p) tr).
Proof.
  unfold accumulate_moments. exact_arith.
  assert (Hgen : forall m : moments R,
    fold_left (fun m p =>
      mkMoments (Mxx m + pt_x p * pt_x p) (Myy m + pt_y p * pt_y p)
                (Mxy m + pt_x p * pt_y p)
                (Mxz m + pt_x p * (pt_x p * pt_x p + pt_y p * pt_y p))
                (Myz m + pt_y p * (pt_x p * pt_x p + pt_y p * pt_y p))
                (Mzz m + (pt_x p * pt_x p + pt_y p * pt_y p)
                         * (pt_x p * pt_x p + pt_y p * pt_y p))) tr m
    = mkMoments
        (Mxx m + Rsum (fun p => pt_x p * pt_x p) tr)
        (Myy m + Rsum (fun p => pt_y p * pt_y p) tr)
        (Mxy m + Rsum (fun p => pt_x p * pt_y p) tr)
        (Mxz m + Rsum (fun p => pt_x p * (pt_x p * pt_x p + pt_y p * pt_y p)) tr)
        (Myz m + Rsum (fun p => pt_y p * (pt_x p * pt_x p + pt_y p * pt_y p)) tr)
        (Mzz m + Rsum (fun p => (pt_x p * pt_x p + pt_y p * pt_y p)
                                * (pt_x p * pt_x p + pt_y p * pt_y p)) tr)).
  { induction tr as [|p tr IH]; intros m.
    - destruct m. cbn. f_equal; lra.
    - cbn [fold_left Rsum]. rewrite IH. cbn [Mxx Myy Mxy Mxz Myz Mzz]. f_equal; lra. }
  rewrite Hgen. cbn [Mxx Myy Mxy Mxz Myz Mzz]. f_equal; lra.
Qed.

(** For points on a line, [Cov_xy] and [A0] are exactly 0. *)
Lemma collinear_locals (points : list (Point R)) :
  (0 < length points)%nat -> collinear points ->
  l_Cov_xy (FitCircle_locals points) = 0 /\ l_A0 (FitCircle_locals points) = 0.
Proof.
  intros Hlen (a & b & c & Hab & Hline).
  pose proof (centroid_on_line pt_x pt_y a b c points Hlen Hline) as Hcen. cbv zeta in Hcen.
  unfold FitCircle_locals. cbn [l_Cov_xy l_A0].
  rewrite accumulate_moments_exact, !sum_over_exact. cbv zeta.
  cbn [Mxx Myy Mxy Mxz Myz Mzz]. exact_arith. rewrite !Rsum_map. cbn [pt_x pt_y].
  set (n := IZR (Z.of_nat (length points))) in *.
  set (cx := Rsum pt_x points / n) in *. set (cy := Rsum pt_y points / n) in *.
  assert (Hrel : forall p, In p points -> a * (pt_x p - cx) + b * (pt_y p - cy) = 0).
  { intros p Hp. specialize (Hline p Hp). lra. }
  apply (degenerate_moments a b); [exact Hab | | |].
  - apply relation_of_sums. intros p Hp. specialize (Hrel p Hp).
    replace (a * ((pt_x p - cx) * (pt_x p - cx)) + b * ((pt_x p - cx) * (pt_y p - cy)))
      with ((pt_x p - cx) * (a * (pt_x p - cx) + b * (pt_y p - cy))) by ring.
    rewrite Hrel. ring.
  - apply relation_of_sums. intros p Hp. specialize (Hrel p Hp).
    replace (a * ((pt_x p - cx) * (pt_y p - cy)) + b * ((pt_y p - cy) * (pt_y p - cy)))
      with ((pt_y p - cy) * (a * (pt_x p - cx) + b * (pt_y p - cy))) by ring.
    rewrite Hrel. ring.
  - apply relation_of_sums. intros p Hp. specialize (Hrel p Hp).
    match goal with |- a * (_ * ?z) + b * (_ * ?z) = 0 =>
      replace (a * ((pt_x p - cx) * z) + b * ((pt_y p - cy) * z))
        with (z * (a * (pt_x p - cx) + b * (pt_y p - cy))) by ring
    end.
    rewrite Hrel. ring.
Qed.

(** With [A0 = 0] the Newton loop leaves at its first iteration, with the
    root 0. *)
Lemma newton_loop_A0_zero (A1 A2 A22 : R) (n : nat) (iter : Z) (y : R) :
  newton_loop 0 A1 A2 A22 (S n) iter 0 y = 0.
Proof.
  cbn [newton_loop]. rewrite newton_body_cases. cbv zeta.
  assert (Hf : newton_f 0 A1 A2 0 = 0) by (unfold newton_f; exact_arith; ring).
  rewrite Hf.
  destruct (Rlt_dec (Rabs y) (Rabs 0)) as [Hlt|_]; [reflexivity |].
  replace (0 - 0 / newton_df A1 A22 0) with 0 by (unfold Rdiv; ring).
  replace ((0 - 0) / 0) with 0 by (unfold Rdiv; ring).
  rewrite Rabs_R0.
  destruct (Rlt_dec 0 (1 / 1000000000000)) as [_|Hn]; [reflexivity | lra].
Qed.

(** In exact arithmetic [FitCircle] rejects every set of at least three
    collinear points, and it is the determinant test that rejects it:
    [DET] is exactly 0. *)
Lemma FitCircle_collinear_exact (points : list (Point R)) :
  (3 <= length points)%nat -> collinear points ->
  l_DET (FitCircle_locals points) = 0 /\
  (std_abs (l_DET (FitCircle_locals points)) <? dec 1 (-10))%num = true /\
  FitCircle points = Circle_default.
Proof.
  intros Hlen Hcol.
  destruct (collinear_locals points ltac:(lia) Hcol) as [Hcov HA0].
  assert (Hx : l_xnew (FitCircle_locals points) = 0).
  { transitivity (newton_loop (l_A0 (FitCircle_locals points))
                    (l_A1 (FitCircle_locals points)) (l_A2 (FitCircle_locals points))
                    (l_A22 (FitCircle_locals points)) (Z.to_nat IterMax) 0%Z 0 (dec 1 20)).
    - unfold FitCircle_locals. cbn [l_xnew l_A0 l_A1 l_A2 l_A22]. exact_arith. reflexivity.
    - rewrite HA0. apply (newton_loop_A0_zero _ _ _ 19). }
  assert (HDET : l_DET (FitCircle_locals points) = 0).
  { transitivity (l_xnew (FitCircle_locals points) * l_xnew (FitCircle_locals points)
                  - l_xnew (FitCircle_locals points) * l_Mz (FitCircle_locals points)
                  + l_Cov_xy (FitCircle_locals points)); [reflexivity |].
    rewrite Hx, Hcov. ring. }
  assert (Htest : (std_abs (l_DET (FitCircle_locals points)) <? dec 1 (-10))%num = true).
  { rewrite HDET. exact_arith. apply Rltb_true. rewrite Rabs_R0.
    replace (R_dec 1 (-10)) with (1 / 10000000000) by reflexivity. lra. }
  split; [exact HDET |]. split; [exact Htest |].
  unfold FitCircle. destruct (Nat.ltb_spec (length points) 3) as [|_]; [lia |].
  cbv zeta. now rewrite Htest.
Qed.

Lemma newton_safety_rules_witness :
  0 <= l_xnew (FitCircle_locals unit_circle_four).
Proof.
  pose proof (newton_safety_rules unit_circle_four) as H. cbv zeta in H.
  exact (proj2 (proj2 H)).
Defined.

End OnReals.

(** *** Runs on binary64 *)

(** C4 fails on the code.  The three points are collinear, yet on binary64
    [|DET|] (about 5.8e-10) is not below [1e-10], and [FitCircle] returns
    a valid circle, of radius between 1704 and 1705 and centre near
    (1721.7, 592.1). *)
Lemma FitCircle_accepts_collinear_three :
  Forall (fun '(x, y) => y = 3 * x - 40) collinear_three_px /\
  (std_abs (l_DET (FitCircle_locals collinear_three)) <? dec 1 (-10))%num = false /\
  (radius (FitCircle collinear_three) >? dec 0 0)%num = true /\
  (dec 1704 0 <? radius (FitCircle collinear_three))%num = true /\
  (radius (FitCircle collinear_three) <? dec 1705 0)%num = true /\
  (dec 17217 (-1) <? pt_x (center (FitCircle collinear_three)))%num = true /\
  (pt_x (center (FitCircle collinear_three)) <? dec 17218 (-1))%num = true /\
  (dec 5920 (-1) <? pt_y (center (FitCircle collinear_three)))%num = true /\
  (pt_y (center (FitCircle collinear_three)) <? dec 5921 (-1))%num = true.
Proof.
  split; [repeat constructor |]. vm_compute. repeat split; reflexivity.
Qed.

End Problem2Facts.

(** ** extracredit: the guards of [FitEllipse] *)

Module ExtraCreditFacts.
Import ExtraCredit ExtraCreditSpec.

Section Generic.
Context {T : Type} {A : Arith T} {L : Libm T}.
Local Open Scope num_scope.

(** The first two tests.  In every arithmetic, [FitEllipse] answers
    [valid = false] for a point set of fewer than 5 points, and for a point
    set whose collinearity determinant [var_x * var_y - covar * covar]
    (sums of centred squares and products, not divided by the number of
    points), as it is computed, is below [1e-6] in absolute value. *)
Theorem FitEllipse_rejects_few_or_flat (points : list (Point T)) :
  (length points < 5)%nat \/
  (std_abs (collinearity_det points) <? dec 1 (-6)) = true ->
  valid (FitEllipse points) = false.
Proof.
  intros [Hlen | Hdet]; unfold FitEllipse.
  - apply Nat.ltb_lt in Hlen. now rewrite Hlen.
  - destruct (length points <? 5)%nat; [reflexivity |].
    now rewrite Hdet.
Qed.

(** C10.  In every arithmetic, a point set of at least 5 points that
    passes the collinearity guard is still rejected when the determinant
    of the scatter matrix [S3] of the rows [(x, y, 1)] is below [1e-10] in
    absolute value: the result is [EllipseShape()], whatever <cmath>
    would have answered. *)
Theorem FitEllipse_rejects_singular_S3 (points : list (Point T)) :
  (5 <= length points)%nat ->
  (std_abs (collinearity_det points) <? dec 1 (-6)) = false ->
  (std_abs (det_S3 points) <? dec 1 (-10)) = true ->
  FitEllipse points = EllipseShape_default /\ valid (FitEllipse points) = false.
Proof.
  intros Hlen Hdet HS3. unfold FitEllipse.
  apply Nat.ltb_ge in Hlen. rewrite Hlen, Hdet, HS3. split; reflexivity.
Qed.

Context {O : ArithOrder T}.

Lemma order_and_validate_axes (mx my a0 b0 theta : T) :
  let e := order_and_validate mx my a0 b0 theta in
  valid e = true -> (a e >=? b e) = true /\ (b e >? #0) = true.
Proof.
  unfold order_and_validate.
  destruct (b0 >? a0) eqn:Hswap; cbv beta iota zeta;
    match goal with
    | |- context [if ?c then EllipseShape_default else _] => destruct c eqn:Hc
    end;
    cbn [valid EllipseShape_default EllipseShape_new a b]; try discriminate; intros _;
    apply orb_false_elim in Hc as [Hc Hb10000];
    apply orb_false_elim in Hc as [Hc Ha10000];
    apply orb_false_elim in Hc as [Hc Hbpos];
    apply orb_false_elim in Hc as [Hc Hapos];
    apply orb_false_elim in Hc as [Hc Hnt];
    apply orb_false_elim in Hc as [Hna Hnb].
  - split.
    + now apply ltb_leb.
    + apply not_leb_gtb; [exact Hnb | apply isnan_zero | exact Hbpos].
  - split.
    + now apply not_ltb_geb.
    + apply not_leb_gtb; [exact Hnb | apply isnan_zero | exact Hbpos].
Qed.

(** What the swap does: the greater of the two computed axes becomes [a],
    and the angle is turned by the literal 3.14159265358979323846 over 2
    exactly when the axes are exchanged. *)
Lemma order_and_validate_swap (mx my a0 b0 theta : T) :
  let e := order_and_validate mx my a0 b0 theta in
  valid e = true ->
  if b0 >? a0
  then a e = b0 /\ b e = a0 /\ angle e = theta + dec 314159265358979323846 (-20) / #2
  else a e = a0 /\ b e = b0 /\ angle e = theta.
Proof.
  unfold order_and_validate.
  destruct (b0 >? a0); cbv beta iota zeta;
    match goal with
    | |- context [if ?c then EllipseShape_default else _] => destruct c
    end;
    cbn [valid EllipseShape_default EllipseShape_new a b angle]; try discriminate;
    intros _; repeat split; reflexivity.
Qed.

(** When the computed [b] exceeds the computed [a] and the exchanged
    values pass the seven tests of the validation, the result is the valid
    ellipse with the axes exchanged and the angle turned. *)
Lemma order_and_validate_exchanges (mx my a0 b0 theta : T) :
  (b0 >? a0) = true ->
  std_isnan b0 = false -> std_isnan a0 = false ->
  std_isnan (theta + dec 314159265358979323846 (-20) / #2) = false ->
  (b0 <=? #0) = false -> (a0 <=? #0) = false ->
  (b0 >? #10000) = false -> (a0 >? #10000) = false ->
  order_and_validate mx my a0 b0 theta =
  EllipseShape_new (mkPoint mx my) b0 a0 (theta + dec 314159265358979323846 (-20) / #2).
Proof.
  intros Hswap Hnb Hna Hnt Hb0 Ha0 Hb1 Ha1. unfold order_and_validate.
  rewrite Hswap. cbv beta iota zeta.
  now rewrite Hnb, Hna, Hnt, Hb0, Ha0, Hb1, Ha1.
Qed.

(** C7.  In every arithmetic whose order satisfies [ArithOrder], and
    whatever <cmath> answers: when [FitEllipse] returns a valid ellipse,
    its axes satisfy [a >= b] and [b > 0]; in the last step, a valid result
    has the two computed axes exchanged and the angle turned by the literal
    3.14159265358979323846 / 2 exactly when the computed [b] exceeds the
    computed [a]; and [FitEllipse] does return that exchanged ellipse, as a
    valid result, for every point set that passes the three guards, whose
    computed [b_axis] exceeds its computed [a_axis], and whose exchanged
    values pass the tests of the validation. *)
Theorem FitEllipse_valid_axes :
  (forall points : list (Point T),
     valid (FitEllipse points) = true ->
     (a (FitEllipse points) >=? b (FitEllipse points)) = true /\
     (b (FitEllipse points) >? #0) = true) /\
  (forall mx my a0 b0 theta : T,
     let e := order_and_validate mx my a0 b0 theta in
     valid e = true ->
     if b0 >? a0
     then a e = b0 /\ b e = a0 /\ angle e = theta + dec 314159265358979323846 (-20) / #2
     else a e = a0 /\ b e = b0 /\ angle e = theta) /\
  (forall (points : list (Point T)) (mx my a0 b0 theta : T),
     moment_axes points = (mx, my, a0, b0, theta) ->
     (5 <= length points)%nat ->
     (std_abs (collinearity_det points) <? dec 1 (-6)) = false ->
     (std_abs (det_S3 points) <? dec 1 (-10)) = false ->
     (b0 >? a0) = true ->
     std_isnan b0 = false -> std_isnan a0 = false ->
     std_isnan (theta + dec 314159265358979323846 (-20) / #2) = false ->
     (b0 <=? #0) = false -> (a0 <=? #0) = false ->
     (b0 >? #10000) = false -> (a0 >? #10000) = false ->
     FitEllipse points =
     EllipseShape_new (mkPoint mx my) b0 a0
       (theta + dec 314159265358979323846 (-20) / #2)).
Proof.
  split; [| split; [exact order_and_validate_swap |]].
  - intros points. unfold FitEllipse.
    destruct (length points <? 5)%nat; [discriminate |].
    destruct (std_abs (collinearity_det points) <? dec 1 (-6)); [discriminate |].
    destruct (std_abs (det_S3 points) <? dec 1 (-10)); [discriminate |].
    unfold moment_fit. destruct (moment_axes points) as [[[[mx my] a0] b0] theta].
    apply order_and_validate_axes.
  - intros points mx my a0 b0 theta Haxes Hlen Hdet HS3 Hswap Hnb Hna Hnt Hb0 Ha0 Hb1 Ha1.
    unfold FitEllipse. apply Nat.ltb_ge in Hlen. rewrite Hlen, Hdet, HS3.
    unfold moment_fit. rewrite Haxes.
    now apply order_and_validate_exchanges.
Qed.

End Generic.

(** On binary64, with the values of <cmath> of [Binary64.cmath_table]: for
    the five points of [swap_five] the computed [a_axis] is
    1.7708754896942924 and the computed [b_axis] is 1.7708754896942926, one
    unit in the last place more; [FitEllipse] exchanges them, turns the
    angle from -1.1327673014958 to 0.4380290252990966 and returns the valid
    ellipse. *)
Lemma FitEllipse_valid_axes_witness :
  let a0 := dec 17708754896942924 (-16) in
  let b0 := dec 17708754896942926 (-16) in
  let theta := dec (-11327673014958) (-13) in
  moment_axes swap_five = (dec 16 (-1), dec 23 (-1), a0, b0, theta) /\
  (b0 >? a0)%num = true /\
  (theta + dec 314159265358979323846 (-20) / dec 2 0)%num = dec 4380290252990966 (-16) /\
  FitEllipse swap_five
  = EllipseShape_new (mkPoint (dec 16 (-1)) (dec 23 (-1))) b0 a0
      (theta + dec 314159265358979323846 (-20) / dec 2 0)%num.
Proof.
  intros a0 b0 theta.
  assert (Haxes : moment_axes swap_five = (dec 16 (-1), dec 23 (-1), a0, b0, theta))
    by (vm_compute; reflexivity).
  assert (Hswap : (b0 >? a0)%num = true) by (vm_compute; reflexivity).
  split; [exact Haxes |]. split; [exact Hswap |].
  split; [vm_compute; reflexivity |].
  apply (proj2 (proj2 (FitEllipse_valid_axes (O := Binary64Facts.order)))
           swap_five _ _ a0 b0 theta Haxes);
    vm_compute; reflexivity.
Defined.

(** C6: the code at the failing input.  On binary64, for every <cmath>
    that answers the correctly rounded values at the three arguments of
    this run: the five points of [collinear_five] lie on the line
    [y = 3 * x + 1] exactly, yet their collinearity determinant is computed
    as 1 / 524288, about 1.9e-6 and not below 1e-6, [det_S3] is computed
    as 1 / 32768, not below 1e-10, and [FitEllipse] returns a valid ellipse, with
    the axes 570.5962561216118 and 2.6973983046972182e-06. *)
Theorem FitEllipse_accepts_collinear_five (L : Libm Binary64.double) :
  std_atan2 (dec 48837013125 (-6)) (dec (-65116017499999994) (-12))
    = dec 2498091544796509 (-15) ->
  std_cos (dec 12490457723982544 (-16)) = dec 31622776601683794 (-17) ->
  std_sin (dec 12490457723982544 (-16)) = dec 9486832980505138 (-16) ->
  Forall (fun '(x, y) => y = 3 * x + 16) collinear_five_16 /\
  (5 <= length collinear_five)%nat /\
  collinearity_det collinear_five = (of_int 1 / of_int 524288)%num /\
  (std_abs (collinearity_det collinear_five) <? dec 1 (-6))%num = false /\
  det_S3 collinear_five = (of_int 1 / of_int 32768)%num /\
  (std_abs (det_S3 collinear_five) <? dec 1 (-10))%num = false /\
  FitEllipse (L := L) collinear_five
  = EllipseShape_new (mkPoint (dec 1477625 (-4)) (dec 4442875 (-4)))
      (dec 5705962561216118 (-13)) (dec 26973983046972182 (-22))
      (dec 12490457723982544 (-16)).
Proof.
  intros Hatan Hcos Hsin.
  split; [repeat constructor |].
  split; [cbn; lia |].
  split; [vm_compute; reflexivity |].
  split; [vm_compute; reflexivity |].
  split; [vm_compute; reflexivity |].
  split; [vm_compute; reflexivity |].
  vm_compute in Hatan, Hcos, Hsin. vm_compute.
  rewrite Hatan. vm_compute. rewrite Hcos, Hsin. vm_compute. reflexivity.
Qed.

(** The values of [Binary64.cmath_table] are those of the hypotheses. *)
Lemma FitEllipse_accepts_collinear_five_witness :
  valid (FitEllipse collinear_five) = true /\
  (a (FitEllipse collinear_five) >? dec 570 0)%num = true /\
  (b (FitEllipse collinear_five) <? dec 1 (-5))%num = true.
Proof.
  assert (H : FitEllipse collinear_five
              = EllipseShape_new (mkPoint (dec 1477625 (-4)) (dec 4442875 (-4)))
                  (dec 5705962561216118 (-13)) (dec 26973983046972182 (-22))
                  (dec 12490457723982544 (-16))).
  { apply (FitEllipse_accepts_collinear_five Binary64.cmath_table);
      vm_compute; reflexivity. }
  rewrite H. vm_compute. repeat split; reflexivity.
Defined.

(** On binary64 the five diagonal points have determinant 0 and are
    rejected by the collinearity guard. *)
Lemma FitEllipse_rejects_few_or_flat_witness :
  (std_abs (collinearity_det diagonal_five) <? dec 1 (-6))%num = true /\
  valid (FitEllipse diagonal_five) = false.
Proof.
  split.
  - vm_compute. reflexivity.
  - apply (FitEllipse_rejects_few_or_flat diagonal_five). right. vm_compute. reflexivity.
Defined.

(** On binary64 the six collinear pixel centres pass the collinearity
    guard (the rounded determinant is about -1.9e-6) and are rejected by
    the test on [det_S3], which is exactly 0. *)
Lemma FitEllipse_rejects_singular_S3_witness :
  (5 <= length collinear_six)%nat /\
  (std_abs (collinearity_det collinear_six) <? dec 1 (-6))%num = false /\
  (std_abs (det_S3 collinear_six) <? dec 1 (-10))%num = true /\
  valid (FitEllipse collinear_six) = false.
Proof.
  assert (H1 : (5 <= length collinear_six)%nat) by (cbn; lia).
  assert (H2 : (std_abs (collinearity_det collinear_six) <? dec 1 (-6))%num = false)
    by (vm_compute; reflexivity).
  assert (H3 : (std_abs (det_S3 collinear_six) <? dec 1 (-10))%num = true)
    by (vm_compute; reflexivity).
  refine (conj H1 (conj H2 (conj H3 _))).
  exact (proj2 (FitEllipse_rejects_singular_S3 collinear_six H1 H2 H3)).
Defined.

(** *** Exact arithmetic *)

Section OnReals.
Import Exact ExactFacts.
Local Open Scope R_scope.

Lemma order_and_validate_exact (mx my a0 b0 theta : R) :
  0 < b0 -> b0 <= a0 -> a0 <= 10000 ->
  order_and_validate mx my a0 b0 theta = EllipseShape_new (mkPoint mx my) a0 b0 theta.
Proof.
  intros Hb Hab Ha. unfold order_and_validate. exact_arith.
  rewrite (proj2 (Rltb_false a0 b0) Hab). cbn [orb].
  rewrite (proj2 (Rleb_false a0 0)) by lra.
  rewrite (proj2 (Rleb_false b0 0)) by lra.
  rewrite (proj2 (Rltb_false 10000 a0)) by lra.
  rewrite (proj2 (Rltb_false 10000 b0)) by lra.
  reflexivity.
Qed.

Lemma moment_fit_ellipse_five :
  moment_fit ellipse_five =
  order_and_validate 0 0 (2 * sqrt (8 / 5)) (2 * sqrt (2 / 5)) 0.
Proof.
  unfold moment_fit, moment_axes. cbv beta iota zeta.
  change (Z.of_nat (length ellipse_five)) with 5%Z.
  unfold sum_over, ellipse_five. cbn [fold_left pt_x pt_y]. exact_arith.
  replace ((0 + 2 + -2 + 0 + 0 + 0) / 5) with 0 by lra.
  replace ((0 + 0 + 0 + 1 + -1 + 0) / 5) with 0 by lra.
  match goal with
  | |- context [R_atan2 ?u ?v] => replace u with 0 by lra; replace v with (6 / 5) by lra
  end.
  assert (Hatan : R_atan2 0 (6 / 5) = 0).
  { unfold R_atan2. destruct (Rlt_dec 0 (6 / 5)); [| lra].
    replace (0 / (6 / 5)) with 0 by lra. apply atan_0. }
  rewrite Hatan. replace (R_dec 5 (-1) * 0) with 0 by ring.
  rewrite cos_0, sin_0.
  repeat match goal with
  | |- context [Rabs ?e] =>
      first [ replace (Rabs e) with (8 / 5) by (rewrite Rabs_right; lra)
            | replace (Rabs e) with (2 / 5) by (rewrite Rabs_right; lra) ]
  end.
  reflexivity.
Qed.

Lemma collinearity_det_ellipse_five : collinearity_det ellipse_five = 16.
Proof.
  unfold collinearity_det. cbv zeta.
  change (Z.of_nat (length ellipse_five)) with 5%Z.
  unfold sum_over, ellipse_five. cbn [fold_left pt_x pt_y]. exact_arith. lra.
Qed.

Lemma det_S3_ellipse_five : det_S3 ellipse_five = 80.
Proof.
  unfold det_S3, S3, sum_over, ellipse_five.
  cbn [fold_left D2_row pt_x pt_y]. exact_arith. lra.
Qed.

(** In exact arithmetic [FitEllipse] fits the five points with the axes
    [2 * sqrt (8 / 5)] and [2 * sqrt (2 / 5)] about the origin, unrotated. *)
Lemma FitEllipse_ellipse_five :
  FitEllipse ellipse_five =
  EllipseShape_new (mkPoint 0 0) (2 * sqrt (8 / 5)) (2 * sqrt (2 / 5)) 0.
Proof.
  unfold FitEllipse.
  change (length ellipse_five <? 5)%nat with false. cbv iota zeta.
  rewrite collinearity_det_ellipse_five, det_S3_ellipse_five. exact_arith.
  replace (R_dec 1 (-6)) with (1 / 1000000) by reflexivity.
  replace (R_dec 1 (-10)) with (1 / 10000000000) by reflexivity.
  rewrite (proj2 (Rltb_false (Rabs 16) (1 / 1000000))) by (rewrite Rabs_right; lra).
  rewrite (proj2 (Rltb_false (Rabs 80) (1 / 10000000000))) by (rewrite Rabs_right; lra).
  rewrite moment_fit_ellipse_five.
  assert (H1 : 0 < sqrt (2 / 5)) by (apply sqrt_lt_R0; lra).
  assert (H2 : sqrt (2 / 5) <= sqrt (8 / 5)) by (apply sqrt_le_1_alt; lra).
  assert (H3 : sqrt (8 / 5) <= 2).
  { rewrite <- (sqrt_square 2) by lra. apply sqrt_le_1_alt. lra. }
  apply order_and_validate_exact; lra.
Qed.

(** **** The two determinants in exact arithmetic *)

Lemma ellipse_sum_over_exact (f : Point R -> R) (l : list (Point R)) :
  sum_over f l = Rsum f l.
Proof. unfold sum_over. exact_arith. rewrite fold_left_Rsum. lra. Qed.

(** The sums of centred squares and products of [collinearity_det], from
    the raw sums. *)
Lemma collinearity_det_exact (points : list (Point R)) :
  let n := IZR (Z.of_nat (length points)) in
  let mx := Rsum pt_x points / n in
  let my := Rsum pt_y points / n in
  collinearity_det points =
  Rsum (fun p => (pt_x p - mx) * (pt_x p - mx)) points
  * Rsum (fun p => (pt_y p - my) * (pt_y p - my)) points
  - Rsum (fun p => (pt_x p - mx) * (pt_y p - my)) points
    * Rsum (fun p => (pt_x p - mx) * (pt_y p - my)) points.
Proof.
  intros n mx my. unfold collinearity_det. cbv zeta.
  rewrite !ellipse_sum_over_exact. exact_arith. reflexivity.
Qed.

(** [det_S3], from the raw sums. *)
Lemma det_S3_raw_sums (points : list (Point R)) :
  let n := IZR (Z.of_nat (length points)) in
  let sx := Rsum pt_x points in
  let sy := Rsum pt_y points in
  let sxx := Rsum (fun p => pt_x p * pt_x p) points in
  let syy := Rsum (fun p => pt_y p * pt_y p) points in
  let sxy := Rsum (fun p => pt_x p * pt_y p) points in
  det_S3 points =
  sxx * (syy * n - sy * sy) - sxy * (sxy * n - sy * sx) + sx * (sxy * sy - syy * sx).
Proof.
  intros n sx sy sxx syy sxy. unfold det_S3, S3. cbn [D2_row].
  rewrite !ellipse_sum_over_exact. exact_arith.
  rewrite (Rsum_const (1 * 1) points).
  rewrite (Rsum_ext_in (fun p => pt_y p * 1) pt_y points) by (intros; ring).
  rewrite (Rsum_ext_in (fun p => 1 * pt_y p) pt_y points) by (intros; ring).
  rewrite (Rsum_ext_in (fun p => pt_x p * 1) pt_x points) by (intros; ring).
  rewrite (Rsum_ext_in (fun p => 1 * pt_x p) pt_x points) by (intros; ring).
  rewrite (Rsum_ext_in (fun p => pt_y p * pt_x p) (fun p => pt_x p * pt_y p) points)
    by (intros; ring).
  fold n sx sy sxx syy sxy. ring.
Qed.

(** In exact arithmetic the two determinants are one quantity: [det_S3] is
    the collinearity determinant times the number of points. *)
Lemma det_S3_exact (points : list (Point R)) :
  det_S3 points = IZR (Z.of_nat (length points)) * collinearity_det points.
Proof.
  destruct points as [|p0 l].
  - unfold det_S3, S3, collinearity_det. rewrite !ellipse_sum_over_exact.
    cbn [Rsum length]. change (Z.of_nat 0) with 0%Z. exact_arith. ring.
  - set (points := p0 :: l).
    assert (Hn : IZR (Z.of_nat (length points)) <> 0).
    { apply not_0_IZR. unfold points. cbn [length]. lia. }
    pose proof (det_S3_raw_sums points) as Hd. cbv zeta in Hd. rewrite Hd.
    pose proof (collinearity_det_exact points) as Hc. cbv zeta in Hc. rewrite Hc.
    rewrite !Rsum_centred. field. exact Hn.
Qed.

(** For points on a line the collinearity determinant is exactly 0. *)
Lemma collinearity_det_collinear (points : list (Point R)) :
  collinear points -> collinearity_det points = 0.
Proof.
  intros (a0 & b0 & c0 & Hab & Hline).
  pose proof (collinearity_det_exact points) as Hc. cbv zeta in Hc. rewrite Hc.
  destruct points as [|p0 l]; [cbn [Rsum]; ring |].
  set (points := p0 :: l) in *.
  assert (Hlen : (0 < length points)%nat) by (unfold points; cbn [length]; lia).
  pose proof (centroid_on_line pt_x pt_y a0 b0 c0 points Hlen Hline) as Hcen.
  cbv zeta in Hcen.
  set (n := IZR (Z.of_nat (length points))) in *.
  set (mx := Rsum pt_x points / n) in *. set (my := Rsum pt_y points / n) in *.
  assert (Hrel : forall p, In p points -> a0 * (pt_x p - mx) + b0 * (pt_y p - my) = 0).
  { intros p Hp. specialize (Hline p Hp). lra. }
  apply (degenerate_moments a0 b0 _ _ _ 0 0 0); [exact Hab | | | ring].
  - apply linear_relation_of_sums. intros p Hp. specialize (Hrel p Hp).
    replace (a0 * ((pt_x p - mx) * (pt_x p - mx)) + b0 * ((pt_x p - mx) * (pt_y p - my)))
      with ((pt_x p - mx) * (a0 * (pt_x p - mx) + b0 * (pt_y p - my))) by ring.
    rewrite Hrel. ring.
  - apply linear_relation_of_sums. intros p Hp. specialize (Hrel p Hp).
    replace (a0 * ((pt_x p - mx) * (pt_y p - my)) + b0 * ((pt_y p - my) * (pt_y p - my)))
      with ((pt_y p - my) * (a0 * (pt_x p - mx) + b0 * (pt_y p - my))) by ring.
    rewrite Hrel. ring.
Qed.

(** In exact arithmetic [FitEllipse] rejects every set of collinear
    points, and it is the collinearity guard that rejects it (or the test
    on the number of points). *)
Lemma FitEllipse_collinear_exact (points : list (Point R)) :
  collinear points ->
  collinearity_det points = 0 /\ det_S3 points = 0 /\
  FitEllipse points = EllipseShape_default.
Proof.
  intros Hcol. pose proof (collinearity_det_collinear points Hcol) as Hdet.
  split; [exact Hdet |]. split; [rewrite det_S3_exact, Hdet; ring |].
  unfold FitEllipse. destruct (length points <? 5)%nat; [reflexivity |].
  cbv zeta. rewrite Hdet. exact_arith.
  rewrite (proj2 (Rltb_true (Rabs 0) (R_dec 1 (-6)))); [reflexivity |].
  rewrite Rabs_R0. replace (R_dec 1 (-6)) with (1 / 1000000) by reflexivity. lra.
Qed.

(** In exact arithmetic the test on [det_S3] never decides: a set of at
    least 5 points that passes the collinearity guard passes it too.  The
    rejection of [FitEllipse_rejects_singular_S3] is reached through
    rounding only, as on [collinear_six]. *)
Lemma det_S3_test_passes_exact (points : list (Point R)) :
  (5 <= length points)%nat ->
  (std_abs (collinearity_det points) <? dec 1 (-6))%num = false ->
  (std_abs (det_S3 points) <? dec 1 (-10))%num = false.
Proof.
  intros Hlen Hdet. rewrite det_S3_exact. exact_arith.
  apply Rltb_false in Hdet. apply Rltb_false.
  replace (R_dec 1 (-6)) with (1 / 1000000) in Hdet by reflexivity.
  replace (R_dec 1 (-10)) with (1 / 10000000000) by reflexivity.
  assert (Hn : 5 <= IZR (Z.of_nat (length points))) by (apply IZR_le; lia).
  rewrite Rabs_mult, (Rabs_right (IZR (Z.of_nat (length points)))) by lra.
  nra.
Qed.

End OnReals.

End ExtraCreditFacts.

(** ** Problem1, Geometry.h: distances and the scale of the transform *)

Module GeometryFacts.
Import Problem1 Problem1Spec Exact ExactFacts Problem1Facts.
Local Open Scope R_scope.

Lemma distanceSquaredTo_exact (p q : Point2D R) :
  distanceSquaredTo p q = (pt_x p - pt_x q) * (pt_x p - pt_x q)
                          + (pt_y p - pt_y q) * (pt_y p - pt_y q).
Proof. reflexivity. Qed.

Lemma sum_squares_nonneg (u v : R) : 0 <= u * u + v * v.
Proof. nra. Qed.

Lemma sum_squares_zero (u v : R) : u * u + v * v = 0 -> u = 0 /\ v = 0.
Proof. intros H. split; nra. Qed.

Lemma sqrt_sum_squares_scale (s u v : R) :
  0 <= s -> sqrt ((u * s) * (u * s) + (v * s) * (v * s)) = sqrt (u * u + v * v) * s.
Proof.
  intros Hs. replace ((u * s) * (u * s) + (v * s) * (v * s))
    with ((u * u + v * v) * (s * s)) by ring.
  rewrite sqrt_mult by nra. now rewrite sqrt_square.
Qed.

(** The inequality of Cauchy and Schwarz in the plane, for the lengths. *)
Lemma sqrt_sum_squares_triangle (c d e f : R) :
  sqrt ((c + e) * (c + e) + (d + f) * (d + f))
  <= sqrt (c * c + d * d) + sqrt (e * e + f * f).
Proof.
  set (u := sqrt (c * c + d * d)). set (v := sqrt (e * e + f * f)).
  assert (Hu : 0 <= u) by apply sqrt_pos.
  assert (Hv : 0 <= v) by apply sqrt_pos.
  assert (Hu2 : u * u = c * c + d * d) by (apply sqrt_sqrt; nra).
  assert (Hv2 : v * v = e * e + f * f) by (apply sqrt_sqrt; nra).
  clearbody u v.
  assert (Hcs : c * e + d * f <= u * v).
  { destruct (Rle_dec (c * e + d * f) 0) as [Hneg|Hpos]; [nra |].
    apply Rnot_le_lt in Hpos.
    assert (Hsq : (c * e + d * f) * (c * e + d * f) <= (u * v) * (u * v)).
    { replace ((u * v) * (u * v)) with ((u * u) * (v * v)) by ring.
      rewrite Hu2, Hv2. pose proof (Rle_0_sqr (c * f - d * e)) as Hsqr.
      unfold Rsqr in Hsqr. nra. }
    apply Rsqr_incr_0_var; [exact Hsq | now apply Rmult_le_pos]. }
  rewrite <- (sqrt_square (u + v)) by lra.
  apply sqrt_le_1_alt. nra.
Qed.

(** X1.  In exact arithmetic [distanceTo] is a distance: it is not
    negative, symmetric, zero between equal points only, it satisfies the
    triangle inequality, and its square is [distanceSquaredTo]. *)
Theorem distanceTo_is_a_metric (p q r : Point2D R) :
  0 <= distanceTo p q /\
  distanceTo p q = distanceTo q p /\
  (distanceTo p q = 0 <-> p = q) /\
  distanceTo p r <= distanceTo p q + distanceTo q r /\
  distanceTo p q * distanceTo p q = distanceSquaredTo p q.
Proof.
  split; [apply distanceTo_nonneg |]. split; [| split; [| split]].
  - rewrite !distanceTo_exact. f_equal. ring.
  - rewrite distanceTo_exact. split.
    + intros H0. apply sqrt_eq_0 in H0; [| apply sum_squares_nonneg].
      apply sum_squares_zero in H0 as [Hx Hy].
      destruct p as [px py], q as [qx qy]. cbn [pt_x pt_y] in Hx, Hy.
      f_equal; lra.
    + intros ->. replace ((pt_x q - pt_x q) * (pt_x q - pt_x q)
                          + (pt_y q - pt_y q) * (pt_y q - pt_y q)) with 0 by ring.
      apply sqrt_0.
  - rewrite !distanceTo_exact.
    replace (pt_x p - pt_x r) with ((pt_x p - pt_x q) + (pt_x q - pt_x r)) by ring.
    replace (pt_y p - pt_y r) with ((pt_y p - pt_y q) + (pt_y q - pt_y r)) by ring.
    apply sqrt_sum_squares_triangle.
  - rewrite distanceTo_exact, distanceSquaredTo_exact. apply sqrt_sqrt.
    apply sum_squares_nonneg.
Qed.

(** X2.  In exact arithmetic [distanceFromBoundary] is the unsigned
    distance to the boundary: never negative (also for a point inside the
    circle), [radius - d] for a point at distance [d <= radius] from the
    centre, [d - radius] for a point at distance [d >= radius], and zero on
    the boundary only. *)
Theorem distanceFromBoundary_is_unsigned (c : Circle R) (point : Point2D R) :
  let d := distanceTo (center c) point in
  0 <= distanceFromBoundary c point /\
  (d <= radius c -> distanceFromBoundary c point = radius c - d) /\
  (radius c <= d -> distanceFromBoundary c point = d - radius c) /\
  (distanceFromBoundary c point = 0 <-> d = radius c).
Proof.
  intros d. unfold distanceFromBoundary. cbv zeta. fold d. exact_arith.
  split; [apply Rabs_pos |]. split; [| split].
  - intros Hle. rewrite Rabs_left1; lra.
  - intros Hge. rewrite Rabs_right; lra.
  - split.
    + intros H0. destruct (Rcase_abs (d - radius c)) as [Hneg|Hpos].
      * rewrite Rabs_left in H0; lra.
      * rewrite Rabs_right in H0; lra.
    + intros ->. replace (radius c - radius c) with 0 by ring. apply Rabs_R0.
Qed.

(** X3.  In exact arithmetic, for a transform of positive spacing: the
    two conversions of a length are inverse to each other, and the
    conversions of points scale every distance by the spacing, so that a
    length converted by [gridDistanceToCanvas] or [canvasDistanceToGrid] is
    the distance of the converted points. *)
Theorem transform_scales_distances (t : CoordinateTransform R) (p q : Point2D R) (d : R) :
  0 < getGridSpacing t ->
  gridDistanceToCanvas t (canvasDistanceToGrid t d) = d /\
  canvasDistanceToGrid t (gridDistanceToCanvas t d) = d /\
  distanceTo (gridToCanvas t p) (gridToCanvas t q) = gridDistanceToCanvas t (distanceTo p q) /\
  distanceTo (canvasToGrid t p) (canvasToGrid t q) = canvasDistanceToGrid t (distanceTo p q).
Proof.
  unfold getGridSpacing, gridDistanceToCanvas, canvasDistanceToGrid. exact_arith.
  intros Hs. set (s := gridSpacing t) in *.
  split; [field; lra |]. split; [field; lra |]. split.
  - rewrite !distanceTo_exact. unfold gridToCanvas. exact_arith. fold s.
    cbn [pt_x pt_y]. rewrite <- sqrt_sum_squares_scale by lra.
    f_equal. ring.
  - rewrite !distanceTo_exact. unfold canvasToGrid. exact_arith. fold s.
    cbn [pt_x pt_y]. unfold Rdiv.
    rewrite <- sqrt_sum_squares_scale by (apply Rlt_le, Rinv_0_lt_compat; lra).
    f_equal. ring.
Qed.

(** The transform of the program, of spacing 700 / 19. *)
Lemma transform_scales_distances_witness :
  let t := @CoordinateTransform_new R _ 20 800 800 50 in
  distanceTo (gridToCanvas t (mkPoint2D 0 0)) (gridToCanvas t (mkPoint2D 3 4))
  = gridDistanceToCanvas t (distanceTo (mkPoint2D 0 0) (mkPoint2D 3 4)).
Proof.
  intros t.
  refine (proj1 (proj2 (proj2 (transform_scales_distances t _ _ 0 _)))).
  unfold getGridSpacing, t, CoordinateTransform_new.
  cbn [gridSpacing add sub mul div of_int Exact.arith].
  replace (Z.min (800 - 2 * 50) (800 - 2 * 50)) with 700%Z by reflexivity.
  replace (20 - 1)%Z with 19%Z by reflexivity. lra.
Defined.

(** X4.  In exact arithmetic, for a grid of at least 2 x 2 points and a
    padding that leaves room ([0 <= 2 * padding <= canvasWidth,
    canvasHeight]): the spacing is not negative, [gridSize - 1] spacings make
    the smaller of the two padded sides, the grid is centred on the canvas
    (its margins left and right, and above and below, are equal), and every
    grid point is placed inside the padded canvas. *)
Theorem CoordinateTransform_new_centres_grid (gridSz canvasWidth canvasHeight padding : Z) :
  (2 <= gridSz)%Z -> (0 <= padding)%Z ->
  (2 * padding <= canvasWidth)%Z -> (2 * padding <= canvasHeight)%Z ->
  let t := @CoordinateTransform_new R _ gridSz canvasWidth canvasHeight padding in
  let side := IZR (Z.min (canvasWidth - 2 * padding) (canvasHeight - 2 * padding)) in
  0 <= gridSpacing t /\
  gridSpacing t * IZR (gridSz - 1) = side /\
  pt_x (gridOrigin t) = IZR canvasWidth - (pt_x (gridOrigin t) + side) /\
  pt_y (gridOrigin t) = IZR canvasHeight - (pt_y (gridOrigin t) + side) /\
  forall col row : Z, (0 <= col <= gridSz - 1)%Z -> (0 <= row <= gridSz - 1)%Z ->
    let canvas := gridToCanvas t (mkPoint2D (IZR col) (IZR row)) in
    IZR padding <= pt_x canvas <= IZR (canvasWidth - padding) /\
    IZR padding <= pt_y canvas <= IZR (canvasHeight - padding).
Proof.
  intros Hn Hpad Hw Hh t side.
  set (n1 := IZR (gridSz - 1)).
  assert (Hn1 : 1 <= n1) by (apply IZR_le; lia).
  assert (Hside : 0 <= side) by (apply IZR_le; lia).
  assert (Hsw : side <= IZR (canvasWidth - 2 * padding)) by (apply IZR_le; lia).
  assert (Hsh : side <= IZR (canvasHeight - 2 * padding)) by (apply IZR_le; lia).
  assert (Hs : gridSpacing t = side / n1) by reflexivity.
  assert (Hmul : gridSpacing t * n1 = side) by (rewrite Hs; field; lra).
  assert (Hpos : 0 <= gridSpacing t).
  { rewrite Hs. apply Rmult_le_pos; [exact Hside |]. apply Rlt_le, Rinv_0_lt_compat. lra. }
  assert (Hox : pt_x (gridOrigin t)
                = IZR padding + (IZR (canvasWidth - 2 * padding) - side) / 2).
  { rewrite <- Hmul. reflexivity. }
  assert (Hoy : pt_y (gridOrigin t)
                = IZR padding + (IZR (canvasHeight - 2 * padding) - side) / 2).
  { rewrite <- Hmul. reflexivity. }
  rewrite !minus_IZR, !mult_IZR in *.
  split; [exact Hpos |]. split; [exact Hmul |].
  split; [rewrite Hox; lra |]. split; [rewrite Hoy; lra |].
  intros col row Hcol Hrow canvas.
  assert (Hc : 0 <= IZR col * gridSpacing t <= side).
  { assert (0 <= IZR col <= n1) by (unfold n1; split; apply IZR_le; lia).
    rewrite <- Hmul. split; [apply Rmult_le_pos; lra |].
    rewrite (Rmult_comm (gridSpacing t)). apply Rmult_le_compat_r; lra. }
  assert (Hr : 0 <= IZR row * gridSpacing t <= side).
  { assert (0 <= IZR row <= n1) by (unfold n1; split; apply IZR_le; lia).
    rewrite <- Hmul. split; [apply Rmult_le_pos; lra |].
    rewrite (Rmult_comm (gridSpacing t)). apply Rmult_le_compat_r; lra. }
  unfold canvas, gridToCanvas. cbn [pt_x pt_y add mul Exact.arith].
  rewrite Hox, Hoy. lra.
Qed.

(** The grid of the program: 20 x 20 on 800 x 800 with padding 50. *)
Lemma CoordinateTransform_new_centres_grid_witness :
  let t := @CoordinateTransform_new R _ 20 800 800 50 in
  0 <= gridSpacing t /\ gridSpacing t * 19 = 700.
Proof.
  intros t.
  pose proof (CoordinateTransform_new_centres_grid 20 800 800 50
                ltac:(lia) ltac:(lia) ltac:(lia) ltac:(lia)) as H.
  cbv zeta in H. split; [exact (proj1 H) | exact (proj1 (proj2 H))].
Defined.

End GeometryFacts.

(** ** Problem1, Grid.h: the constructor, the reset and the highlighted points *)

Module GridFacts.
Import Problem1 Problem1Spec Problem1Facts.

Section Generic.
Context {T : Type} {A : Arith T}.
Local Open Scope num_scope.

(** A loop that appends one list per iteration appends the lists of its
    range, in order. *)
Lemma append_lists_loop {X : Type} (f : Z -> list X) (n : Z) (l : list X) :
  for_loop 0 n (fun row l => l ++ f row) l = l ++ concat (map f (seqZ 0 n)).
Proof.
  unfold for_loop. rewrite Z.sub_0_r.
  generalize (seqZ 0 n). intros rows. revert l.
  induction rows as [|r rows IH]; intros l; cbn; [now rewrite app_nil_r |].
  rewrite IH. now rewrite <- app_assoc.
Qed.

(** Loops with equal bodies are equal. *)
Lemma for_loop_ext {S : Type} (lo hi : Z) (body1 body2 : Z -> S -> S) (s : S) :
  (forall i s', body1 i s' = body2 i s') ->
  for_loop lo hi body1 s = for_loop lo hi body2 s.
Proof.
  intros Hext. unfold for_loop. generalize (seqZ lo (hi - lo)). intros l. revert s.
  induction l as [|i l IH]; intros s; cbn; [reflexivity |].
  now rewrite Hext, IH.
Qed.

(** The points the constructor of [Grid] makes, row by row. *)
Lemma Grid_new_points (gridSize canvasWidth canvasHeight padding : Z) :
  let t := CoordinateTransform_new gridSize canvasWidth canvasHeight padding in
  points (Grid_new gridSize canvasWidth canvasHeight padding) =
  concat (map (fun row =>
    map (fun col => mkGridPoint (mkPoint2D (of_int col) (of_int row))
                      (gridToCanvas t (mkPoint2D (of_int col) (of_int row))) false)
        (seqZ 0 gridSize)) (seqZ 0 gridSize)).
Proof.
  intros t. unfold Grid_new. cbn [points]. fold t.
  rewrite <- (app_nil_l (concat _)). rewrite <- append_lists_loop.
  apply for_loop_ext. intros row l. apply append_loop.
Qed.

(** [getHighlightedPoints] lists the grid positions of the highlighted
    points. *)
Lemma getHighlightedPoints_filter (g : Grid T) :
  getHighlightedPoints g = map gridPosition (List.filter highlighted (points g)).
Proof.
  unfold getHighlightedPoints.
  assert (Hgen : forall (l : list (GridPoint T)) (acc : list (Point2D T)),
    fold_left (fun result point =>
      if highlighted point then result ++ [gridPosition point] else result) l acc
    = acc ++ map gridPosition (List.filter highlighted l)).
  { induction l as [|p l IH]; intros acc; cbn; [now rewrite app_nil_r |].
    rewrite IH. destruct (highlighted p); [| reflexivity].
    cbn. now rewrite <- app_assoc. }
  apply Hgen.
Qed.

(** The flag of the loop of [calculateBoundingCircles] tells whether a
    highlighted point was met. *)
Lemma bounds_loop_flag (center : Point2D T) (l : list (GridPoint T)) (st : bounds_state) :
  hasHighlightedPoints
    (fold_left (fun st point =>
       if highlighted point then
         let dist := distanceTo center (gridPosition point) in
         mkBounds (std_min (minDistance st) dist) (std_max (maxDistance st) dist) true
       else st) l st)
  = hasHighlightedPoints st || existsb highlighted l.
Proof.
  revert st. induction l as [|p l IH]; intros st; cbn [fold_left existsb].
  - now rewrite orb_false_r.
  - rewrite IH. destruct (highlighted p); cbn [hasHighlightedPoints orb].
    + now rewrite orb_true_r.
    + reflexivity.
Qed.

Lemma existsb_highlighted_filter (l : list (GridPoint T)) :
  existsb highlighted l = true <-> List.filter highlighted l <> [].
Proof.
  induction l as [|p l IH]; cbn; [split; [discriminate | congruence] |].
  destruct (highlighted p); cbn; [split; [discriminate | reflexivity] | exact IH].
Qed.

Lemma filter_highlighted_none (l : list (GridPoint T)) :
  Forall (fun p => highlighted p = false) l -> List.filter highlighted l = [].
Proof.
  induction 1 as [|p l Hp _ IH]; [reflexivity |]. cbn. now rewrite Hp.
Qed.

(** Without a highlighted point [calculateBoundingCircles] fails and
    leaves the two circles as they were. *)
Lemma calculateBoundingCircles_none (g : Grid T) (center : Point2D T)
    (innerCircle outerCircle : Circle T) :
  Forall (fun p => highlighted p = false) (points g) ->
  calculateBoundingCircles g center innerCircle outerCircle
  = (false, innerCircle, outerCircle).
Proof.
  intros Hall. unfold calculateBoundingCircles.
  set (st0 := mkBounds DBL_MAX (dec 0 0) false).
  assert (Hst : forall (l : list (GridPoint T)) (st : bounds_state),
    Forall (fun p => highlighted p = false) l ->
    fold_left (fun st point =>
       if highlighted point then
         let dist := distanceTo center (gridPosition point) in
         mkBounds (std_min (minDistance st) dist) (std_max (maxDistance st) dist) true
       else st) l st = st).
  { induction l as [|p l IH]; intros st Hl; [reflexivity |].
    inversion Hl as [|? ? Hp Hl']; subst. cbn [fold_left]. rewrite Hp. now apply IH. }
  rewrite (Hst _ _ Hall). reflexivity.
Qed.

(** X5.  In every arithmetic, for arguments with which every operation on
    [int] of the two constructors has a value of [int]: the constructor of
    [Grid] makes [gridSize * gridSize] points in row-major order, the point
    of row [row] and column [col] at grid position [(col, row)]; no point is
    highlighted, and the canvas position of every point is [gridToCanvas] of
    its grid position.  On the new grid [getHighlightedPoints] is empty and
    [calculateBoundingCircles] fails, leaving the circles untouched. *)
Theorem Grid_new_postcondition (gridSize canvasWidth canvasHeight padding : Z) :
  constructor_in_int_range gridSize canvasWidth canvasHeight padding = true ->
  let g := Grid_new gridSize canvasWidth canvasHeight padding in
  size g = gridSize /\
  transform g = CoordinateTransform_new gridSize canvasWidth canvasHeight padding /\
  Grid_inv g /\
  Forall (fun p => highlighted p = false /\
                   canvasPosition p = gridToCanvas (transform g) (gridPosition p))
         (points g) /\
  getHighlightedPoints g = [] /\
  forall (center : Point2D T) (innerCircle outerCircle : Circle T),
    calculateBoundingCircles g center innerCircle outerCircle
    = (false, innerCircle, outerCircle).
Proof.
  intros _ g.
  assert (Hall : Forall (fun p => highlighted p = false /\
                     canvasPosition p = gridToCanvas (transform g) (gridPosition p))
                   (points g)).
  { unfold g. rewrite Grid_new_points. cbv zeta.
    apply Forall_concat, Forall_map, Forall_forall. intros row _.
    apply Forall_map, Forall_forall. intros col _. cbn. split; reflexivity. }
  assert (Hoff : Forall (fun p => highlighted p = false) (points g)).
  { eapply Forall_impl; [exact Hall |]. cbn. intros p [Hp _]. exact Hp. }
  split; [reflexivity |]. split; [reflexivity |].
  split; [apply Grid_new_inv |]. split; [exact Hall |]. split.
  - rewrite getHighlightedPoints_filter.
    now rewrite (filter_highlighted_none _ Hoff).
  - intros center innerCircle outerCircle. now apply calculateBoundingCircles_none.
Qed.

(** [resetHighlights] keeps the invariant of the class. *)
Lemma resetHighlights_inv (g : Grid T) : Grid_inv g -> Grid_inv (resetHighlights g).
Proof.
  intros (Hlen & Hpos). unfold resetHighlights, Grid_inv, getPoint.
  cbn [points size]. split; [now rewrite length_map |].
  intros row col Hr Hc. destruct (Hpos row col Hr Hc) as (p & Hp & Hgp).
  unfold getPoint in Hp. rewrite list_lookup_fmap, Hp. cbn.
  eexists. split; [reflexivity | exact Hgp].
Qed.

(** X6.  In every arithmetic, [resetHighlights] clears every flag and
    changes nothing else: size, transform and the positions of the points
    are kept, and so is the invariant of the class.  After it
    [getHighlightedPoints] is empty and [calculateBoundingCircles] fails,
    leaving the circles untouched. *)
Theorem resetHighlights_clears (g : Grid T) :
  let g' := resetHighlights g in
  size g' = size g /\ transform g' = transform g /\
  map gridPosition (points g') = map gridPosition (points g) /\
  map canvasPosition (points g') = map canvasPosition (points g) /\
  Forall (fun p => highlighted p = false) (points g') /\
  (Grid_inv g -> Grid_inv g') /\
  getHighlightedPoints g' = [] /\
  forall (center : Point2D T) (innerCircle outerCircle : Circle T),
    calculateBoundingCircles g' center innerCircle outerCircle
    = (false, innerCircle, outerCircle).
Proof.
  intros g'.
  assert (Hoff : Forall (fun p => highlighted p = false) (points g')).
  { unfold g', resetHighlights. cbn [points]. apply Forall_map, Forall_forall.
    intros p _. reflexivity. }
  split; [reflexivity |]. split; [reflexivity |].
  split; [unfold g', resetHighlights; cbn [points]; rewrite map_map; reflexivity |].
  split; [unfold g', resetHighlights; cbn [points]; rewrite map_map; reflexivity |].
  split; [exact Hoff |]. split; [| split].
  - apply resetHighlights_inv.
  - rewrite getHighlightedPoints_filter.
    now rewrite (filter_highlighted_none _ Hoff).
  - intros center innerCircle outerCircle. now apply calculateBoundingCircles_none.
Qed.

(** X7.  In every arithmetic, [getHighlightedPoints] returns the grid
    positions of the highlighted points in the order of the points, and
    [calculateBoundingCircles] succeeds exactly when that list is not empty;
    when it fails the two circles are untouched, when it succeeds both are
    centred at [center]. *)
Theorem calculateBoundingCircles_found (g : Grid T) (center : Point2D T)
    (innerCircle outerCircle : Circle T) :
  let result := calculateBoundingCircles g center innerCircle outerCircle in
  getHighlightedPoints g = map gridPosition (List.filter highlighted (points g)) /\
  (result.1.1 = true <-> getHighlightedPoints g <> []) /\
  (result.1.1 = false -> result.1.2 = innerCircle /\ result.2 = outerCircle) /\
  (result.1.1 = true ->
     Problem1.center result.1.2 = center /\ Problem1.center result.2 = center).
Proof.
  intros result. split; [apply getHighlightedPoints_filter |].
  unfold result, calculateBoundingCircles.
  match goal with
  | |- context [negb (hasHighlightedPoints ?s)] => set (st := s)
  end.
  assert (Hflag : hasHighlightedPoints st = existsb highlighted (points g)).
  { unfold st. rewrite bounds_loop_flag. reflexivity. }
  rewrite getHighlightedPoints_filter.
  destruct (hasHighlightedPoints st) eqn:Hh; cbn [negb fst snd].
  - split; [| split; [discriminate | intros _; split; reflexivity]].
    split; [| reflexivity]. intros _ Hnil.
    symmetry in Hflag. apply existsb_highlighted_filter in Hflag.
    apply Hflag. now apply map_eq_nil in Hnil.
  - split; [| split; [intros _; split; reflexivity | discriminate]].
    split; [discriminate |]. intros Hne. exfalso. apply Hne.
    destruct (List.filter highlighted (points g)) eqn:Hf; [reflexivity |].
    assert (Hex : existsb highlighted (points g) = true).
    { apply existsb_highlighted_filter. rewrite Hf. discriminate. }
    congruence.
Qed.

End Generic.

(** On binary64: the grid of the program, of 20 x 20 points on the canvas
    of 800 x 800 pixels with the padding 50. *)
Lemma Grid_new_postcondition_witness :
  constructor_in_int_range GRID_SIZE WINDOW_WIDTH WINDOW_HEIGHT GRID_PADDING = true /\
  size config_grid = 20%Z /\
  length (points config_grid) = 400%nat /\
  getHighlightedPoints config_grid = [].
Proof.
  assert (Hrange : constructor_in_int_range GRID_SIZE WINDOW_WIDTH WINDOW_HEIGHT
                     GRID_PADDING = true) by reflexivity.
  pose proof (Grid_new_postcondition (T := Binary64.double)
                GRID_SIZE WINDOW_WIDTH WINDOW_HEIGHT GRID_PADDING Hrange) as H.
  cbv zeta in H. fold config_grid in H.
  destruct H as (Hsize & _ & [Hlen _] & _ & Hnone & _).
  split; [exact Hrange |]. split; [exact Hsize |].
  split; [rewrite Hlen, Hsize; reflexivity | exact Hnone].
Defined.

End GridFacts.

(** ** Problem1, Rasterizer.h with Grid.h: what a rasterisation leaves *)

Module RasterizerFacts.
Import Problem1 Problem1Spec Problem1Facts GridFacts.

Section Generic.
Context {T : Type} {A : Arith T}.
Local Open Scope num_scope.

Lemma Grid_eq (g1 g2 : Grid T) :
  points g1 = points g2 -> size g1 = size g2 -> transform g1 = transform g2 ->
  g1 = g2.
Proof. destruct g1, g2. cbn. intros -> -> ->. reflexivity. Qed.

(** [rasterize] keeps the number of points, the size and the transform. *)
Lemma rasterize_shape (g : Grid T) (c : Circle T) :
  size (rasterize g c) = size g /\ transform (rasterize g c) = transform g /\
  length (points (rasterize g c)) = length (points g).
Proof.
  destruct (isValid c) eqn:Hv.
  - destruct (rasterize_updated g c Hv) as (Hsz & Ht & Hl & _). now repeat split.
  - unfold rasterize. rewrite Hv. now repeat split.
Qed.

(** The boundary test reads the grid position of a point only. *)
Lemma near_boundary_set_highlighted (c : Circle T) (b : bool) (p : GridPoint T) :
  near_boundary c (set_highlighted b p) = near_boundary c p.
Proof. reflexivity. Qed.

(** [rasterize] with a valid circle reads no flag: two grids that differ
    in their flags only are rasterised to the same grid. *)
Lemma rasterize_flags_irrelevant (g g1 : Grid T) (c : Circle T)
    (b : GridPoint T -> bool) :
  length (points g) = (Z.to_nat (size g) * Z.to_nat (size g))%nat ->
  isValid c = true ->
  points g1 = map (fun p => set_highlighted (b p) p) (points g) ->
  size g1 = size g -> transform g1 = transform g ->
  rasterize g1 c = rasterize g c.
Proof.
  intros Hlen Hv Hpts Hsz Ht.
  destruct (rasterize_shape g1 c) as (Hsz1 & Ht1 & _).
  destruct (rasterize_shape g c) as (Hsz2 & Ht2 & _).
  apply Grid_eq; [| congruence | congruence].
  rewrite (rasterize_points g1 c), (rasterize_points g c Hlen Hv);
    [| now rewrite Hpts, length_map, Hsz | exact Hv].
  rewrite Hpts, map_map. reflexivity.
Qed.

(** X8.  In every arithmetic, on a grid of [size * size] points,
    [rasterize] with a valid circle overwrites every flag: the result does
    not depend on the flags before the call.  Rasterising after an earlier
    rasterisation (of any circle), after [resetHighlights], or a second time
    with the same circle gives the grid that one call gives. *)
Theorem rasterize_overwrites (g : Grid T) (c1 c2 : Circle T) :
  length (points g) = (Z.to_nat (size g) * Z.to_nat (size g))%nat ->
  isValid c2 = true ->
  rasterize (rasterize g c1) c2 = rasterize g c2 /\
  rasterize (resetHighlights g) c2 = rasterize g c2 /\
  rasterize (rasterize g c2) c2 = rasterize g c2.
Proof.
  intros Hlen Hv.
  assert (Hover : forall c : Circle T, rasterize (rasterize g c) c2 = rasterize g c2).
  { intros c. destruct (isValid c) eqn:Hvc.
    - destruct (rasterize_shape g c) as (Hsz & Ht & _).
      apply (rasterize_flags_irrelevant g _ c2 (near_boundary c) Hlen Hv);
        [apply (rasterize_points g c Hlen Hvc) | exact Hsz | exact Ht].
    - unfold rasterize at 2. now rewrite Hvc. }
  split; [apply Hover |]. split; [| apply Hover].
  now apply (rasterize_flags_irrelevant g _ c2 (fun _ => false) Hlen Hv).
Qed.

(** X9.  In every arithmetic, on a grid of [size * size] points: after
    [rasterize] with a valid circle, [getHighlightedPoints] returns, in the
    order of the points, the grid positions that [Circle::isPointNearBoundary]
    accepts with the threshold [Config::RASTERIZATION_THRESHOLD]. *)
Theorem getHighlightedPoints_rasterize (g : Grid T) (c : Circle T) :
  length (points g) = (Z.to_nat (size g) * Z.to_nat (size g))%nat ->
  isValid c = true ->
  getHighlightedPoints (rasterize g c) =
  List.filter (fun q => isPointNearBoundary c q RASTERIZATION_THRESHOLD)
              (map gridPosition (points g)).
Proof.
  intros Hlen Hv. rewrite getHighlightedPoints_filter, (rasterize_points g c Hlen Hv).
  clear Hlen. generalize (points g). intros l.
  induction l as [|p l IH]; [reflexivity |].
  cbn [map List.filter highlighted set_highlighted].
  change (isPointNearBoundary c (gridPosition p) RASTERIZATION_THRESHOLD)
    with (near_boundary c p).
  destruct (near_boundary c p); cbn [map gridPosition set_highlighted]; now rewrite IH.
Qed.

(** X22.  In every arithmetic, on a grid of the class and for a valid
    circle whose bounding box is defined: [rasterizeOptimized] keeps size,
    transform and positions, and leaves a point highlighted exactly when it
    lies in the clamped bounding box and passes the boundary test.  So it
    highlights no point that [rasterize] does not highlight: rounding in the
    bounds of the box can only lose points. *)
Theorem rasterizeOptimized_highlights_within_box (g g' : Grid T) (c : Circle T) :
  Grid_inv g -> isValid c = true -> rasterizeOptimized g c = Some g' ->
  exists minRow maxRow minCol maxCol : Z,
    bounding_box (size g) c = Some (minRow, maxRow, minCol, maxCol) /\
    size g' = size g /\ transform g' = transform g /\
    forall row col, (0 <= row < size g)%Z -> (0 <= col < size g)%Z ->
      exists p, getPoint g row col = Some p /\
        getPoint g' row col
        = Some (set_highlighted
                  ((minRow <=? row)%Z && (row <=? maxRow)%Z
                   && (minCol <=? col)%Z && (col <=? maxCol)%Z
                   && near_boundary c p) p) /\
        (highlighted <$> getPoint g' row col = Some true ->
         highlighted <$> getPoint (rasterize g c) row col = Some true).
Proof.
  intros (Hlen & Hpos) Hv Hopt. unfold rasterizeOptimized in Hopt.
  rewrite Hv in Hopt. cbn [negb] in Hopt. cbv zeta in Hopt.
  destruct (bounding_box (size g) c) as [[[[minRow maxRow] minCol] maxCol]|] eqn:Hbox;
    [| discriminate].
  cbn [mbind option_bind] in Hopt.
  assert (Hlo : (0 <= minRow)%Z /\ (0 <= minCol)%Z /\ (maxCol + 1 <= size g)%Z).
  { unfold bounding_box in Hbox. cbv zeta in Hbox.
    repeat match type of Hbox with
    | context [to_int ?x] => destruct (to_int x); cbn [mbind option_bind] in Hbox;
                             [| discriminate]
    end.
    injection Hbox as <- <- <- <-. lia. }
  destruct Hlo as (Hr0 & Hc0 & Hc1).
  set (F := fun (_ _ : Z) (p : GridPoint T) => set_highlighted (near_boundary c p) p) in *.
  set (Pout := fun row col : Z =>
    (row <? minRow)%Z || (maxRow <? row)%Z || (col <? minCol)%Z || (maxCol <? col)%Z) in *.
  set (g1 := sweep (fun _ _ => true) F minRow (maxRow + 1) minCol (maxCol + 1) g) in *.
  assert (Hg' : g' = sweep Pout (fun _ _ => set_highlighted false) 0 (size g) 0 (size g) g1)
    by (injection Hopt as <-; reflexivity).
  destruct (sweep_updated (fun _ _ => true) F minRow (maxRow + 1) minCol (maxCol + 1) g)
    as (Hs1 & Ht1 & Hl1 & Hp1); [lia | lia | lia |]. fold g1 in Hs1, Ht1, Hl1, Hp1.
  destruct (sweep_updated Pout (fun _ _ => set_highlighted false) 0 (size g) 0 (size g) g1)
    as (Hs2 & Ht2 & Hl2 & Hp2); [lia | lia | lia |]. rewrite <- Hg' in Hs2, Ht2, Hl2, Hp2.
  destruct (rasterize_updated g c Hv) as (_ & _ & _ & Hp3).
  exists minRow, maxRow, minCol, maxCol.
  split; [reflexivity |]. split; [congruence |]. split; [congruence |].
  intros row col Hr Hc. destruct (Hpos row col Hr Hc) as (p & Hp & Hgp).
  exists p. split; [exact Hp |].
  assert (Hget : getPoint g' row col
            = Some (set_highlighted
                      ((minRow <=? row)%Z && (row <=? maxRow)%Z
                       && (minCol <=? col)%Z && (col <=? maxCol)%Z
                       && near_boundary c p) p)).
  { rewrite (Hp2 row col) by lia. rewrite (Hp1 row col) by lia. rewrite Hp.
    cbn [fmap option_fmap option_map]. f_equal. unfold effect, in_range, Pout, F.
    destruct (Z.leb_spec 0 row), (Z.ltb_spec row (size g)),
      (Z.leb_spec 0 col), (Z.ltb_spec col (size g)); try lia.
    cbn [andb].
    destruct (Z.leb_spec minRow row), (Z.leb_spec row maxRow),
      (Z.leb_spec minCol col), (Z.leb_spec col maxCol),
      (Z.ltb_spec row minRow), (Z.ltb_spec maxRow row),
      (Z.ltb_spec col minCol), (Z.ltb_spec maxCol col),
      (Z.ltb_spec row (maxRow + 1)), (Z.ltb_spec col (maxCol + 1));
      try lia; cbn [andb orb Datatypes.id set_highlighted gridPosition canvasPosition];
      reflexivity. }
  split; [exact Hget |].
  rewrite Hget, (Hp3 row col) by lia. rewrite Hp.
  cbn [fmap option_fmap option_map highlighted set_highlighted].
  unfold effect, in_range.
  destruct (Z.leb_spec 0 row), (Z.ltb_spec row (size g)),
    (Z.leb_spec 0 col), (Z.ltb_spec col (size g)); try lia.
  cbn [andb highlighted set_highlighted].
  intros [= Hh]. f_equal. apply andb_prop in Hh as [_ Hn]. exact Hn.
Qed.

End Generic.

(** On binary64: the grid of the program and the circle of radius 4.2
    centred at (5.3, 7.1). *)
Lemma rasterizeOptimized_highlights_within_box_witness :
  exists g' : Grid Binary64.double,
    rasterizeOptimized config_grid circle_in_grid = Some g' /\
    size g' = size config_grid /\ transform g' = transform config_grid.
Proof.
  destruct (rasterizeOptimized config_grid circle_in_grid) as [g'|] eqn:Hopt.
  - destruct (rasterizeOptimized_highlights_within_box config_grid g' circle_in_grid)
      as (minRow & maxRow & minCol & maxCol & _ & Hsz & Ht & _).
    + apply Grid_new_inv.
    + vm_compute. reflexivity.
    + exact Hopt.
    + exists g'. now repeat split.
  - vm_compute in Hopt. discriminate.
Defined.

(** On binary64: the grid of the program, rasterised with two circles. *)
Lemma rasterize_overwrites_witness :
  rasterize (rasterize config_grid circle_1_707105) circle_in_grid
  = rasterize config_grid circle_in_grid.
Proof.
  refine (proj1 (rasterize_overwrites config_grid circle_1_707105 circle_in_grid _ _));
    vm_compute; reflexivity.
Defined.

(** On binary64: the grid of the program and the circle of radius 4.2
    centred at (5.3, 7.1). *)
Lemma getHighlightedPoints_rasterize_witness :
  getHighlightedPoints (rasterize config_grid circle_in_grid) =
  List.filter (fun q => isPointNearBoundary circle_in_grid q RASTERIZATION_THRESHOLD)
              (map gridPosition (points config_grid)).
Proof.
  apply (getHighlightedPoints_rasterize config_grid circle_in_grid);
    vm_compute; reflexivity.
Defined.

Section OnReals.
Import Exact ExactFacts.
Local Open Scope R_scope.

Lemma Rabs_le_bounds (x y : R) : Rabs x <= y -> - y <= x <= y.
Proof. unfold Rabs. destruct (Rcase_abs x); lra. Qed.

(** The highlighted points of a rasterised grid are within the threshold
    of the circle. *)
Lemma rasterize_highlighted_near (g : Grid R) (c : Circle R) (p : GridPoint R) :
  length (points g) = (Z.to_nat (size g) * Z.to_nat (size g))%nat ->
  0 < radius c ->
  In p (points (rasterize g c)) -> highlighted p = true ->
  Rabs (distanceTo (center c) (gridPosition p) - radius c) <= 7071 / 10000.
Proof.
  intros Hlen Hrad Hin Hh.
  assert (Hv : isValid c = true) by (unfold isValid; exact_arith; now apply Rltb_true).
  rewrite (rasterize_points g c Hlen Hv) in Hin.
  apply in_map_iff in Hin as (p0 & <- & _).
  cbn [highlighted gridPosition set_highlighted] in *.
  unfold near_boundary in Hh. rewrite threshold_exact in Hh. exact_arith.
  now apply Rleb_true in Hh.
Qed.

(** X10.  In exact arithmetic, on a grid of [size * size] points and for a
    valid circle with [radius + 0.7071 <= DBL_MAX]: when
    [calculateBoundingCircles], called with the centre of the circle after
    [rasterize], succeeds, the two bounding circles are centred at that
    centre and bracket the circle within the threshold:
    [radius - 0.7071 <= inner radius <= outer radius <= radius + 0.7071]. *)
Theorem bounding_circles_bracket_circle (g : Grid R) (c innerCircle outerCircle : Circle R) :
  length (points g) = (Z.to_nat (size g) * Z.to_nat (size g))%nat ->
  0 < radius c -> radius c + 7071 / 10000 <= DBL_MAX ->
  let result :=
    calculateBoundingCircles (rasterize g c) (center c) innerCircle outerCircle in
  result.1.1 = true ->
  center result.1.2 = center c /\ center result.2 = center c /\
  radius c - 7071 / 10000 <= radius result.1.2 /\
  radius result.1.2 <= radius result.2 /\
  radius result.2 <= radius c + 7071 / 10000.
Proof.
  intros Hlen Hrad Hmax result.
  set (ds := highlighted_distances (rasterize g c) (center c)).
  assert (Hres : result =
    let st := mkBounds (fold_left Rmin ds R_DBL_MAX) (fold_left Rmax ds 0)
                (negb (forallb (fun p => negb (highlighted p)) (points (rasterize g c)))) in
    if negb (hasHighlightedPoints st) then (false, innerCircle, outerCircle)
    else (true, mkCircle (center c) (minDistance st), mkCircle (center c) (maxDistance st))).
  { unfold result, calculateBoundingCircles. rewrite bounds_loop. reflexivity. }
  cbn [hasHighlightedPoints minDistance maxDistance] in Hres.
  assert (Hnear : forall d, In d ds -> Rabs (d - radius c) <= 7071 / 10000).
  { intros d Hd. unfold ds, highlighted_distances, highlighted_points in Hd.
    apply in_map_iff in Hd as (p & <- & Hp). apply filter_In in Hp as [Hin Hh].
    now apply (rasterize_highlighted_near g c p). }
  rewrite Hres.
  destruct (forallb (fun p => negb (highlighted p)) (points (rasterize g c))) eqn:Hf;
    cbn [negb fst snd]; [discriminate |]. intros _.
  assert (Hds : exists d0, In d0 ds).
  { unfold ds, highlighted_distances, highlighted_points.
    destruct (List.filter highlighted (points (rasterize g c))) as [|p0 l0] eqn:Hfl.
    - apply no_highlighted_forallb in Hfl. congruence.
    - eexists. now left. }
  destruct Hds as [d0 Hd0].
  destruct (fold_Rmax_spec ds 0) as (HM1 & HM2 & HM3).
  destruct (fold_Rmin_spec ds R_DBL_MAX) as (Hm1 & Hm2 & Hm3).
  cbv zeta in HM1, HM2, HM3, Hm1, Hm2, Hm3.
  set (m := fold_left Rmin ds R_DBL_MAX) in *. set (M := fold_left Rmax ds 0) in *.
  cbn [center radius]. exact_arith.
  pose proof (Hnear d0 Hd0) as Hn0. apply Rabs_le_bounds in Hn0.
  pose proof (Hm2 d0 Hd0) as Hmd. pose proof (HM2 d0 Hd0) as HMd.
  split; [reflexivity |]. split; [reflexivity |].
  assert (HMle : M <= radius c + 7071 / 10000).
  { destruct HM3 as [HM3 | HM3]; [lra |].
    pose proof (Hnear M HM3) as HnM. apply Rabs_le_bounds in HnM. lra. }
  assert (Hmge : radius c - 7071 / 10000 <= m).
  { destruct Hm3 as [Hm3 | Hm3]; [lra |].
    pose proof (Hnear m Hm3) as Hnm. apply Rabs_le_bounds in Hnm. lra. }
  lra.
Qed.

(** The 2 x 2 grid and the circle of radius 1 about the grid point
    (0, 0), which passes through the grid points (1, 0) and (0, 1). *)
Lemma bounding_circles_bracket_circle_witness :
  let g := @Grid_new R _ 2 800 800 50 in
  let c := mkCircle (mkPoint2D 0 0) 1 in
  let result := calculateBoundingCircles (rasterize g c) (center c) c c in
  radius c - 7071 / 10000 <= radius result.1.2 /\
  radius result.1.2 <= radius result.2 /\
  radius result.2 <= radius c + 7071 / 10000.
Proof.
  intros g c result.
  assert (Hlen : length (points g) = (Z.to_nat (size g) * Z.to_nat (size g))%nat)
    by exact (proj1 (Grid_new_inv 2 800 800 50)).
  assert (Hrad : 0 < radius c) by (cbn; lra).
  assert (Hv : isValid c = true) by (unfold isValid; exact_arith; now apply Rltb_true).
  assert (Hmax : radius c + 7071 / 10000 <= DBL_MAX).
  { cbn [radius c]. exact_arith. apply Rle_trans with 2; [lra |].
    unfold R_DBL_MAX. apply IZR_le. vm_compute. discriminate. }
  assert (Hfound : result.1.1 = true).
  { unfold result, calculateBoundingCircles.
    match goal with
    | |- context [negb (hasHighlightedPoints ?s)] =>
        assert (Hflag : hasHighlightedPoints s = true)
    end.
    { rewrite bounds_loop_flag. cbn [hasHighlightedPoints orb].
      apply existsb_exists.
      rewrite (rasterize_points g c Hlen Hv). unfold g. rewrite Grid_new_points.
      cbv zeta. change (seqZ 0 2) with [0; 1]%Z. cbn [map concat app].
      eexists. split; [right; left; reflexivity |].
      cbn [highlighted set_highlighted]. unfold near_boundary.
      rewrite distanceTo_exact, threshold_exact.
      cbn [center radius c gridPosition pt_x pt_y]. exact_arith.
      apply Rleb_true.
      replace ((0 - 1) * (0 - 1) + (0 - 0) * (0 - 0)) with 1 by ring.
      rewrite sqrt_1. replace (1 - 1) with 0 by ring. rewrite Rabs_R0. lra. }
    rewrite Hflag. reflexivity. }
  exact (proj2 (proj2 (bounding_circles_bracket_circle g c c c Hlen Hrad Hmax Hfound))).
Defined.

End OnReals.

End RasterizerFacts.

(** ** Problem1, main.cpp: a drag of the mouse *)

Module ApplicationFacts.
Import Problem1 Problem1Spec Exact ExactFacts Problem1Facts GridFacts RasterizerFacts.
Local Open Scope R_scope.

(** The transform of the program in exact arithmetic: spacing 700 / 19,
    origin (50, 50). *)
Lemma config_transform_exact :
  @CoordinateTransform_new R _ GRID_SIZE WINDOW_WIDTH WINDOW_HEIGHT GRID_PADDING
  = mkCoordinateTransform (700 / 19) (mkPoint2D 50 50) 20.
Proof.
  unfold CoordinateTransform_new, GRID_SIZE, WINDOW_WIDTH, WINDOW_HEIGHT, GRID_PADDING.
  cbn [add sub mul div of_int dec Exact.arith]. rewrite R_dec_int.
  replace (Z.min (800 - 2 * 50) (800 - 2 * 50)) with 700%Z by reflexivity.
  replace (800 - 2 * 50)%Z with 700%Z by reflexivity.
  replace (20 - 1)%Z with 19%Z by reflexivity.
  replace (50 + (700 - 700 / 19 * 19) / 2) with 50 by field.
  reflexivity.
Qed.

Lemma sqrt_sum_squares_le_sum (u v : R) : sqrt (u * u + v * v) <= Rabs u + Rabs v.
Proof.
  pose proof (Rabs_pos u) as Hu. pose proof (Rabs_pos v) as Hv.
  rewrite <- (sqrt_square (Rabs u + Rabs v)) by lra.
  apply sqrt_le_1_alt.
  replace (u * u) with (Rabs u * Rabs u)
    by (unfold Rabs; destruct (Rcase_abs u); ring).
  replace (v * v) with (Rabs v * Rabs v)
    by (unfold Rabs; destruct (Rcase_abs v); ring).
  nra.
Qed.

(** While the button is down, mouse moves change the current position of
    the drag and nothing else. *)
Lemma mouse_moves_dragging (moves : list (Z * Z)) (app : Application R) :
  isDragging app = true ->
  exists current : Point2D R,
    mouse_moves app moves
    = mkApplication (app_grid app) true (dragStartCanvas app) current
        (hasRasterizedCircle app) (userCircleGrid app)
        (innerBoundGrid app) (outerBoundGrid app).
Proof.
  revert app. induction moves as [|[x y] moves IH]; intros app Hd.
  - exists (dragCurrentCanvas app). destruct app. cbn in *. now subst.
  - unfold mouse_moves. cbn [fold_left]. fold (mouse_moves (onMouseMove app x y) moves).
    destruct (IH (onMouseMove app x y)) as (cur & ->).
    + unfold onMouseMove. now rewrite Hd.
    + exists cur. unfold onMouseMove. rewrite Hd. reflexivity.
Qed.

(** The circle of a drag between two mouse positions has its bounding box
    within the range of [int]. *)
Lemma drag_circle_box (x0 y0 x1 y1 : Z) :
  mouse_coordinate x0 -> mouse_coordinate y0 ->
  mouse_coordinate x1 -> mouse_coordinate y1 ->
  let t := @CoordinateTransform_new R _ GRID_SIZE WINDOW_WIDTH WINDOW_HEIGHT GRID_PADDING in
  let centerGrid := canvasToGrid t (mkPoint2D (IZR x0) (IZR y0)) in
  let radiusGrid := distanceTo centerGrid (canvasToGrid t (mkPoint2D (IZR x1) (IZR y1))) in
  box_in_int_range (mkCircle centerGrid radiusGrid).
Proof.
  intros [Hx0 Hx0'] [Hy0 Hy0'] [Hx1 Hx1'] [Hy1 Hy1'] t centerGrid radiusGrid.
  apply IZR_le in Hx0, Hx0', Hy0, Hy0', Hx1, Hx1', Hy1, Hy1'.
  assert (Hcx : pt_x centerGrid = (IZR x0 - 50) / (700 / 19))
    by (unfold centerGrid, t; rewrite config_transform_exact; reflexivity).
  assert (Hcy : pt_y centerGrid = (IZR y0 - 50) / (700 / 19))
    by (unfold centerGrid, t; rewrite config_transform_exact; reflexivity).
  assert (Hr : radiusGrid =
    sqrt (((IZR x0 - IZR x1) * (19 / 700)) * ((IZR x0 - IZR x1) * (19 / 700))
          + ((IZR y0 - IZR y1) * (19 / 700)) * ((IZR y0 - IZR y1) * (19 / 700)))).
  { unfold radiusGrid, centerGrid, t. rewrite config_transform_exact, distanceTo_exact.
    unfold canvasToGrid. cbn [pt_x pt_y gridOrigin gridSpacing sub div Exact.arith].
    f_equal. field. }
  assert (Hr0 : 0 <= radiusGrid) by (rewrite Hr; apply sqrt_pos).
  assert (Hr1 : radiusGrid <= 4000).
  { rewrite Hr. eapply Rle_trans; [apply sqrt_sum_squares_le_sum |].
    assert (Hdx : Rabs ((IZR x0 - IZR x1) * (19 / 700)) <= 2000)
      by (apply Rabs_le; lra).
    assert (Hdy : Rabs ((IZR y0 - IZR y1) * (19 / 700)) <= 2000)
      by (apply Rabs_le; lra).
    lra. }
  assert (Hcx' : -2 <= pt_x centerGrid <= 2000) by (rewrite Hcx; lra).
  assert (Hcy' : -2 <= pt_y centerGrid <= 2000) by (rewrite Hcy; lra).
  unfold box_in_int_range, box_lo_row, box_hi_row, box_lo_col, box_hi_col.
  rewrite threshold_exact. cbn [center radius].
  repeat split; (apply int_range_Zfloor || apply int_range_Zceil); lra.
Qed.

(** X11.  In exact arithmetic, for an application whose grid is the grid
    of the program and for mouse positions of 16 bits: a drag (button down
    at [(x0, y0)], any mouse moves, button up at [(x1, y1)]) is defined (no
    conversion to [int] overflows) and ends the drag.  The circle of the drag
    has its centre at the start of the drag and passes through its end, in
    grid space.  With a radius of at most 0.1 the grid is left with every
    flag cleared, and no circle is recorded.  With a greater radius the grid
    is the one [rasterize] gives for the circle, whatever was highlighted
    before, and the recorded flag and bounding circles are the results of
    [calculateBoundingCircles] on that grid.  The grid remains the grid of
    the program. *)
Theorem drag_rasterizes_the_circle (app : Application R) (x0 y0 x1 y1 : Z)
    (moves : list (Z * Z)) :
  Application_inv app ->
  mouse_coordinate x0 -> mouse_coordinate y0 ->
  mouse_coordinate x1 -> mouse_coordinate y1 ->
  let t := transform (app_grid app) in
  let centerGrid := canvasToGrid t (mkPoint2D (IZR x0) (IZR y0)) in
  let radiusGrid := distanceTo centerGrid (canvasToGrid t (mkPoint2D (IZR x1) (IZR y1))) in
  let c := mkCircle centerGrid radiusGrid in
  exists app' : Application R,
    onMouseUp (mouse_moves (onMouseDown app x0 y0) moves) x1 y1 = Some app' /\
    Application_inv app' /\ isDragging app' = false /\
    (radiusGrid <= 1 / 10 ->
       app_grid app' = resetHighlights (app_grid app) /\
       hasRasterizedCircle app' = false) /\
    (1 / 10 < radiusGrid ->
       userCircleGrid app' = c /\
       app_grid app' = rasterize (app_grid app) c /\
       (hasRasterizedCircle app', innerBoundGrid app', outerBoundGrid app')
       = calculateBoundingCircles (rasterize (app_grid app) c) centerGrid
           (innerBoundGrid app) (outerBoundGrid app)).
Proof.
  intros (Hinv & Hsize & Ht) Hx0 Hy0 Hx1 Hy1 t centerGrid radiusGrid c.
  destruct (mouse_moves_dragging moves (onMouseDown app x0 y0) eq_refl) as (cur & Hmoves).
  rewrite Hmoves. cbn [onMouseDown app_grid dragStartCanvas hasRasterizedCircle
                       userCircleGrid innerBoundGrid outerBoundGrid].
  set (g0 := resetHighlights (app_grid app)).
  assert (Hinv0 : Grid_inv g0) by now apply resetHighlights_inv.
  unfold onMouseUp.
  cbn [isDragging negb app_grid dragStartCanvas hasRasterizedCircle userCircleGrid
       innerBoundGrid outerBoundGrid of_int Exact.arith].
  change (transform g0) with t. cbv zeta. fold centerGrid. fold radiusGrid. fold c.
  exact_arith. replace (R_dec 1 (-1)) with (1 / 10) by reflexivity.
  unfold Rltb. destruct (Rlt_dec (1 / 10) radiusGrid) as [Hbig|Hsmall].
  - assert (Hrad : 0 < radius c) by (cbn [radius c]; lra).
    assert (Hv : isValid c = true) by (unfold isValid; exact_arith; now apply Rltb_true).
    assert (Hbox : box_in_int_range c).
    { unfold c, radiusGrid, centerGrid, t. rewrite Ht.
      exact (drag_circle_box x0 y0 x1 y1 Hx0 Hy0 Hx1 Hy1). }
    rewrite (rasterizeOptimized_exact g0 c Hinv0 Hrad Hbox). cbn [mbind option_bind].
    assert (Hsame : rasterize g0 c = rasterize (app_grid app) c).
    { apply (rasterize_flags_irrelevant (app_grid app) g0 c (fun _ => false));
        [exact (proj1 Hinv) | exact Hv | reflexivity | reflexivity | reflexivity]. }
    rewrite Hsame.
    destruct (calculateBoundingCircles (rasterize (app_grid app) c) centerGrid
                (innerBoundGrid app) (outerBoundGrid app)) as [[found inner] outer] eqn:Hcalc.
    eexists. split; [reflexivity |].
    cbn [app_grid isDragging hasRasterizedCircle userCircleGrid innerBoundGrid
         outerBoundGrid].
    destruct (rasterize_shape (app_grid app) c) as (Hsz & Htr & _).
    split; [| split; [reflexivity | split; [intros; lra |]]].
    + unfold Application_inv. cbn [app_grid].
      split; [now apply rasterize_inv |]. split; [now rewrite Hsz | now rewrite Htr].
    + intros _. split; [reflexivity |]. split; [reflexivity |].
      destruct found; reflexivity.
  - eexists. split; [reflexivity |].
    cbn [app_grid isDragging hasRasterizedCircle].
    split; [| split; [reflexivity | split; [| intros; lra]]].
    + unfold Application_inv. cbn [app_grid].
      split; [exact Hinv0 |]. split; [exact Hsize | exact Ht].
    + intros _. split; reflexivity.
Qed.

(** The application at its start, a drag of 37 pixels to the right from
    the pixel (50, 50), where the grid point (0, 0) lies, with one mouse move
    on the way. *)
Lemma drag_rasterizes_the_circle_witness :
  exists app' : Application R,
    onMouseUp (mouse_moves (onMouseDown Application_new 50 50) [(60, 50)%Z]) 87 50
    = Some app' /\ isDragging app' = false.
Proof.
  assert (Hinv : Application_inv (@Application_new R _)).
  { split; [apply Grid_new_inv |]. split; reflexivity. }
  destruct (drag_rasterizes_the_circle Application_new 50 50 87 50 [(60, 50)%Z] Hinv)
    as (app' & Hup & _ & Hdrag & _); try (unfold mouse_coordinate; lia).
  exists app'. split; [exact Hup | exact Hdrag].
Defined.

End ApplicationFacts.

(** ** Problem2, Grid.h: the selection grid *)

Module SelectionGridFacts.
Import Problem2 Problem2Spec.

Lemma in_grid_spec (i j : Z) :
  in_grid i j = true <-> 0 <= i < GRID_SIZE /\ 0 <= j < GRID_SIZE.
Proof. unfold in_grid. rewrite !andb_true_iff, !Z.leb_le, !Z.ltb_lt. lia. Qed.

(** The bounds test of [TogglePoint], [IsSelected] and [PixelToGrid]. *)
Lemma bounds_test (i j : Z) :
  (i >=? 0) && (i <? GRID_SIZE) && (j >=? 0) && (j <? GRID_SIZE) = in_grid i j.
Proof. unfold in_grid. now rewrite !Z.geb_leb. Qed.

Lemma lookup_map_seqZ {X : Type} (f : Z -> X) (n i : Z) :
  0 <= i < n -> map f (seqZ 0 n) !! Z.to_nat i = Some (f i).
Proof.
  intros Hi. rewrite list_lookup_fmap, lookup_seqZ_lt by lia. cbn.
  now rewrite Z2Nat.id by lia.
Qed.

Lemma alter_map_seqZ {X : Type} (f : X -> X) (g : Z -> X) (n i : Z) :
  0 <= i < n ->
  alter f (Z.to_nat i) (map g (seqZ 0 n))
  = map (fun k => if k =? i then f (g k) else g k) (seqZ 0 n).
Proof.
  intros Hi. apply list_eq. intros k.
  destruct (decide (k = Z.to_nat i)) as [->|Hne].
  - rewrite list_lookup_alter_eq.
    rewrite (lookup_map_seqZ g n i Hi), (lookup_map_seqZ _ n i Hi). cbn.
    now rewrite Z.eqb_refl.
  - rewrite list_lookup_alter_ne by congruence. rewrite !list_lookup_fmap.
    destruct (seqZ 0 n !! k) as [z|] eqn:Hz; [| reflexivity]. cbn.
    apply lookup_seqZ in Hz as [-> Hk].
    destruct (Z.eqb_spec (0 + Z.of_nat k) i); [lia | reflexivity].
Qed.

Lemma GetPoint_grid_of (sel : Z -> Z -> bool) (i j : Z) :
  in_grid i j = true ->
  GetPoint (grid_of sel) i j = Some (mkGridPoint i j (sel i j)).
Proof.
  intros Hin. apply in_grid_spec in Hin as [Hi Hj]. unfold GetPoint, grid_of.
  cbn [points]. destruct (Z.leb_spec 0 i), (Z.leb_spec 0 j); try lia. cbn [andb].
  rewrite lookup_map_seqZ by lia. cbn. now rewrite lookup_map_seqZ by lia.
Qed.

Lemma IsSelected_grid_of (sel : Z -> Z -> bool) (i j : Z) :
  IsSelected (grid_of sel) i j = Some (in_grid i j && sel i j).
Proof.
  unfold IsSelected. rewrite bounds_test. destruct (in_grid i j) eqn:Hin; [| reflexivity].
  now rewrite GetPoint_grid_of.
Qed.

(** Two selections that agree on the grid give the same grid. *)
Lemma grid_of_ext (sel sel' : Z -> Z -> bool) :
  (forall i j, in_grid i j = true -> sel i j = sel' i j) -> grid_of sel = grid_of sel'.
Proof.
  intros Hext. unfold grid_of. f_equal.
  apply map_ext_in. intros i Hi. apply map_ext_in. intros j Hj.
  apply list_elem_of_In, elem_of_seqZ in Hi, Hj.
  f_equal. apply Hext. apply in_grid_spec. lia.
Qed.

Lemma TogglePoint_grid_of (sel : Z -> Z -> bool) (i j : Z) :
  TogglePoint (grid_of sel) i j =
  grid_of (fun i' j' => if in_grid i j && (i' =? i) && (j' =? j)
                        then negb (sel i' j') else sel i' j').
Proof.
  unfold TogglePoint. rewrite bounds_test. destruct (in_grid i j) eqn:Hin; [| reflexivity].
  apply in_grid_spec in Hin as [Hi Hj]. unfold grid_of. cbn [points]. f_equal.
  rewrite alter_map_seqZ by lia. apply map_ext. intros i'.
  destruct (Z.eqb_spec i' i) as [->|Hne]; cbn [andb]; [| reflexivity].
  rewrite alter_map_seqZ by lia. apply map_ext. intros j'.
  destruct (Z.eqb_spec j' j) as [->|Hne]; reflexivity.
Qed.

Lemma Clear_grid_of (sel : Z -> Z -> bool) : Clear (grid_of sel) = grid_of (fun _ _ => false).
Proof. vm_compute. reflexivity. Qed.

Lemma Grid_new_grid_of : Grid_new = grid_of (fun _ _ => false).
Proof. vm_compute. reflexivity. Qed.

(** X12.  The invariant of the selection grid: every grid made by the
    constructor, [TogglePoint] and [Clear] has [GRID_SIZE] rows of
    [GRID_SIZE] points, and the point of row [i] and column [j] carries the
    indices [i] and [j]; on it [GetPoint] and [IsSelected] are defined for all
    indices [0 <= i, j < GRID_SIZE]. *)
Theorem reachable_Grid_wf (g : Grid) :
  reachable g ->
  Grid_wf g /\
  length (points g) = Z.to_nat GRID_SIZE /\
  Forall (fun row => length row = Z.to_nat GRID_SIZE) (points g) /\
  forall i j, in_grid i j = true ->
    exists p, GetPoint g i j = Some p /\ gp_i p = i /\ gp_j p = j /\
              IsSelected g i j = Some (selected p).
Proof.
  intros Hreach.
  assert (Hwf : Grid_wf g).
  { induction Hreach as [| g i j _ [sel ->] | g _ [sel ->]].
    - eexists. apply Grid_new_grid_of.
    - eexists. apply TogglePoint_grid_of.
    - eexists. apply Clear_grid_of. }
  split; [exact Hwf |]. destruct Hwf as [sel ->]. split; [| split].
  - unfold grid_of. cbn [points]. now rewrite length_map, length_seqZ.
  - unfold grid_of. cbn [points]. apply Forall_map, Forall_forall. intros i _.
    now rewrite length_map, length_seqZ.
  - intros i j Hin. eexists. split; [now apply GetPoint_grid_of |].
    cbn [gp_i gp_j selected]. rewrite IsSelected_grid_of, Hin. now repeat split.
Qed.

(** The grid with the point of row 3 and column 4 toggled. *)
Lemma reachable_Grid_wf_witness : Grid_wf (TogglePoint Grid_new 3 4).
Proof.
  apply (reachable_Grid_wf (TogglePoint Grid_new 3 4)).
  apply reachable_toggle, reachable_new.
Defined.

(** X13.  On a grid of the class, [TogglePoint (i, j)] with indices in
    range flips the selection of the point [(i, j)] and of no other point;
    with indices out of range it changes nothing; and toggling the same
    point twice gives the grid back. *)
Theorem TogglePoint_flips_one (g : Grid) (i j : Z) :
  Grid_wf g ->
  (forall i' j', IsSelected (TogglePoint g i j) i' j' =
     if in_grid i j && (i' =? i) && (j' =? j)
     then negb <$> IsSelected g i' j' else IsSelected g i' j') /\
  (in_grid i j = false -> TogglePoint g i j = g) /\
  TogglePoint (TogglePoint g i j) i j = g.
Proof.
  intros [sel ->]. split; [| split].
  - intros i' j'. rewrite TogglePoint_grid_of, !IsSelected_grid_of.
    destruct (in_grid i j) eqn:Hin; cbn [andb]; [| reflexivity].
    destruct (Z.eqb_spec i' i) as [->|]; cbn [andb]; [| reflexivity].
    destruct (Z.eqb_spec j' j) as [->|]; [| reflexivity].
    cbn. now rewrite Hin.
  - intros Hout. unfold TogglePoint. now rewrite bounds_test, Hout.
  - rewrite !TogglePoint_grid_of. apply grid_of_ext. intros i' j' _.
    destruct (in_grid i j && (i' =? i) && (j' =? j)); [apply negb_involutive | reflexivity].
Qed.

(** The grid with the point (3, 4) selected: toggling (3, 4) again. *)
Lemma TogglePoint_flips_one_witness :
  TogglePoint (TogglePoint (TogglePoint Grid_new 3 4) 3 4) 3 4 = TogglePoint Grid_new 3 4.
Proof.
  refine (proj2 (proj2 (TogglePoint_flips_one (TogglePoint Grid_new 3 4) 3 4 _))).
  exists (fun i j => (i =? 3) && (j =? 4)). vm_compute. reflexivity.
Defined.

Lemma filter_none {X : Type} (f : X -> bool) (l : list X) :
  (forall x, In x l -> f x = false) -> List.filter f l = [].
Proof.
  induction l as [|x l IH]; intros Hf; [reflexivity |]. cbn.
  rewrite (Hf x) by now left. apply IH. intros y Hy. apply Hf. now right.
Qed.

Lemma in_cells (c : Z * Z) : In c cells <-> in_grid c.1 c.2 = true.
Proof.
  unfold cells. rewrite in_concat. setoid_rewrite in_map_iff. rewrite in_grid_spec.
  destruct c as [i j]. cbn [fst snd]. split.
  - intros (row & (i' & <- & Hi') & Hc). apply in_map_iff in Hc as (j' & [= <- <-] & Hj').
    apply list_elem_of_In, elem_of_seqZ in Hi', Hj'. lia.
  - intros [Hi Hj]. exists (map (fun j => (i, j)) (seqZ 0 GRID_SIZE)). split.
    + exists i. split; [reflexivity |]. apply list_elem_of_In, elem_of_seqZ. lia.
    + apply in_map_iff. exists j. split; [reflexivity |].
      apply list_elem_of_In, elem_of_seqZ. lia.
Qed.

(** The selected cells of [grid_of sel] are the cells that [sel] selects. *)
Lemma selected_cells_grid_of (sel : Z -> Z -> bool) :
  selected_cells (grid_of sel) = List.filter (fun c => sel c.1 c.2) cells.
Proof.
  unfold selected_cells. apply filter_ext_in. intros c Hc. apply in_cells in Hc.
  rewrite IsSelected_grid_of, Hc. cbn [andb]. now destruct (sel c.1 c.2).
Qed.

Section Points.
Context {T : Type} {A : Arith T}.

(** The inner loop of [GetSelectedPoints] on the row [i], over any
    columns. *)
Lemma GetSelectedPoints_columns (sel : Z -> Z -> bool) (i : Z) (js : list Z)
    (l : list (Point T)) :
  0 <= i < GRID_SIZE -> Forall (fun j => 0 <= j < GRID_SIZE) js ->
  fold_left (fun selectedPoints j =>
      selectedPoints ← selectedPoints;
      p ← GetPoint (grid_of sel) i j;
      Some (if selected p then selectedPoints ++ [GetPixelCoords p] else selectedPoints))
    js (Some l)
  = Some (l ++ map cell_centre
                   (List.filter (fun c => sel c.1 c.2) (map (fun j => (i, j)) js))).
Proof.
  intros Hi Hjs. revert l. induction Hjs as [|j js Hj _ IH]; intros l.
  - cbn. now rewrite app_nil_r.
  - cbn [fold_left map List.filter mbind option_bind].
    rewrite GetPoint_grid_of by (apply in_grid_spec; lia).
    cbn [mbind option_bind selected fst snd]. rewrite IH.
    destruct (sel i j); [| reflexivity].
    cbn [map]. now rewrite <- app_assoc.
Qed.

(** The inner loop of [GetSelectedPoints] on the row [i]. *)
Lemma GetSelectedPoints_row (sel : Z -> Z -> bool) (i : Z) (l : list (Point T)) :
  0 <= i < GRID_SIZE ->
  for_loop 0 GRID_SIZE (fun j selectedPoints =>
      selectedPoints ← selectedPoints;
      p ← GetPoint (grid_of sel) i j;
      Some (if selected p then selectedPoints ++ [GetPixelCoords p] else selectedPoints))
    (Some l)
  = Some (l ++ map cell_centre
                   (List.filter (fun c => sel c.1 c.2)
                                (map (fun j => (i, j)) (seqZ 0 GRID_SIZE)))).
Proof.
  intros Hi. unfold for_loop. cbv beta.
  apply (GetSelectedPoints_columns sel i (seqZ 0 (GRID_SIZE - 0)) l Hi).
  apply Forall_seqZ. intros; lia.
Qed.

(** The outer loop of [GetSelectedPoints]. *)
Lemma GetSelectedPoints_rows (sel : Z -> Z -> bool) (rows : list Z) (l : list (Point T)) :
  Forall (fun i => 0 <= i < GRID_SIZE) rows ->
  fold_left (fun selectedPoints i =>
      for_loop 0 GRID_SIZE (fun j selectedPoints =>
        selectedPoints ← selectedPoints;
        p ← GetPoint (grid_of sel) i j;
        Some (if selected p then selectedPoints ++ [GetPixelCoords p] else selectedPoints))
        selectedPoints)
    rows (Some l)
  = Some (l ++ map cell_centre
                   (List.filter (fun c => sel c.1 c.2)
                      (concat (map (fun i => map (fun j => (i, j)) (seqZ 0 GRID_SIZE)) rows)))).
Proof.
  intros Hrows. revert l. induction Hrows as [|i rows Hi _ IH]; intros l.
  - cbn. now rewrite app_nil_r.
  - cbn [fold_left map concat].
    rewrite (GetSelectedPoints_row sel i l Hi).
    rewrite IH, List.filter_app, map_app. now rewrite app_assoc.
Qed.

Lemma GetSelectedPoints_grid_of (sel : Z -> Z -> bool) :
  GetSelectedPoints (grid_of sel)
  = Some (map (@cell_centre T _) (List.filter (fun c => sel c.1 c.2) cells)).
Proof.
  unfold GetSelectedPoints, for_loop at 1. cbv beta.
  rewrite (GetSelectedPoints_rows sel _ []); [reflexivity |].
  apply Forall_seqZ. intros; lia.
Qed.

(** X14.  On a grid of the class, [Clear] gives the grid of the
    constructor again: no point is selected, and [GetSelectedPoints] returns
    the empty vector. *)
Theorem Clear_restores_the_new_grid (g : Grid) :
  Grid_wf g ->
  Clear g = Grid_new /\
  (forall i j, IsSelected (Clear g) i j = Some false) /\
  @GetSelectedPoints T _ (Clear g) = Some [].
Proof.
  intros [sel ->]. rewrite Clear_grid_of. split; [now rewrite Grid_new_grid_of |]. split.
  - intros i j. rewrite IsSelected_grid_of. now rewrite andb_false_r.
  - rewrite GetSelectedPoints_grid_of. now rewrite filter_none.
Qed.

(** X15.  On a grid of the class, [GetSelectedPoints] is defined and
    returns the pixel centres of the selected cells, row by row and within a
    row by column; the selected cells are the cells [(i, j)] with
    [0 <= i, j < GRID_SIZE] for which [IsSelected] answers [true]. *)
Theorem GetSelectedPoints_lists_selected_cells (g : Grid) :
  Grid_wf g ->
  GetSelectedPoints g = Some (map (@cell_centre T _) (selected_cells g)) /\
  forall c : Z * Z,
    In c (selected_cells g) <->
    in_grid c.1 c.2 = true /\ IsSelected g c.1 c.2 = Some true.
Proof.
  intros [sel ->]. split.
  - now rewrite GetSelectedPoints_grid_of, selected_cells_grid_of.
  - intros c. unfold selected_cells. rewrite filter_In, in_cells.
    destruct (IsSelected (grid_of sel) c.1 c.2) as [[|]|]; intuition congruence.
Qed.

End Points.

(** On binary64: after [Clear], the grid with the point (3, 4) selected. *)
Lemma Clear_restores_the_new_grid_witness :
  Clear (TogglePoint Grid_new 3 4) = Grid_new.
Proof.
  refine (proj1 (Clear_restores_the_new_grid (T := Binary64.double)
                   (TogglePoint Grid_new 3 4) _)).
  exists (fun i j => (i =? 3) && (j =? 4)). vm_compute. reflexivity.
Defined.

(** On binary64: the grid with the point (3, 4) selected; its pixel centre
    is (180, 140). *)
Lemma GetSelectedPoints_lists_selected_cells_witness :
  GetSelectedPoints (TogglePoint Grid_new 3 4)
  = Some [mkPoint (of_int 180) (of_int 140) : Point Binary64.double].
Proof.
  assert (Hwf : Grid_wf (TogglePoint Grid_new 3 4)).
  { exists (fun i j => (i =? 3) && (j =? 4)). vm_compute. reflexivity. }
  rewrite (proj1 (GetSelectedPoints_lists_selected_cells (TogglePoint Grid_new 3 4) Hwf)).
  vm_compute. reflexivity.
Defined.

(** The division of [int] by [CELL_SIZE] lands in the grid for the pixels
    from -39 to 799. *)
Lemma quot_CELL_SIZE_range (x : Z) :
  0 <= Z.quot x CELL_SIZE < GRID_SIZE <-> -40 < x < 800.
Proof.
  change CELL_SIZE with 40. change GRID_SIZE with 20.
  pose proof (Z.quot_rem' x 40) as Hq.
  destruct (Z.le_ge_cases 0 x) as [Hx|Hx].
  - pose proof (Z.rem_bound_pos x 40 Hx ltac:(lia)). lia.
  - pose proof (Z.rem_bound_abs x 40 ltac:(lia)).
    pose proof (Z.rem_nonpos x 40 ltac:(lia) ltac:(lia)). lia.
Qed.

(** X16.  [PixelToGrid] divides both pixel coordinates by [CELL_SIZE = 40]
    with the division of [int], which rounds towards zero.  It answers [true]
    exactly for the pixels with [-40 < x, y < 800]: the pixels up to 39 to the
    left of or above the window are taken for column or row 0.  For a pixel
    of the window ([0 <= x, y]) the answer is [true] exactly when
    [x, y < 800], and [(i, j)] is the cell that holds the pixel; every pixel
    of the cell [(i, j)] is mapped back to [(i, j)]. *)
Theorem PixelToGrid_spec (x y : Z) :
  let '(inside, i, j) := PixelToGrid x y in
  (inside = true <-> -40 < x < 800 /\ -40 < y < 800) /\
  (0 <= x -> 0 <= y ->
     (inside = true <-> x < 800 /\ y < 800) /\
     j * CELL_SIZE <= x < (j + 1) * CELL_SIZE /\
     i * CELL_SIZE <= y < (i + 1) * CELL_SIZE) /\
  (forall i0 j0 dx dy : Z,
     in_grid i0 j0 = true -> 0 <= dx < CELL_SIZE -> 0 <= dy < CELL_SIZE ->
     PixelToGrid (j0 * CELL_SIZE + dx) (i0 * CELL_SIZE + dy) = (true, i0, j0)).
Proof.
  unfold PixelToGrid. cbv zeta. rewrite bounds_test.
  assert (Hin : in_grid (Z.quot y CELL_SIZE) (Z.quot x CELL_SIZE) = true
                <-> -40 < x < 800 /\ -40 < y < 800).
  { rewrite in_grid_spec, !quot_CELL_SIZE_range. tauto. }
  split; [exact Hin |]. split.
  - intros Hx Hy. split; [rewrite Hin; lia |].
    change CELL_SIZE with 40.
    rewrite !Z.quot_div_nonneg by lia.
    pose proof (Z.div_mod x 40 ltac:(lia)). pose proof (Z.mod_pos_bound x 40 ltac:(lia)).
    pose proof (Z.div_mod y 40 ltac:(lia)). pose proof (Z.mod_pos_bound y 40 ltac:(lia)).
    lia.
  - intros i0 j0 dx dy Hin0 Hdx Hdy. apply in_grid_spec in Hin0 as [Hi0 Hj0].
    rewrite bounds_test. change CELL_SIZE with 40 in *. change GRID_SIZE with 20 in *.
    assert (Hj : Z.quot (j0 * 40 + dx) 40 = j0).
    { rewrite Z.quot_div_nonneg by lia. symmetry. apply (Z.div_unique _ _ _ dx); lia. }
    assert (Hi : Z.quot (i0 * 40 + dy) 40 = i0).
    { rewrite Z.quot_div_nonneg by lia. symmetry. apply (Z.div_unique _ _ _ dy); lia. }
    rewrite Hi, Hj. f_equal. f_equal. apply in_grid_spec.
    change GRID_SIZE with 20. lia.
Qed.

End SelectionGridFacts.

(** ** Problem2, Geometry.h: what [FitCircle] returns *)

Module FitCircleFacts.
Import Problem2 Problem2Spec.

Section Generic.
Context {T : Type} {A : Arith T} {O : ArithOrder T}.
Local Open Scope num_scope.

(** Zero is not greater than zero. *)
Lemma zero_not_positive : (@dec T A 0 0 >? #0) = false.
Proof.
  apply leb_gtb. destruct (#0 <=? #0) eqn:Hle; [reflexivity |].
  pose proof (not_leb_gtb #0 #0 isnan_zero isnan_zero Hle) as Hgt.
  apply ltb_leb in Hgt. congruence.
Qed.

(** A result of [FitCircle] other than [Circle()] has passed the last
    test. *)
Lemma FitCircle_cases (points : list (Point T)) :
  let c := FitCircle points in
  c = Circle_default \/
  (radius c >? #0) = true /\ (radius c >? #10000) = false /\
  std_isnan (radius c) = false /\ std_isinf (radius c) = false /\
  std_isnan (pt_x (center c)) = false /\ std_isinf (pt_x (center c)) = false /\
  std_isnan (pt_y (center c)) = false /\ std_isinf (pt_y (center c)) = false.
Proof.
  intros c. unfold c, FitCircle.
  destruct (length points <? 3)%nat; [now left |]. cbv zeta.
  destruct (std_abs (l_DET (FitCircle_locals points)) <? dec 1 (-10)); [now left |].
  match goal with
  | |- context [if ?b then Circle_default else _] => destruct b eqn:Hc
  end; [now left |]. right.
  apply orb_false_elim in Hc as [Hc Hbig].
  apply orb_false_elim in Hc as [Hc Hpos].
  apply orb_false_elim in Hc as [Hc Hir].
  apply orb_false_elim in Hc as [Hc Hiy].
  apply orb_false_elim in Hc as [Hc Hix].
  apply orb_false_elim in Hc as [Hc Hnr].
  apply orb_false_elim in Hc as [Hnx Hny].
  cbn [radius center pt_x pt_y].
  split; [apply not_leb_gtb; [exact Hnr | apply isnan_zero | exact Hpos] |].
  now repeat split.
Qed.

(** X17.  In every arithmetic whose order satisfies [ArithOrder]:
    [FitCircle] returns [Circle()] for fewer than 3 points, and every result
    other than [Circle()] passes all the checks of the last test: its centre
    and radius are neither NaN nor infinite, and its radius is greater than
    0 and not greater than 10000.  So the caller's test [radius > 0] holds
    exactly for the results other than [Circle()]. *)
Theorem FitCircle_valid_or_default (points : list (Point T)) :
  let c := FitCircle points in
  ((length points < 3)%nat -> c = Circle_default) /\
  (c = Circle_default \/
   (radius c >? #0) = true /\ (radius c >? #10000) = false /\
   std_isnan (radius c) = false /\ std_isinf (radius c) = false /\
   std_isnan (pt_x (center c)) = false /\ std_isinf (pt_x (center c)) = false /\
   std_isnan (pt_y (center c)) = false /\ std_isinf (pt_y (center c)) = false) /\
  ((radius c >? #0) = true <-> c <> Circle_default).
Proof.
  intros c. pose proof (FitCircle_cases points) as Hcases. cbv zeta in Hcases. fold c in Hcases.
  split; [| split; [exact Hcases | split]].
  - intros Hlen. unfold c, FitCircle. apply Nat.ltb_lt in Hlen. now rewrite Hlen.
  - intros Hgt Heq. rewrite Heq in Hgt. cbn [radius Circle_default] in Hgt.
    rewrite zero_not_positive in Hgt. discriminate.
  - intros Hne. destruct Hcases as [Heq | (Hgt & _)]; [contradiction | exact Hgt].
Qed.

End Generic.

(** On binary64, whose order satisfies the laws: two points. *)
Lemma FitCircle_valid_or_default_witness :
  let points : list (Point Binary64.double) :=
    [mkPoint (of_int 20) (of_int 20); mkPoint (of_int 60) (of_int 140)] in
  FitCircle points = Circle_default.
Proof.
  intros points.
  apply (proj1 (FitCircle_valid_or_default (O := Binary64Facts.order) points)).
  cbn. lia.
Defined.

Section OnReals.
Import Exact ExactFacts Problem2Facts.
Local Open Scope R_scope.

(** A relation with three terms that holds at every element holds between
    the sums. *)
Lemma Rsum_three_terms {X : Type} (F f g h : X -> R) (al be ga : R) (l : list X) :
  (forall p, In p l -> F p = al * f p + be * g p + ga * h p) ->
  Rsum F l = al * Rsum f l + be * Rsum g l + ga * Rsum h l.
Proof.
  induction l as [|p l IH]; intros H; cbn [Rsum]; [ring |].
  rewrite (H p) by now left. rewrite IH; [ring |].
  intros q Hq. apply H. now right.
Qed.

(** The deviations from the mean sum to zero. *)
Lemma Rsum_centred_zero {X : Type} (f : X -> R) (l : list X) :
  IZR (Z.of_nat (length l)) <> 0 ->
  Rsum (fun p => f p - Rsum f l / IZR (Z.of_nat (length l))) l = 0.
Proof.
  intros Hn.
  rewrite (Rsum_three_terms _ f (fun _ => 1) (fun _ => 0) 1
             (- (Rsum f l / IZR (Z.of_nat (length l)))) 0)
    by (intros; ring).
  rewrite Rsum_const, Rsum_zero. field. exact Hn.
Qed.

(** The moments of points on a circle, in coordinates [u], [v] with the
    mean at the origin: the circle has the equation
    [u^2 + v^2 = 2 a' u + 2 b' v + c0]. *)
Lemma circle_moments {X : Type} (u v : X -> R) (l : list X) (a' b' c0 : R) :
  let n := IZR (Z.of_nat (length l)) in
  n <> 0 -> Rsum u l = 0 -> Rsum v l = 0 ->
  (forall p, In p l -> u p * u p + v p * v p = 2 * a' * u p + 2 * b' * v p + c0) ->
  let z := fun p => u p * u p + v p * v p in
  let Mxx := Rsum (fun p => u p * u p) l / n in
  let Myy := Rsum (fun p => v p * v p) l / n in
  let Mxy := Rsum (fun p => u p * v p) l / n in
  let Mxz := Rsum (fun p => u p * z p) l / n in
  let Myz := Rsum (fun p => v p * z p) l / n in
  let Mzz := Rsum (fun p => z p * z p) l / n in
  Mxx + Myy = c0 /\
  Mxz = 2 * a' * Mxx + 2 * b' * Mxy /\
  Myz = 2 * a' * Mxy + 2 * b' * Myy /\
  Mzz = 2 * a' * Mxz + 2 * b' * Myz + c0 * c0.
Proof.
  intros n Hn Hu Hv Hcirc z Mxx Myy Mxy Mxz Myz Mzz.
  assert (Hz : Rsum z l = n * c0).
  { rewrite (Rsum_three_terms z u v (fun _ => 1) (2 * a') (2 * b') c0)
      by (intros p Hp; unfold z; rewrite (Hcirc p Hp); ring).
    rewrite Hu, Hv, Rsum_const. fold n. ring. }
  assert (Hsum : Rsum (fun p => u p * u p) l + Rsum (fun p => v p * v p) l = n * c0).
  { rewrite <- Hz.
    rewrite (Rsum_three_terms z (fun p => u p * u p) (fun p => v p * v p) (fun _ => 0) 1 1 0)
      by (intros; unfold z; ring).
    rewrite Rsum_zero. ring. }
  assert (Hxz : Rsum (fun p => u p * z p) l
                = 2 * a' * Rsum (fun p => u p * u p) l
                  + 2 * b' * Rsum (fun p => u p * v p) l).
  { rewrite (Rsum_three_terms _ (fun p => u p * u p) (fun p => u p * v p) u
               (2 * a') (2 * b') c0)
      by (intros p Hp; unfold z; rewrite (Hcirc p Hp); ring).
    rewrite Hu. ring. }
  assert (Hyz : Rsum (fun p => v p * z p) l
                = 2 * a' * Rsum (fun p => u p * v p) l
                  + 2 * b' * Rsum (fun p => v p * v p) l).
  { rewrite (Rsum_three_terms _ (fun p => u p * v p) (fun p => v p * v p) v
               (2 * a') (2 * b') c0)
      by (intros p Hp; unfold z; rewrite (Hcirc p Hp); ring).
    rewrite Hv. ring. }
  assert (Hzz : Rsum (fun p => z p * z p) l
                = 2 * a' * Rsum (fun p => u p * z p) l
                  + 2 * b' * Rsum (fun p => v p * z p) l + c0 * (n * c0)).
  { rewrite (Rsum_three_terms _ (fun p => u p * z p) (fun p => v p * z p) z
               (2 * a') (2 * b') c0).
    - now rewrite Hz.
    - intros p Hp. unfold z at 1. rewrite (Hcirc p Hp). ring. }
  unfold Mxx, Myy, Mxy, Mxz, Myz, Mzz.
  split; [| split; [| split]].
  - replace (Rsum (fun p => u p * u p) l / n + Rsum (fun p => v p * v p) l / n)
      with ((Rsum (fun p => u p * u p) l + Rsum (fun p => v p * v p) l) / n)
      by (field; exact Hn).
    rewrite Hsum. field. exact Hn.
  - rewrite Hxz. field. exact Hn.
  - rewrite Hyz. field. exact Hn.
  - rewrite Hzz. field. exact Hn.
Qed.

(** The locals of [FitCircle] for points on the circle of centre
    [(a, b)] and radius [r]. *)
Lemma locals_on_circle (points : list (Point R)) (a b r : R) :
  (0 < length points)%nat ->
  (forall p, In p points ->
     (pt_x p - a) * (pt_x p - a) + (pt_y p - b) * (pt_y p - b) = r * r) ->
  let v := FitCircle_locals points in
  let m := l_M v in
  let a' := a - l_cx v in
  let b' := b - l_cy v in
  Mxz m = 2 * a' * Mxx m + 2 * b' * Mxy m /\
  Myz m = 2 * a' * Mxy m + 2 * b' * Myy m /\
  l_A0 v = 0.
Proof.
  intros Hlen Hcirc v m a' b'.
  assert (Hn : IZR (Z.of_nat (length points)) <> 0) by (apply not_0_IZR; lia).
  assert (Hcx : l_cx v = Rsum pt_x points / IZR (Z.of_nat (length points))).
  { unfold v, FitCircle_locals. cbn [l_cx]. now rewrite sum_over_exact. }
  assert (Hcy : l_cy v = Rsum pt_y points / IZR (Z.of_nat (length points))).
  { unfold v, FitCircle_locals. cbn [l_cy]. now rewrite sum_over_exact. }
  pose proof (circle_moments (fun p => pt_x p - l_cx v) (fun p => pt_y p - l_cy v)
                points a' b' (r * r - a' * a' - b' * b')) as Hmom.
  cbv zeta in Hmom.
  destruct Hmom as (Hz & Hxz & Hyz & Hzz).
  - exact Hn.
  - rewrite Hcx. now apply Rsum_centred_zero.
  - rewrite Hcy. now apply Rsum_centred_zero.
  - intros p Hp. specialize (Hcirc p Hp). unfold a', b'. nra.
  - assert (Hm : m = mkMoments
        (Rsum (fun p => (pt_x p - l_cx v) * (pt_x p - l_cx v)) points
           / IZR (Z.of_nat (length points)))
        (Rsum (fun p => (pt_y p - l_cy v) * (pt_y p - l_cy v)) points
           / IZR (Z.of_nat (length points)))
        (Rsum (fun p => (pt_x p - l_cx v) * (pt_y p - l_cy v)) points
           / IZR (Z.of_nat (length points)))
        (Rsum (fun p => (pt_x p - l_cx v)
                        * ((pt_x p - l_cx v) * (pt_x p - l_cx v)
                           + (pt_y p - l_cy v) * (pt_y p - l_cy v))) points
           / IZR (Z.of_nat (length points)))
        (Rsum (fun p => (pt_y p - l_cy v)
                        * ((pt_x p - l_cx v) * (pt_x p - l_cx v)
                           + (pt_y p - l_cy v) * (pt_y p - l_cy v))) points
           / IZR (Z.of_nat (length points)))
        (Rsum (fun p => ((pt_x p - l_cx v) * (pt_x p - l_cx v)
                         + (pt_y p - l_cy v) * (pt_y p - l_cy v))
                        * ((pt_x p - l_cx v) * (pt_x p - l_cx v)
                           + (pt_y p - l_cy v) * (pt_y p - l_cy v))) points
           / IZR (Z.of_nat (length points)))).
    { unfold m, v, FitCircle_locals. cbn [l_M l_cx l_cy].
      rewrite accumulate_moments_exact. cbv zeta. cbn [Mxx Myy Mxy Mxz Myz Mzz].
      rewrite !Rsum_map. cbn [pt_x pt_y]. reflexivity. }
    assert (HA0 : l_A0 v =
      Mxz m * (Mxz m * Myy m - Myz m * Mxy m) + Myz m * (Myz m * Mxx m - Mxz m * Mxy m)
      - (Mzz m - (Mxx m + Myy m) * (Mxx m + Myy m)) * (Mxx m * Myy m - Mxy m * Mxy m))
      by reflexivity.
    rewrite HA0. rewrite Hm. cbn [Mxx Myy Mxy Mxz Myz Mzz].
    split; [exact Hxz |]. split; [exact Hyz |].
    rewrite Hzz, Hxz, Hyz. rewrite <- Hz. ring.
Qed.

(** X18.  In exact arithmetic [FitCircle] is exact on a circle: for at
    least 3 points that lie on the circle of centre [(a, b)] and radius [r],
    [0 < r <= 10000], and that pass the determinant test (the [Cov_xy] of
    their centred moments is at least [1e-10] in absolute value, so they are
    not all on one line), the root the Newton loop leaves in [xnew] is 0 and
    [FitCircle] returns exactly the centre [(a, b)] and the radius [r].  On
    binary64 the four points (1, 0), (0, 1), (-1, 0), (0, -1) of the unit
    circle give the root 0 and the circle of centre (0, 0) and radius 1 as
    well. *)
Theorem FitCircle_recovers_the_circle :
  (forall (points : list (Point R)) (a b r : R),
     (3 <= length points)%nat -> 0 < r <= 10000 ->
     (forall p, In p points ->
        (pt_x p - a) * (pt_x p - a) + (pt_y p - b) * (pt_y p - b) = r * r) ->
     (std_abs (l_Cov_xy (FitCircle_locals points)) <? dec 1 (-10))%num = false ->
     l_xnew (FitCircle_locals points) = 0 /\
     FitCircle points = mkCircle (mkPoint a b) r) /\
  (l_xnew (FitCircle_locals unit_circle_four_double) = of_int 0 /\
   FitCircle unit_circle_four_double = mkCircle (mkPoint (of_int 0) (of_int 0)) (of_int 1)).
Proof.
  split; [| vm_compute; split; reflexivity].
  intros points a b r Hlen Hr Hcirc Htest.
  set (v := FitCircle_locals points) in *. set (m := l_M v).
  destruct (locals_on_circle points a b r ltac:(lia) Hcirc) as (Hxz & Hyz & HA0).
  fold v in Hxz, Hyz, HA0. fold m in Hxz, Hyz.
  assert (Hn : IZR (Z.of_nat (length points)) <> 0) by (apply not_0_IZR; lia).
  assert (Hx : l_xnew v = 0).
  { transitivity (newton_loop (l_A0 v) (l_A1 v) (l_A2 v) (l_A22 v)
                    (Z.to_nat IterMax) 0%Z 0 (dec 1 20)).
    - unfold v, FitCircle_locals. cbn [l_xnew l_A0 l_A1 l_A2 l_A22]. exact_arith.
      reflexivity.
    - rewrite HA0. apply (newton_loop_A0_zero _ _ _ 19). }
  assert (Hcov : l_Cov_xy v = Mxx m * Myy m - Mxy m * Mxy m) by reflexivity.
  assert (HDET : l_DET v = l_Cov_xy v).
  { transitivity (l_xnew v * l_xnew v - l_xnew v * l_Mz v + l_Cov_xy v); [reflexivity |].
    rewrite Hx. ring. }
  exact_arith. apply Rltb_false in Htest.
  replace (R_dec 1 (-10)) with (1 / 10000000000) in Htest by reflexivity.
  assert (Hne : l_Cov_xy v <> 0).
  { intros H0. rewrite H0, Rabs_R0 in Htest. lra. }
  split; [exact Hx |].
  unfold FitCircle. destruct (Nat.ltb_spec (length points) 3) as [|_]; [lia |].
  cbv zeta. fold v. fold m. rewrite HDET, Hx. exact_arith.
  replace (R_dec 1 (-10)) with (1 / 10000000000) by reflexivity.
  rewrite (proj2 (Rltb_false _ _) Htest).
  assert (Hcx : (Mxz m * (Myy m - 0) - Myz m * Mxy m) / l_Cov_xy v / 2 + l_cx v = a).
  { rewrite Hxz, Hyz, Hcov. rewrite Hcov in Hne. field. exact Hne. }
  assert (Hcy : (Myz m * (Mxx m - 0) - Mxz m * Mxy m) / l_Cov_xy v / 2 + l_cy v = b).
  { rewrite Hxz, Hyz, Hcov. rewrite Hcov in Hne. field. exact Hne. }
  rewrite Hcx, Hcy.
  assert (Hrad : sum_over (fun p => sqrt ((pt_x p - a) * (pt_x p - a)
                                          + (pt_y p - b) * (pt_y p - b))) points
                 / IZR (Z.of_nat (length points)) = r).
  { rewrite sum_over_exact.
    rewrite (Rsum_ext_in _ (fun _ => r)), Rsum_const; [field; exact Hn |].
    intros p Hp. rewrite (Hcirc p Hp). apply sqrt_square. lra. }
  rewrite Hrad. cbn [orb].
  rewrite (proj2 (Rleb_false r 0)) by lra.
  rewrite (proj2 (Rltb_false 10000 r)) by lra.
  reflexivity.
Qed.

(** Four points of the unit circle. *)
Lemma FitCircle_recovers_the_circle_witness :
  FitCircle unit_circle_four = mkCircle (mkPoint 0 0) 1.
Proof.
  refine (proj2 (proj1 FitCircle_recovers_the_circle unit_circle_four 0 0 1 _ _ _ _)).
  - cbn. lia.
  - lra.
  - intros p [<- | [<- | [<- | [<- | []]]]]; cbn [pt_x pt_y]; ring.
  - assert (Hcov : l_Cov_xy (FitCircle_locals unit_circle_four) = 1 / 4).
    { unfold FitCircle_locals. cbn [l_Cov_xy].
      rewrite accumulate_moments_exact, !sum_over_exact. cbv zeta.
      cbn [Mxx Myy Mxy Mxz Myz Mzz unit_circle_four Rsum map length pt_x pt_y].
      exact_arith. change (Z.of_nat 4) with 4%Z. field. }
    rewrite Hcov. exact_arith. apply Rltb_false.
    replace (R_dec 1 (-10)) with (1 / 10000000000) by reflexivity.
    rewrite Rabs_right; lra.
Defined.

End OnReals.

End FitCircleFacts.

(** ** Problem2, main.cpp: clicks and the G key *)

Module SelectionApplicationFacts.
Import Problem2 Problem2Spec SelectionGridFacts FitCircleFacts.

Section Generic.
Context {T : Type} {A : Arith T}.

(** X19.  In every arithmetic, for an application whose grid is a grid of
    the class and a click at a pixel [(x, y)] with [0 <= x, y]: inside the
    window ([x, y < 800]) [OnMouseDown] toggles the cell [(y / 40, x / 40)]
    that holds the pixel, leaves every other cell as it was and hides the
    circle, and a second click at the same pixel gives the grid back;
    outside the window the click changes nothing. *)
Theorem OnMouseDown_toggles_the_cell (app : Application T) (x y : Z) :
  Grid_wf (grid app) -> 0 <= x -> 0 <= y ->
  let i := y / CELL_SIZE in
  let j := x / CELL_SIZE in
  let app' := OnMouseDown app x y in
  (x < 800 /\ y < 800 ->
     grid app' = TogglePoint (grid app) i j /\
     showCircle app' = false /\ bestFitCircle app' = bestFitCircle app /\
     IsSelected (grid app') i j = negb <$> IsSelected (grid app) i j /\
     (forall i' j', (i', j') <> (i, j) ->
        IsSelected (grid app') i' j' = IsSelected (grid app) i' j') /\
     grid (OnMouseDown app' x y) = grid app) /\
  (800 <= x \/ 800 <= y -> app' = app).
Proof.
  intros [sel Hsel] Hx Hy i j app'.
  assert (Hq : PixelToGrid x y = (in_grid i j, i, j)).
  { unfold PixelToGrid, i, j. cbv zeta. rewrite bounds_test.
    change CELL_SIZE with 40. now rewrite !Z.quot_div_nonneg by lia. }
  assert (Hin : in_grid i j = true <-> x < 800 /\ y < 800).
  { unfold i, j. rewrite in_grid_spec. change CELL_SIZE with 40. change GRID_SIZE with 20.
    pose proof (Z.div_mod x 40 ltac:(lia)). pose proof (Z.mod_pos_bound x 40 ltac:(lia)).
    pose proof (Z.div_mod y 40 ltac:(lia)). pose proof (Z.mod_pos_bound y 40 ltac:(lia)).
    lia. }
  split.
  - intros Hwin. apply Hin in Hwin.
    assert (Happ : app' = mkApplication (TogglePoint (grid app) i j) (bestFitCircle app) false).
    { unfold app', OnMouseDown. now rewrite Hq, Hwin. }
    rewrite Happ. cbn [grid showCircle bestFitCircle].
    split; [reflexivity |]. split; [reflexivity |]. split; [reflexivity |].
    rewrite Hsel, TogglePoint_grid_of, Hwin. cbn [andb]. split; [| split].
    + rewrite !IsSelected_grid_of, Hwin, !Z.eqb_refl. reflexivity.
    + intros i' j' Hne. rewrite !IsSelected_grid_of.
      destruct (Z.eqb_spec i' i) as [->|]; cbn [andb]; [| reflexivity].
      destruct (Z.eqb_spec j' j) as [->|]; [congruence | reflexivity].
    + unfold OnMouseDown. rewrite Hq, Hwin. cbn [grid].
      rewrite TogglePoint_grid_of, Hwin. cbn [andb]. apply grid_of_ext. intros i' j' _.
      destruct ((i' =? i) && (j' =? j)); [apply negb_involutive | reflexivity].
  - intros Hout. unfold app', OnMouseDown. rewrite Hq.
    destruct (in_grid i j) eqn:Hg; [| reflexivity].
    destruct (proj1 Hin eq_refl) as [? ?]. lia.
Qed.

End Generic.

(** On binary64: a click at the pixel (190, 130), in the cell (3, 4) of
    the application at its start. *)
Lemma OnMouseDown_toggles_the_cell_witness :
  let app := @Application_new Binary64.double _ in
  grid (OnMouseDown app 190 130) = TogglePoint (grid app) 3 4 /\
  grid (OnMouseDown (OnMouseDown app 190 130) 190 130) = grid app.
Proof.
  intros app.
  assert (Hwf : Grid_wf (grid app)) by (exists (fun _ _ => false); vm_compute; reflexivity).
  pose proof (OnMouseDown_toggles_the_cell app 190 130 Hwf ltac:(lia) ltac:(lia)) as H.
  cbv zeta in H. destruct H as [H _].
  destruct (H ltac:(lia)) as (H1 & _ & _ & _ & _ & H2).
  split; [exact H1 | exact H2].
Defined.

Section Ordered.
Context {T : Type} {A : Arith T} {O : ArithOrder T}.
Local Open Scope num_scope.

(** X20.  In every arithmetic whose order satisfies [ArithOrder], for an
    application whose grid is a grid of the class, [GenerateCircle] is
    defined and leaves the grid as it is.  With fewer than 3 selected cells
    it shows the box "Not Enough Points", hides the circle and keeps the
    circle of before.  With at least 3 it records [FitCircle] of the pixel
    centres of the selected cells; when the radius of that circle is greater
    than 0 it shows the circle and no box, otherwise it hides the circle and
    shows the box "Invalid Point Configuration".  The circle is shown
    exactly when no box is shown, and a circle that is shown has passed the
    last test of [FitCircle]: its radius is greater than 0, not greater than
    10000, and neither NaN nor infinite. *)
Theorem GenerateCircle_spec (app : Application T) :
  Grid_wf (grid app) ->
  let selectedPoints := map (@cell_centre T _) (selected_cells (grid app)) in
  exists (app' : Application T) (box : option MessageBox),
    GenerateCircle app = Some (app', box) /\ grid app' = grid app /\
    ((length selectedPoints < 3)%nat ->
       box = Some NotEnoughPoints /\ showCircle app' = false /\
       bestFitCircle app' = bestFitCircle app) /\
    ((3 <= length selectedPoints)%nat ->
       bestFitCircle app' = FitCircle selectedPoints /\
       showCircle app' = (radius (FitCircle selectedPoints) >? #0) /\
       box = if radius (FitCircle selectedPoints) >? #0
             then None else Some InvalidPointConfiguration) /\
    (showCircle app' = true <-> box = None) /\
    (showCircle app' = true ->
       (3 <= length selectedPoints)%nat /\
       (radius (bestFitCircle app') >? #0) = true /\
       (radius (bestFitCircle app') >? #10000) = false /\
       std_isnan (radius (bestFitCircle app')) = false /\
       std_isinf (radius (bestFitCircle app')) = false).
Proof.
  intros [sel Hsel] selectedPoints.
  assert (Hget : GetSelectedPoints (grid app) = Some selectedPoints).
  { unfold selectedPoints. rewrite Hsel, GetSelectedPoints_grid_of.
    now rewrite selected_cells_grid_of. }
  unfold GenerateCircle. rewrite Hget. cbn [mbind option_bind].
  destruct (Nat.ltb_spec (length selectedPoints) 3) as [Hlt|Hge].
  - eexists _, _. split; [reflexivity |]. cbn [grid showCircle bestFitCircle].
    split; [reflexivity |]. split; [intros _; now repeat split |].
    split; [intros; lia |]. split; [split; discriminate | discriminate].
  - cbv zeta.
    pose proof (FitCircle_cases selectedPoints) as Hcases. cbv zeta in Hcases.
    destruct (radius (FitCircle selectedPoints) >? #0) eqn:Hpos.
    + eexists _, _. split; [reflexivity |]. cbn [grid showCircle bestFitCircle].
      split; [reflexivity |]. split; [intros; lia |]. split; [| split].
      * intros _. now repeat split.
      * split; reflexivity.
      * intros _. split; [exact Hge |]. split; [exact Hpos |].
        destruct Hcases as [Hdef | (_ & Hbig & Hnan & Hinf & _)].
        -- rewrite Hdef in Hpos. cbn [radius Circle_default] in Hpos.
           rewrite zero_not_positive in Hpos. discriminate.
        -- now repeat split.
    + eexists _, _. split; [reflexivity |]. cbn [grid showCircle bestFitCircle].
      split; [reflexivity |]. split; [intros; lia |]. split; [| split].
      * intros _. now repeat split.
      * split; discriminate.
      * discriminate.
Qed.

End Ordered.

(** On binary64: the application after the clicks that select the cells
    (0, 0), (3, 1) and (9, 3), whose pixel centres (20, 20), (60, 140) and
    (140, 380) lie on one line.  [FitCircle] returns a circle of radius
    greater than 0 for them, and [GenerateCircle] shows it without a box. *)
Lemma GenerateCircle_spec_witness :
  let app : Application Binary64.double :=
    OnMouseDown (OnMouseDown (OnMouseDown Application_new 20 20) 60 140) 140 380 in
  map (@cell_centre Binary64.double _) (selected_cells (grid app))
  = [mkPoint (of_int 20) (of_int 20); mkPoint (of_int 60) (of_int 140);
     mkPoint (of_int 140) (of_int 380)] /\
  exists app' : Application Binary64.double,
    GenerateCircle app = Some (app', None) /\ grid app' = grid app /\
    showCircle app' = true.
Proof.
  intros app.
  assert (Hsel : map (@cell_centre Binary64.double _) (selected_cells (grid app))
                 = [mkPoint (of_int 20) (of_int 20); mkPoint (of_int 60) (of_int 140);
                    mkPoint (of_int 140) (of_int 380)]) by (vm_compute; reflexivity).
  split; [exact Hsel |].
  assert (Hwf : Grid_wf (grid app)).
  { exists (fun i j => (i =? 0) && (j =? 0) || (i =? 3) && (j =? 1)
                       || (i =? 9) && (j =? 3)).
    vm_compute. reflexivity. }
  destruct (GenerateCircle_spec (O := Binary64Facts.order) app Hwf)
    as (app' & box & Hgen & Hgrid & _ & Hge & _).
  cbv zeta in Hge. rewrite Hsel in Hge.
  destruct (Hge ltac:(cbn; lia)) as (_ & Hshow & Hbox).
  assert (Hpos : (radius (FitCircle [mkPoint (of_int 20) (of_int 20);
                                     mkPoint (of_int 60) (of_int 140);
                                     mkPoint (of_int 140) (of_int 380)])
                  >? dec 0 0)%num = true) by (vm_compute; reflexivity).
  rewrite Hpos in Hshow, Hbox. subst box.
  exists app'. split; [exact Hgen |]. split; [exact Hgrid | exact Hshow].
Defined.

End SelectionApplicationFacts.

(** ** extracredit, Geometry.h: the size of the fitted ellipse *)

Module FitEllipseFacts.
Import ExtraCredit ExtraCreditSpec Exact ExactFacts ExtraCreditFacts.
Local Open Scope R_scope.

Lemma Rsum_nonneg {X : Type} (f : X -> R) (l : list X) :
  (forall p, 0 <= f p) -> 0 <= Rsum f l.
Proof.
  intros Hf. induction l as [|p l IH]; cbn [Rsum]; [lra |].
  specialize (Hf p). lra.
Qed.

Lemma Rsum_three_terms_sq {X : Type} (dx dy : X -> R) (l : list X) (co si : R) :
  Rsum (fun p => (dx p * co + dy p * si) * (dx p * co + dy p * si)) l
  = co * co * Rsum (fun p => dx p * dx p) l
    + si * si * Rsum (fun p => dy p * dy p) l
    + 2 * co * si * Rsum (fun p => dx p * dy p) l.
Proof. induction l as [|p l IH]; cbn [Rsum]; [ring | rewrite IH; ring]. Qed.

Lemma Rsum_linear_sum {X : Type} (f g : X -> R) (l : list X) :
  Rsum (fun p => f p + g p) l = Rsum f l + Rsum g l.
Proof. induction l as [|p l IH]; cbn [Rsum]; [ring | rewrite IH; ring]. Qed.

(** The variance of the points along the direction [(co, si)] is a mean of
    squares. *)
Lemma directional_variance_nonneg {X : Type} (dx dy : X -> R) (l : list X)
    (n co si : R) :
  0 < n ->
  0 <= Rsum (fun p => dx p * dx p) l / n * co * co
       + Rsum (fun p => dy p * dy p) l / n * si * si
       + 2 * (Rsum (fun p => dx p * dy p) l / n) * co * si.
Proof.
  intros Hn.
  assert (Hsq : 0 <= Rsum (fun p => (dx p * co + dy p * si) * (dx p * co + dy p * si)) l).
  { apply Rsum_nonneg. intros p. apply (Rle_0_sqr (dx p * co + dy p * si)). }
  rewrite (Rsum_three_terms_sq dx dy l co si) in Hsq.
  replace (Rsum (fun p => dx p * dx p) l / n * co * co
           + Rsum (fun p => dy p * dy p) l / n * si * si
           + 2 * (Rsum (fun p => dx p * dy p) l / n) * co * si)
    with ((co * co * Rsum (fun p => dx p * dx p) l
           + si * si * Rsum (fun p => dy p * dy p) l
           + 2 * co * si * Rsum (fun p => dx p * dy p) l) / n) by (field; lra).
  apply Rmult_le_pos; [exact Hsq |]. apply Rlt_le, Rinv_0_lt_compat. exact Hn.
Qed.

(** The two axes computed from the moments, before the swap. *)
Lemma axes_sum_of_squares (mxx myy mxy theta : R) :
  let var1 := mxx * cos theta * cos theta + myy * sin theta * sin theta
              + 2 * mxy * cos theta * sin theta in
  let var2 := mxx * sin theta * sin theta + myy * cos theta * cos theta
              - 2 * mxy * cos theta * sin theta in
  0 <= var1 -> 0 <= var2 ->
  (2 * sqrt (Rabs var1)) * (2 * sqrt (Rabs var1))
  + (2 * sqrt (Rabs var2)) * (2 * sqrt (Rabs var2)) = 4 * (mxx + myy).
Proof.
  intros var1 var2 H1 H2.
  rewrite !Rabs_right by lra.
  replace ((2 * sqrt var1) * (2 * sqrt var1)) with (4 * (sqrt var1 * sqrt var1)) by ring.
  replace ((2 * sqrt var2) * (2 * sqrt var2)) with (4 * (sqrt var2 * sqrt var2)) by ring.
  rewrite !sqrt_sqrt by lra.
  pose proof (sin2_cos2 theta) as Hsc. unfold Rsqr in Hsc.
  unfold var1, var2.
  replace (mxx + myy)
    with ((mxx + myy) * (sin theta * sin theta + cos theta * cos theta))
    by (rewrite Hsc; ring).
  ring.
Qed.

(** X21.  In exact arithmetic, a valid result of [FitEllipse] is the
    ellipse of the second moments of the points: its centre is their
    centroid, and the squares of its two semi-axes add up to four times the
    mean squared distance of the points from the centroid. *)
Theorem FitEllipse_moment_ellipse (points : list (Point R)) :
  valid (FitEllipse points) = true ->
  let e := FitEllipse points in
  let n := IZR (Z.of_nat (length points)) in
  let cx := Rsum pt_x points / n in
  let cy := Rsum pt_y points / n in
  center e = mkPoint cx cy /\
  a e * a e + b e * b e
  = 4 * (Rsum (fun p => (pt_x p - cx) * (pt_x p - cx)
                        + (pt_y p - cy) * (pt_y p - cy)) points / n).
Proof.
  intros Hvalid e n cx cy. unfold e. clear e. unfold FitEllipse in *.
  destruct (Nat.ltb_spec (length points) 5) as [|Hlen]; [discriminate |].
  cbv zeta in *.
  destruct (std_abs (collinearity_det points) <? dec 1 (-6))%num; [discriminate |].
  destruct (std_abs (det_S3 points) <? dec 1 (-10))%num; [discriminate |].
  assert (Hn : 0 < n) by (apply IZR_lt; lia).
  unfold moment_fit, moment_axes in *. cbv beta iota zeta in *.
  rewrite !ellipse_sum_over_exact in *.
  exact_arith. fold n in Hvalid |- *. fold cx cy in Hvalid |- *.
  set (mxx := Rsum (fun p => (pt_x p - cx) * (pt_x p - cx)) points / n) in *.
  set (myy := Rsum (fun p => (pt_y p - cy) * (pt_y p - cy)) points / n) in *.
  set (mxy := Rsum (fun p => (pt_x p - cx) * (pt_y p - cy)) points / n) in *.
  set (theta := R_dec 5 (-1) * R_atan2 (2 * mxy) (mxx - myy)) in *.
  assert (Hv1 : 0 <= mxx * cos theta * cos theta + myy * sin theta * sin theta
                     + 2 * mxy * cos theta * sin theta).
  { apply (directional_variance_nonneg (fun p => pt_x p - cx) (fun p => pt_y p - cy)
             points n (cos theta) (sin theta) Hn). }
  assert (Hv2 : 0 <= mxx * sin theta * sin theta + myy * cos theta * cos theta
                     - 2 * mxy * cos theta * sin theta).
  { pose proof (directional_variance_nonneg (fun p => pt_x p - cx) (fun p => pt_y p - cy)
                  points n (sin theta) (- cos theta) Hn) as H.
    cbv beta in H. fold mxx myy mxy in H. lra. }
  pose proof (axes_sum_of_squares mxx myy mxy theta Hv1 Hv2) as Hsum. cbv zeta in Hsum.
  assert (Hmean : mxx + myy
                  = Rsum (fun p => (pt_x p - cx) * (pt_x p - cx)
                                   + (pt_y p - cy) * (pt_y p - cy)) points / n).
  { unfold mxx, myy.
    rewrite (Rsum_linear_sum (fun p => (pt_x p - cx) * (pt_x p - cx))
               (fun p => (pt_y p - cy) * (pt_y p - cy))).
    field. lra. }
  rewrite <- Hmean, <- Hsum.
  unfold order_and_validate in *. exact_arith.
  match goal with
  | |- context [Rltb ?x ?y] => destruct (Rltb x y)
  end; cbv beta iota zeta in *;
  match goal with
  | H : valid (if ?c then _ else _) = true |- _ => destruct c
  end; try discriminate; cbn [center a b EllipseShape_new]; split; try reflexivity; ring.
Qed.

(** The five points of [ellipse_five]: the squares of the axes add up to
    4 * (8 / 5 + 2 / 5) = 8. *)
Lemma FitEllipse_moment_ellipse_witness :
  center (FitEllipse ellipse_five)
  = mkPoint (Rsum pt_x ellipse_five / IZR (Z.of_nat (length ellipse_five)))
            (Rsum pt_y ellipse_five / IZR (Z.of_nat (length ellipse_five))).
Proof.
  refine (proj1 (FitEllipse_moment_ellipse ellipse_five _)).
  rewrite FitEllipse_ellipse_five. reflexivity.
Defined.

End FitEllipseFacts.

(** ** extracredit, Geometry.h: [SolveLinearSystem] *)

Module LinearSystemFacts.
Import ExtraCredit ExtraCreditSpec.

Section Generic.
Context {T : Type} {A : Arith T}.
Local Open Scope num_scope.

Lemma for_loop_split {S : Type} (lo mid hi : Z) (body : Z -> S -> S) (s : S) :
  (lo <= mid <= hi)%Z ->
  for_loop lo hi body s = for_loop mid hi body (for_loop lo mid body s).
Proof.
  intros H. unfold for_loop.
  replace (hi - lo)%Z with ((mid - lo) + (hi - mid))%Z by lia.
  rewrite seqZ_app by lia. rewrite fold_left_app.
  now replace (lo + (mid - lo))%Z with mid by lia.
Qed.

Lemma shape_row (n : Z) (M : list (list T)) (i : Z) :
  augmented_shape n M -> (0 <= i < n)%Z ->
  exists row, M !! Z.to_nat i = Some row /\ length row = Z.to_nat (n + 1).
Proof.
  intros [Hlen Hrows] Hi.
  destruct (lookup_lt_is_Some_2 M (Z.to_nat i)) as [row Hrow]; [lia |].
  exists row. split; [exact Hrow |].
  exact (proj1 (Forall_lookup _ _) Hrows _ _ Hrow).
Qed.

Lemma assign2_shape (n : Z) (M : list (list T)) (i j : Z) (v : T) :
  augmented_shape n M -> augmented_shape n (assign2 M i j v).
Proof.
  intros [Hlen Hrows]. unfold assign2. split.
  - now rewrite length_alter.
  - apply Forall_alter; [exact Hrows |].
    intros row _ Hrow. now rewrite length_insert.
Qed.

Lemma sub2_assign2 (n : Z) (M : list (list T)) (i j : Z) (v : T) (r c : Z) :
  augmented_shape n M -> (0 <= i < n)%Z -> (0 <= j <= n)%Z -> (0 <= r)%Z -> (0 <= c)%Z ->
  sub2 (assign2 M i j v) r c =
  if (r =? i)%Z && (c =? j)%Z then v else sub2 M r c.
Proof.
  intros HM Hi Hj Hr Hc.
  destruct (shape_row n M i HM Hi) as (row & Hrow & Hlen).
  unfold sub2, assign2.
  destruct (Z.eqb_spec r i) as [->|Hri]; cbn [andb].
  - rewrite list_lookup_alter_eq, Hrow. cbn.
    destruct (Z.eqb_spec c j) as [->|Hcj].
    + now rewrite list_lookup_insert_eq by lia.
    + now rewrite list_lookup_insert_ne by lia.
  - now rewrite list_lookup_alter_ne by lia.
Qed.

Lemma swap_rows_shape (n : Z) (M : list (list T)) (i m : Z) :
  augmented_shape n M -> (0 <= i < n)%Z -> (0 <= m < n)%Z ->
  augmented_shape n (swap_rows M i m).
Proof.
  intros HM Hi Hm.
  destruct (shape_row n M i HM Hi) as (ri & Hri & Hli).
  destruct (shape_row n M m HM Hm) as (rm & Hrm & Hlm).
  destruct HM as [Hlen Hrows]. unfold swap_rows. rewrite Hri, Hrm. cbn [default].
  split.
  - now rewrite !length_insert.
  - apply Forall_insert; [apply Forall_insert |]; assumption.
Qed.

Lemma sub2_swap_rows (n : Z) (M : list (list T)) (i m : Z) (r c : Z) :
  augmented_shape n M -> (0 <= i < n)%Z -> (0 <= m < n)%Z -> (0 <= r)%Z ->
  sub2 (swap_rows M i m) r c =
  sub2 M (if (r =? m)%Z then i else if (r =? i)%Z then m else r) c.
Proof.
  intros HM Hi Hm Hr.
  destruct (shape_row n M i HM Hi) as (ri & Hri & Hli).
  destruct (shape_row n M m HM Hm) as (rm & Hrm & Hlm).
  destruct HM as [Hlen Hrows]. unfold sub2, swap_rows. rewrite Hri, Hrm. cbn [default].
  destruct (Z.eqb_spec r m) as [->|Hrm'].
  - rewrite list_lookup_insert_eq by (rewrite length_insert; lia). now rewrite Hri.
  - rewrite list_lookup_insert_ne by lia.
    destruct (Z.eqb_spec r i) as [->|Hri'].
    + rewrite list_lookup_insert_eq by lia. now rewrite Hrm.
    + now rewrite list_lookup_insert_ne by lia.
Qed.

Lemma find_pivot_range (M : list (list T)) (n i : Z) :
  (0 <= i < n)%Z -> (i <= find_pivot M n i < n)%Z.
Proof.
  intros Hi. unfold find_pivot.
  apply (for_loop_invariant (fun _ m => (i <= m < n)%Z)); [lia | lia |].
  intros k m Hk Hm. destruct (_ >? _); lia.
Qed.

(** The elimination of the column [i] from the row [k] changes the
    entries of the row [k] from the column [i] on. *)
Lemma eliminate_row_entries (n : Z) (M : list (list T)) (i k : Z) :
  augmented_shape n M -> (0 <= i < n)%Z -> (0 <= k < n)%Z -> k <> i ->
  augmented_shape n (eliminate_row M n i k) /\
  forall r c, (0 <= r)%Z -> (0 <= c)%Z ->
    sub2 (eliminate_row M n i k) r c =
    if (r =? k)%Z && (i <=? c)%Z && (c <=? n)%Z
    then sub2 M k c - sub2 M k i / sub2 M i i * sub2 M i c
    else sub2 M r c.
Proof.
  intros HM Hi Hk Hki. unfold eliminate_row.
  set (factor := sub2 M k i / sub2 M i i).
  assert (H : augmented_shape n
                (for_loop i (n + 1) (fun j Aug =>
                   assign2 Aug k j (sub2 Aug k j - factor * sub2 Aug i j)) M) /\
              forall r c, (0 <= r)%Z -> (0 <= c)%Z ->
                sub2 (for_loop i (n + 1) (fun j Aug =>
                   assign2 Aug k j (sub2 Aug k j - factor * sub2 Aug i j)) M) r c =
                if (r =? k)%Z && (i <=? c)%Z && (c <? n + 1)%Z
                then sub2 M k c - factor * sub2 M i c
                else sub2 M r c).
  { apply (for_loop_invariant (fun j M' =>
      augmented_shape n M' /\
      forall r c, (0 <= r)%Z -> (0 <= c)%Z ->
        sub2 M' r c =
        if (r =? k)%Z && (i <=? c)%Z && (c <? j)%Z
        then sub2 M k c - factor * sub2 M i c
        else sub2 M r c)); [lia | |].
    - split; [exact HM |]. intros r c Hr Hc.
      destruct (r =? k)%Z, (Z.leb_spec i c), (Z.ltb_spec c i); cbn; try reflexivity; lia.
    - intros j M' Hj [HM' Hent]. split; [now apply assign2_shape |].
      intros r c Hr Hc.
      rewrite (sub2_assign2 n) by (assumption || lia).
      rewrite (Hent k j), (Hent i j) by lia.
      replace (i =? k)%Z with false by (symmetry; apply Z.eqb_neq; lia).
      rewrite Z.ltb_irrefl, andb_false_r. cbn [andb].
      rewrite Hent by assumption.
      destruct (Z.eqb_spec r k) as [->|Hrk]; cbn [andb]; [| reflexivity].
      destruct (Z.eqb_spec c j) as [->|Hcj].
      + replace (i <=? j)%Z with true by (symmetry; apply Z.leb_le; lia).
        replace (j <? j + 1)%Z with true by (symmetry; apply Z.ltb_lt; lia).
        reflexivity.
      + destruct (Z.leb_spec i c), (Z.ltb_spec c j), (Z.ltb_spec c (j + 1));
          cbn; try reflexivity; lia. }
  destruct H as [Hshape Hent]. split; [exact Hshape |].
  intros r c Hr Hc. rewrite Hent by assumption.
  replace (c <? n + 1)%Z with (c <=? n)%Z; [reflexivity |].
  destruct (Z.leb_spec c n), (Z.ltb_spec c (n + 1)); lia || reflexivity.
Qed.

(** The elimination loop of the column [i] changes the rows below the
    row [i], from the column [i] on. *)
Lemma eliminate_column_entries (n : Z) (M : list (list T)) (i : Z) :
  augmented_shape n M -> (0 <= i < n)%Z ->
  let M' := for_loop (i + 1) n (fun k Aug => eliminate_row Aug n i k) M in
  augmented_shape n M' /\
  forall r c, (0 <= r)%Z -> (0 <= c)%Z ->
    sub2 M' r c =
    if (i <? r)%Z && (r <? n)%Z && (i <=? c)%Z && (c <=? n)%Z
    then sub2 M r c - sub2 M r i / sub2 M i i * sub2 M i c
    else sub2 M r c.
Proof.
  intros HM Hi. cbv zeta.
  apply (for_loop_invariant (fun k M' =>
    augmented_shape n M' /\
    forall r c, (0 <= r)%Z -> (0 <= c)%Z ->
      sub2 M' r c =
      if (i <? r)%Z && (r <? k)%Z && (i <=? c)%Z && (c <=? n)%Z
      then sub2 M r c - sub2 M r i / sub2 M i i * sub2 M i c
      else sub2 M r c)); [lia | |].
  - split; [exact HM |]. intros r c Hr Hc.
    destruct (Z.ltb_spec i r), (Z.ltb_spec r (i + 1)); cbn; try reflexivity; lia.
  - intros k M' Hk [HM' Hent].
    destruct (eliminate_row_entries n M' i k HM' Hi) as [Hshape Hrow]; [lia | lia |].
    split; [exact Hshape |].
    intros r c Hr Hc. rewrite Hrow by assumption.
    rewrite (Hent k c), (Hent k i), (Hent i i), (Hent i c), (Hent r c) by lia.
    rewrite !Z.ltb_irrefl. cbn [andb].
    destruct (Z.eqb_spec r k) as [->|Hrk];
      destruct (Z.leb_spec i c), (Z.leb_spec c n), (Z.ltb_spec i k);
      try destruct (Z.ltb_spec i r); try destruct (Z.ltb_spec r k);
      try destruct (Z.ltb_spec r (k + 1)); try destruct (Z.ltb_spec k (k + 1));
      rewrite ?Z.ltb_irrefl; cbn [andb]; rewrite ?andb_false_r; try reflexivity; lia.
Qed.

Lemma elimination_step_rows (n : Z) (M : list (list T)) (i : Z) :
  augmented_shape n M -> (0 <= i < n)%Z ->
  augmented_shape n (elimination_step n i M) /\
  forall r c, (0 <= r <= i)%Z -> (0 <= c)%Z ->
    sub2 (elimination_step n i M) r c = sub2 (swap_rows M i (find_pivot M n i)) r c.
Proof.
  intros HM Hi. pose proof (find_pivot_range M n i Hi) as Hm.
  assert (HS : augmented_shape n (swap_rows M i (find_pivot M n i)))
    by (apply swap_rows_shape; assumption || lia).
  unfold elimination_step. destruct (_ <? _); [now split |].
  destruct (eliminate_column_entries n _ i HS Hi) as [Hshape Hent].
  split; [exact Hshape |].
  intros r c Hr Hc. rewrite Hent by lia.
  now replace (i <? r)%Z with false by (symmetry; apply Z.ltb_ge; lia).
Qed.

(** The passes from [lo] on leave the rows above [lo] as they are. *)
Lemma elimination_tail_rows (n lo : Z) (M : list (list T)) :
  augmented_shape n M -> (0 <= lo <= n)%Z ->
  augmented_shape n (for_loop lo n (elimination_step n) M) /\
  forall r c, (0 <= r < lo)%Z -> (0 <= c)%Z ->
    sub2 (for_loop lo n (elimination_step n) M) r c = sub2 M r c.
Proof.
  intros HM Hlo.
  apply (for_loop_invariant (fun _ M' =>
    augmented_shape n M' /\
    forall r c, (0 <= r < lo)%Z -> (0 <= c)%Z -> sub2 M' r c = sub2 M r c));
    [lia | now split |].
  intros i M' Hi [HM' Hent].
  destruct (elimination_step_rows n M' i HM') as [Hshape Hrows]; [lia |].
  split; [exact Hshape |].
  intros r c Hr Hc. rewrite Hrows by lia.
  pose proof (find_pivot_range M' n i) as Hm.
  rewrite (sub2_swap_rows n) by (assumption || lia).
  replace (r =? find_pivot M' n i)%Z with false by (symmetry; apply Z.eqb_neq; lia).
  replace (r =? i)%Z with false by (symmetry; apply Z.eqb_neq; lia).
  now apply Hent.
Qed.

(** The augmented matrix holds [A] in its first [n] columns and [b] in
    the last one. *)
Lemma augmented_entries (M : list (list T)) (b : list T) :
  let n := Z.of_nat (length b) in
  augmented_shape n (augmented M b) /\
  forall r c, (0 <= r < n)%Z -> (0 <= c <= n)%Z ->
    sub2 (augmented M b) r c = if (c =? n)%Z then sub1 b r else sub2 M r c.
Proof.
  intros n. unfold augmented. fold n.
  set (Init := replicate (Z.to_nat n) (replicate (Z.to_nat (n + 1)) #0)).
  assert (HInit : augmented_shape n Init).
  { split; [apply length_replicate |].
    apply Forall_replicate. apply length_replicate. }
  assert (H : augmented_shape n
      (for_loop 0 n (fun i Aug =>
         let Aug := for_loop 0 n (fun j Aug => assign2 Aug i j (sub2 M i j)) Aug in
         assign2 Aug i n (sub1 b i)) Init) /\
    forall r c, (0 <= r)%Z -> (0 <= c)%Z ->
      sub2 (for_loop 0 n (fun i Aug =>
         let Aug := for_loop 0 n (fun j Aug => assign2 Aug i j (sub2 M i j)) Aug in
         assign2 Aug i n (sub1 b i)) Init) r c =
      if (r <? n)%Z && (c <=? n)%Z
      then (if (c =? n)%Z then sub1 b r else sub2 M r c)
      else sub2 Init r c).
  { apply (for_loop_invariant (fun i M' =>
      augmented_shape n M' /\
      forall r c, (0 <= r)%Z -> (0 <= c)%Z ->
        sub2 M' r c =
        if (r <? i)%Z && (c <=? n)%Z
        then (if (c =? n)%Z then sub1 b r else sub2 M r c)
        else sub2 Init r c)); [lia | |].
    - split; [exact HInit |]. intros r c Hr Hc.
      now replace (r <? 0)%Z with false by (symmetry; apply Z.ltb_ge; lia).
    - intros i M' Hi [HM' Hent]. cbv zeta.
      assert (Hrow : augmented_shape n
          (for_loop 0 n (fun j Aug => assign2 Aug i j (sub2 M i j)) M') /\
        forall r c, (0 <= r)%Z -> (0 <= c)%Z ->
          sub2 (for_loop 0 n (fun j Aug => assign2 Aug i j (sub2 M i j)) M') r c =
          if (r =? i)%Z && (c <? n)%Z then sub2 M r c else sub2 M' r c).
      { apply (for_loop_invariant (fun j M'' =>
          augmented_shape n M'' /\
          forall r c, (0 <= r)%Z -> (0 <= c)%Z ->
            sub2 M'' r c =
            if (r =? i)%Z && (c <? j)%Z then sub2 M r c else sub2 M' r c)); [lia | |].
        - split; [exact HM' |]. intros r c Hr Hc.
          replace (c <? 0)%Z with false by (symmetry; apply Z.ltb_ge; lia).
          now rewrite andb_false_r.
        - intros j M'' Hj [HM'' Hent'']. split; [now apply assign2_shape |].
          intros r c Hr Hc.
          rewrite (sub2_assign2 n) by (assumption || lia).
          rewrite Hent'' by assumption.
          destruct (Z.eqb_spec r i) as [->|Hri]; cbn [andb]; [| reflexivity].
          destruct (Z.eqb_spec c j) as [Hcj|Hcj];
            destruct (Z.ltb_spec c j); destruct (Z.ltb_spec c (j + 1));
            try reflexivity; try lia; subst; reflexivity. }
      destruct Hrow as [Hshape Hrow]. split; [now apply assign2_shape |].
      intros r c Hr Hc.
      rewrite (sub2_assign2 n) by (assumption || lia).
      rewrite Hrow, Hent by assumption.
      destruct (Z.eqb_spec r i) as [Hri|Hri]; destruct (Z.eqb_spec c n) as [Hcn|Hcn];
        destruct (Z.ltb_spec r i); destruct (Z.ltb_spec r (i + 1));
        destruct (Z.ltb_spec c n); destruct (Z.leb_spec c n);
        cbn [andb]; try reflexivity; try lia; subst; reflexivity. }
  destruct H as [Hshape Hent]. split; [exact Hshape |].
  intros r c Hr Hc. rewrite Hent by lia.
  replace (r <? n)%Z with true by (symmetry; apply Z.ltb_lt; lia).
  now replace (c <=? n)%Z with true by (symmetry; apply Z.leb_le; lia).
Qed.

Lemma sub1_assign1 (x : list T) (i : Z) (v : T) (c : Z) :
  (0 <= i < Z.of_nat (length x))%Z -> (0 <= c)%Z ->
  sub1 (assign1 x i v) c = if (c =? i)%Z then v else sub1 x c.
Proof.
  intros Hi Hc. unfold sub1, assign1.
  destruct (Z.eqb_spec c i) as [->|Hci].
  - now rewrite list_lookup_insert_eq by lia.
  - now rewrite list_lookup_insert_ne by lia.
Qed.

(** The invariant rule of the loop that counts down. *)
Lemma for_loop_down_invariant {S : Type} (I : Z -> S -> Prop) (hi lo : Z)
    (body : Z -> S -> S) (s : S) :
  (lo <= hi + 1)%Z ->
  I (hi + 1)%Z s ->
  (forall i s', (lo <= i <= hi)%Z -> I (i + 1)%Z s' -> I i (body i s')) ->
  I lo (for_loop_down hi lo body s).
Proof.
  intros Hle H0 Hstep. unfold for_loop_down.
  assert (Hgen : forall m : nat, (lo + Z.of_nat m <= hi + 1)%Z -> forall s',
            I (lo + Z.of_nat m)%Z s' ->
            I lo (fold_left (fun s i => body i s) (reverse (seqZ lo (Z.of_nat m))) s')).
  { induction m as [|m IH]; intros Hm s' Hs'.
    - cbn. now rewrite Z.add_0_r in Hs'.
    - rewrite Nat2Z.inj_succ, <- Z.add_1_r, seqZ_app, reverse_app by lia.
      rewrite seqZ_cons, seqZ_nil by lia. cbn.
      apply IH; [lia |]. apply Hstep; [lia |].
      now replace (lo + Z.of_nat m + 1)%Z with (lo + Z.of_nat (Datatypes.S m))%Z by lia. }
  specialize (Hgen (Z.to_nat (hi - lo + 1))).
  rewrite Z2Nat.id in Hgen by lia. apply Hgen; [lia |].
  now replace (lo + (hi - lo + 1))%Z with (hi + 1)%Z by lia.
Qed.

End Generic.

Section OnReals.
Import Exact ExactFacts.
Local Open Scope R_scope.

Lemma In_seqZ (c lo len : Z) : In c (seqZ lo len) -> (lo <= c < lo + len)%Z.
Proof. intros H. apply list_elem_of_In in H. now apply elem_of_seqZ in H. Qed.

Lemma Rsum_app {X : Type} (f : X -> R) (l1 l2 : list X) :
  Rsum f (l1 ++ l2) = Rsum f l1 + Rsum f l2.
Proof. induction l1 as [|p l1 IH]; cbn; [lra | rewrite IH; lra]. Qed.

Lemma seqZ_split (lo i hi : Z) :
  (lo <= i < hi)%Z ->
  seqZ lo (hi - lo) = seqZ lo (i - lo) ++ [i] ++ seqZ (i + 1) (hi - (i + 1)).
Proof.
  intros H.
  replace (hi - lo)%Z with ((i - lo) + (1 + (hi - (i + 1))))%Z by lia.
  rewrite seqZ_app, seqZ_app by lia.
  replace (lo + (i - lo))%Z with i by lia.
  rewrite (seqZ_cons i) by lia. rewrite (seqZ_nil (Z.succ i)) by lia.
  reflexivity.
Qed.

Lemma threshold_bounds : 0 < R_dec 1 (-10) < 1 / 2.
Proof.
  unfold R_dec. change (Z.pow_pos 10 10) with 10000000000%Z. lra.
Qed.

Lemma threshold_positive : 0 < R_dec 1 (-10).
Proof. apply threshold_bounds. Qed.

(** Swapping two rows keeps the solutions. *)
Lemma swap_rows_solves (n : Z) (M : list (list R)) (i m : Z) (x : list R) :
  augmented_shape n M -> (0 <= i < n)%Z -> (0 <= m < n)%Z ->
  solves (swap_rows M i m) x n <-> solves M x n.
Proof.
  intros HM Hi Hm.
  assert (Hrow : forall r, (0 <= r)%Z ->
            row_product (swap_rows M i m) x n r =
            row_product M x n (if (r =? m)%Z then i else if (r =? i)%Z then m else r) /\
            sub2 (swap_rows M i m) r n =
            sub2 M (if (r =? m)%Z then i else if (r =? i)%Z then m else r) n).
  { intros r Hr. split; [| now rewrite (sub2_swap_rows n)].
    unfold row_product. apply Rsum_ext_in. intros c _.
    now rewrite (sub2_swap_rows n). }
  split; intros Hs r Hr.
  - destruct (Z.eqb_spec r m) as [Hrm|Hrm]; [| destruct (Z.eqb_spec r i) as [Hri|Hri]].
    + destruct (Hrow i) as [H1 H2]; [lia |]. specialize (Hs i Hi).
      rewrite H1, H2 in Hs. subst r.
      destruct (Z.eqb_spec i m) as [->|_]; [exact Hs |].
      now rewrite Z.eqb_refl in Hs.
    + destruct (Hrow m) as [H1 H2]; [lia |]. specialize (Hs m Hm).
      rewrite H1, H2 in Hs. subst r. now rewrite Z.eqb_refl in Hs.
    + destruct (Hrow r) as [H1 H2]; [lia |]. specialize (Hs r Hr).
      rewrite H1, H2 in Hs.
      destruct (Z.eqb_spec r m); [lia |]. destruct (Z.eqb_spec r i); [lia |]. exact Hs.
  - destruct (Hrow r) as [H1 H2]; [lia |]. rewrite H1, H2. apply Hs.
    destruct (r =? m)%Z; [lia |]. destruct (r =? i)%Z; lia.
Qed.

Lemma swap_rows_echelon (n : Z) (M : list (list R)) (i m : Z) :
  augmented_shape n M -> (0 <= i < n)%Z -> (i <= m < n)%Z ->
  echelon n i M -> echelon n i (swap_rows M i m).
Proof.
  intros HM Hi Hm He r c Hc Hr.
  rewrite (sub2_swap_rows n) by (assumption || lia).
  apply He; [lia |]. destruct (r =? m)%Z; [lia |]. destruct (r =? i)%Z; lia.
Qed.

(** The elimination of a column with a pivot other than 0 keeps the
    solutions and clears the column below the diagonal. *)
Lemma eliminate_column_exact (n : Z) (M : list (list R)) (i : Z) :
  augmented_shape n M -> (0 <= i < n)%Z -> echelon n i M -> sub2 M i i <> 0 ->
  let M' := for_loop (i + 1) n (fun k Aug => eliminate_row Aug n i k) M in
  echelon n (i + 1) M' /\ forall x, solves M' x n <-> solves M x n.
Proof.
  intros HM Hi He Hp M'.
  destruct (eliminate_column_entries n M i HM Hi) as [Hshape Hent].
  fold M' in Hshape, Hent. exact_arith.
  assert (Habove : forall r c, (0 <= r <= i)%Z -> (0 <= c)%Z -> sub2 M' r c = sub2 M r c).
  { intros r c Hr Hc. rewrite Hent by lia.
    now replace (i <? r)%Z with false by (symmetry; apply Z.ltb_ge; lia). }
  assert (Hbelow : forall r c, (i < r < n)%Z -> (0 <= c <= n)%Z ->
            sub2 M' r c = sub2 M r c - sub2 M r i / sub2 M i i * sub2 M i c).
  { intros r c Hr Hc. rewrite Hent by lia.
    replace (i <? r)%Z with true by (symmetry; apply Z.ltb_lt; lia).
    replace (r <? n)%Z with true by (symmetry; apply Z.ltb_lt; lia).
    replace (c <=? n)%Z with true by (symmetry; apply Z.leb_le; lia).
    cbn [andb]. destruct (Z.leb_spec i c); [reflexivity |].
    rewrite (He r c), (He i c) by lia. cbn [andb]. unfold Rdiv. ring. }
  assert (Hprod_above : forall x r, (0 <= r <= i)%Z ->
            row_product M' x n r = row_product M x n r).
  { intros x r Hr. unfold row_product. apply Rsum_ext_in. intros c Hc.
    apply In_seqZ in Hc. now rewrite Habove by lia. }
  assert (Hprod_below : forall x r, (i < r < n)%Z ->
            row_product M' x n r =
            row_product M x n r - sub2 M r i / sub2 M i i * row_product M x n i).
  { intros x r Hr. unfold row_product.
    rewrite (Rsum_ext_in _ (fun c => 1 * (sub2 M r c * sub1 x c)
               + - (sub2 M r i / sub2 M i i) * (sub2 M i c * sub1 x c))).
    - rewrite Rsum_linear. lra.
    - intros c Hc. apply In_seqZ in Hc. rewrite Hbelow by lia. lra. }
  split.
  - intros r c Hc Hr. destruct (Z.eq_dec c i) as [->|Hci].
    + rewrite Hbelow by lia. now field.
    + rewrite Hent by lia.
      replace (i <=? c)%Z with false by (symmetry; apply Z.leb_gt; lia).
      rewrite andb_false_r. cbn [andb]. apply He; lia.
  - intros x. split; intros Hs r Hr.
    + destruct (Z.le_gt_cases r i) as [Hle|Hgt].
      * rewrite <- Hprod_above, <- Habove by lia. now apply Hs.
      * pose proof (Hs r Hr) as Hr'. pose proof (Hs i Hi) as Hi'.
        rewrite Hprod_below, Hbelow in Hr' by lia.
        rewrite Hprod_above, Habove in Hi' by lia.
        rewrite Hi' in Hr'. lra.
    + destruct (Z.le_gt_cases r i) as [Hle|Hgt].
      * rewrite Hprod_above, Habove by lia. now apply Hs.
      * rewrite Hprod_below, Hbelow by lia.
        rewrite (Hs r Hr), (Hs i Hi). reflexivity.
Qed.

Lemma elimination_step_exact (n : Z) (M : list (list R)) (i : Z) :
  augmented_shape n M -> (0 <= i < n)%Z -> echelon n i M ->
  R_dec 1 (-10) <= Rabs (sub2 (swap_rows M i (find_pivot M n i)) i i) ->
  echelon n (i + 1) (elimination_step n i M) /\
  forall x, solves (elimination_step n i M) x n <-> solves M x n.
Proof.
  intros HM Hi He Hp. pose proof (find_pivot_range M n i Hi) as Hm.
  pose proof threshold_positive as Hpos.
  unfold elimination_step. exact_arith.
  rewrite (proj2 (Rltb_false _ _) Hp).
  destruct (eliminate_column_exact n (swap_rows M i (find_pivot M n i)) i)
    as [He' Hs'].
  - apply swap_rows_shape; assumption || lia.
  - exact Hi.
  - apply swap_rows_echelon; assumption || lia.
  - intros H0. rewrite H0, Rabs_R0 in Hp. lra.
  - split; [exact He' |]. intros x. rewrite Hs'.
    apply swap_rows_solves; assumption || lia.
Qed.

(** The elimination, when no pivot is skipped: the matrix is in echelon
    form and has the solutions of the system. *)
Lemma gaussian_elimination_exact (n : Z) (M : list (list R)) :
  (0 <= n)%Z -> augmented_shape n M ->
  (forall i, (0 <= i < n)%Z ->
     R_dec 1 (-10) < Rabs (sub2 (gaussian_elimination n M) i i)) ->
  augmented_shape n (gaussian_elimination n M) /\
  echelon n n (gaussian_elimination n M) /\
  forall x, solves (gaussian_elimination n M) x n <-> solves M x n.
Proof.
  intros Hn HM Hdiag.
  assert (H : gaussian_elimination n M = for_loop 0 n (elimination_step n) M /\
              augmented_shape n (gaussian_elimination n M) /\
              echelon n n (gaussian_elimination n M) /\
              forall x, solves (gaussian_elimination n M) x n <-> solves M x n);
    [| tauto].
  apply (for_loop_invariant (fun i M' =>
    M' = for_loop 0 i (elimination_step n) M /\
    augmented_shape n M' /\ echelon n i M' /\
    forall x, solves M' x n <-> solves M x n) 0 n (elimination_step n) M); [lia | |].
  - rewrite for_loop_nil by lia. split; [reflexivity |]. split; [exact HM |].
    split; [intros r c Hc; lia | tauto].
  - intros i M' Hi (HM'eq & HM' & He & Hs).
    destruct (elimination_step_rows n M' i HM' ltac:(lia)) as [Hshape Hrows].
    destruct (elimination_tail_rows n (i + 1) _ Hshape ltac:(lia)) as [_ Htail].
    assert (Hp : R_dec 1 (-10) <=
                 Rabs (sub2 (swap_rows M' i (find_pivot M' n i)) i i)).
    { rewrite <- Hrows, <- Htail by lia.
      rewrite HM'eq, <- for_loop_snoc, <- (for_loop_split 0 (i + 1) n) by lia.
      apply Rlt_le. apply (Hdiag i). lia. }
    destruct (elimination_step_exact n M' i HM' ltac:(lia) He Hp) as [He' Hs'].
    split; [rewrite for_loop_snoc by lia; now rewrite <- HM'eq |].
    split; [exact Hshape |]. split; [exact He' |].
    intros x. now rewrite Hs'.
Qed.

(** The inner loop of the back substitution subtracts the terms right of
    the diagonal from [x[i]]. *)
Lemma back_substitution_row (n : Z) (U : list (list R)) (i : Z) (x : list R) :
  length x = Z.to_nat n -> (0 <= i < n)%Z ->
  let x' := for_loop (i + 1) n (fun j x =>
              assign1 x i (sub1 x i - sub2 U i j * sub1 x j)) x in
  length x' = Z.to_nat n /\
  (forall c, (0 <= c)%Z -> c <> i -> sub1 x' c = sub1 x c) /\
  sub1 x' i = sub1 x i - Rsum (fun j => sub2 U i j * sub1 x j) (seqZ (i + 1) (n - (i + 1))).
Proof.
  intros Hlen Hi. cbv zeta.
  apply (for_loop_invariant (fun j x' =>
    length x' = Z.to_nat n /\
    (forall c, (0 <= c)%Z -> c <> i -> sub1 x' c = sub1 x c) /\
    sub1 x' i = sub1 x i
       - Rsum (fun j => sub2 U i j * sub1 x j) (seqZ (i + 1) (j - (i + 1)))));
    [lia | |].
  - rewrite Z.sub_diag, seqZ_nil by lia. cbn [Rsum].
    split; [exact Hlen |]. split; [reflexivity | lra].
  - intros j x' Hj (Hlen' & Hother & Hxi). exact_arith.
    split; [unfold assign1; now rewrite length_insert |]. split.
    + intros c Hc Hci. rewrite sub1_assign1 by lia.
      replace (c =? i)%Z with false by (symmetry; apply Z.eqb_neq; lia).
      now apply Hother.
    + rewrite sub1_assign1, Z.eqb_refl by lia.
      replace (j + 1 - (i + 1))%Z with ((j - (i + 1)) + 1)%Z by lia.
      rewrite seqZ_app, Rsum_app by lia.
      replace (i + 1 + (j - (i + 1)))%Z with j by lia.
      rewrite (seqZ_cons j) by lia. rewrite (seqZ_nil (Z.succ j)) by lia. cbn [Rsum].
      rewrite Hxi, (Hother j) by lia. lra.
Qed.

(** The back substitution on a matrix in echelon form with pivots above
    the threshold solves its system. *)
Lemma back_substitution_exact (n : Z) (U : list (list R)) (x0 : list R) :
  (0 <= n)%Z -> echelon n n U ->
  (forall i, (0 <= i < n)%Z -> R_dec 1 (-10) < Rabs (sub2 U i i)) ->
  length (back_substitution U n x0) = Z.to_nat n /\
  solves U (back_substitution U n x0) n.
Proof.
  intros Hn He Hdiag. pose proof threshold_positive as Hpos.
  unfold back_substitution, solves.
  assert (H : length (for_loop_down (n - 1) 0 (fun i x =>
                let x := assign1 x i (sub2 U i n) in
                let x := for_loop (i + 1) n (fun j x =>
                  assign1 x i (sub1 x i - sub2 U i j * sub1 x j)%num) x in
                if (std_abs (sub2 U i i) >? dec 1 (-10))%num
                then assign1 x i (sub1 x i / sub2 U i i)%num
                else x) (resize (Z.to_nat n) #0%num x0)) = Z.to_nat n /\
              forall r, (0 <= r < n)%Z ->
                row_product U (for_loop_down (n - 1) 0 (fun i x =>
                let x := assign1 x i (sub2 U i n) in
                let x := for_loop (i + 1) n (fun j x =>
                  assign1 x i (sub1 x i - sub2 U i j * sub1 x j)%num) x in
                if (std_abs (sub2 U i i) >? dec 1 (-10))%num
                then assign1 x i (sub1 x i / sub2 U i i)%num
                else x) (resize (Z.to_nat n) #0%num x0)) n r = sub2 U r n);
    [| exact H].
  apply (for_loop_down_invariant (fun i x =>
    length x = Z.to_nat n /\
    forall r, (i <= r < n)%Z -> row_product U x n r = sub2 U r n)); [lia | |].
  - split; [apply length_resize | intros r Hr; lia].
  - intros i x Hi [Hlen Hrows]. cbv zeta.
    assert (Hlen1 : length (assign1 x i (sub2 U i n)) = Z.to_nat n)
      by (unfold assign1; now rewrite length_insert).
    destruct (back_substitution_row n U i _ Hlen1 ltac:(lia)) as (Hlen2 & Hother & Hxi).
    exact_arith. rewrite (proj2 (Rltb_true _ _) (Hdiag i ltac:(lia))).
    set (x2 := for_loop (i + 1) n _ _) in *.
    assert (Hne : sub2 U i i <> 0).
    { intros H0. pose proof (Hdiag i ltac:(lia)) as Hd.
      rewrite H0, Rabs_R0 in Hd. lra. }
    assert (Hsame : forall c, (0 <= c)%Z -> c <> i ->
              sub1 (assign1 x2 i (sub1 x2 i / sub2 U i i)) c = sub1 x c).
    { intros c Hc Hci. rewrite sub1_assign1 by lia.
      replace (c =? i)%Z with false by (symmetry; apply Z.eqb_neq; lia).
      rewrite Hother by lia. rewrite sub1_assign1 by lia.
      now replace (c =? i)%Z with false by (symmetry; apply Z.eqb_neq; lia). }
    assert (Hi' : sub1 (assign1 x2 i (sub1 x2 i / sub2 U i i)) i =
                  (sub2 U i n - Rsum (fun j => sub2 U i j * sub1 x j)
                                  (seqZ (i + 1) (n - (i + 1)))) / sub2 U i i).
    { rewrite sub1_assign1, Z.eqb_refl by lia. rewrite Hxi.
      rewrite sub1_assign1, Z.eqb_refl by lia.
      f_equal. f_equal. apply Rsum_ext_in. intros c Hc. apply In_seqZ in Hc.
      rewrite sub1_assign1 by lia.
      now replace (c =? i)%Z with false by (symmetry; apply Z.eqb_neq; lia). }
    split; [unfold assign1; now rewrite length_insert |].
    intros r Hr. destruct (Z.eq_dec r i) as [->|Hri].
    + unfold row_product.
      replace (seqZ 0 n) with (seqZ 0 (n - 0)) by (now rewrite Z.sub_0_r).
      rewrite (seqZ_split 0 i n), !Rsum_app by lia. rewrite Z.sub_0_r. cbn [Rsum].
      rewrite (Rsum_ext_in _ (fun _ => 0) (seqZ 0 i)).
      2:{ intros c Hc. apply In_seqZ in Hc. rewrite (He i c) by lia. lra. }
      rewrite Rsum_zero, Hi'.
      rewrite (Rsum_ext_in (fun j => sub2 U i j * sub1 (assign1 x2 i (sub1 x2 i / sub2 U i i)) j)
                 (fun j => sub2 U i j * sub1 x j) (seqZ (i + 1) _)).
      2:{ intros c Hc. apply In_seqZ in Hc. now rewrite Hsame by lia. }
      field. exact Hne.
    + rewrite <- (Hrows r) by lia. unfold row_product.
      apply Rsum_ext_in. intros c Hc. apply In_seqZ in Hc.
      destruct (Z.eq_dec c i) as [->|Hci].
      * rewrite (He r i) by lia. lra.
      * now rewrite Hsame by lia.
Qed.

(** X23: on the reals, when every diagonal entry of the eliminated matrix
    exceeds 1e-10 in absolute value (no pivot is skipped and every
    unknown is divided by its pivot), the vector [SolveLinearSystem] leaves
    in [x] has as many entries as [b] and solves the system: every row of
    [A x] equals the entry of [b]. *)
Theorem SolveLinearSystem_solves (M : list (list R)) (b x0 : list R) :
  let n := Z.of_nat (length b) in
  square n M ->
  (forall i, (0 <= i < n)%Z ->
     dec 1 (-10) < Rabs (sub2 (gaussian_elimination n (augmented M b)) i i)) ->
  let x := SolveLinearSystem M b x0 in
  length x = length b /\
  forall i, (0 <= i < n)%Z -> row_product M x n i = sub1 b i.
Proof.
  intros n _ Hdiag x.
  destruct (augmented_entries M b) as [Hshape Hent]. fold n in Hshape, Hent.
  destruct (gaussian_elimination_exact n (augmented M b) ltac:(lia) Hshape Hdiag)
    as (_ & He & Hs).
  destruct (back_substitution_exact n _ x0 ltac:(lia) He Hdiag) as [Hlen Hsol].
  split; [unfold x, SolveLinearSystem; fold n; rewrite Hlen; lia |].
  intros i Hi. apply Hs in Hsol. specialize (Hsol i Hi).
  rewrite Hent in Hsol by lia. rewrite Z.eqb_refl in Hsol.
  rewrite <- Hsol. unfold row_product. apply Rsum_ext_in.
  intros c Hc. apply In_seqZ in Hc. rewrite Hent by lia.
  now replace (c =? n)%Z with false by (symmetry; apply Z.eqb_neq; lia).
Qed.

(** A pass that finds the pivot row [m] and does not skip. *)
Lemma elimination_step_run (n i m : Z) (M : list (list R)) :
  find_pivot M n i = m ->
  dec 1 (-10) <= Rabs (sub2 (swap_rows M i m) i i) ->
  elimination_step n i M =
  for_loop (i + 1) n (fun k Aug => eliminate_row Aug n i k) (swap_rows M i m).
Proof.
  intros Hm Hp. unfold elimination_step. rewrite Hm. exact_arith.
  now rewrite (proj2 (Rltb_false _ _) Hp).
Qed.

Lemma system_2x2_eliminated :
  gaussian_elimination 2 (augmented (fst system_2x2) (snd system_2x2)) =
  [[3; 4; 6]; [1 - 1 / 3 * 3; 2 - 1 / 3 * 4; 5 - 1 / 3 * 6]].
Proof.
  pose proof threshold_bounds as Hpos.
  change (augmented (fst system_2x2) (snd system_2x2)) with [[1; 2; 5]; [3; 4; 6]].
  unfold gaussian_elimination, for_loop.
  change (seqZ 0 (2 - 0)) with [0; 1]%Z. cbn [fold_left].
  rewrite (elimination_step_run 2 0 1 [[1; 2; 5]; [3; 4; 6]]).
  - change (for_loop (0 + 1) 2 (fun k Aug => eliminate_row Aug 2 0 k)
              (swap_rows [[1; 2; 5]; [3; 4; 6]] 0 1))
      with [[3; 4; 6]; [1 - 1 / 3 * 3; 2 - 1 / 3 * 4; 5 - 1 / 3 * 6]].
    rewrite (elimination_step_run 2 1 1); [reflexivity | reflexivity |].
    change (sub2 _ 1 1) with (2 - 1 / 3 * 4). exact_arith.
    rewrite Rabs_right by lra. lra.
  - unfold find_pivot, for_loop. change (seqZ (0 + 1) (2 - (0 + 1))) with [1%Z].
    cbn [fold_left].
    change ((if Rltb (Rabs 1) (Rabs 3) then 1%Z else 0%Z) = 1%Z).
    rewrite (proj2 (Rltb_true _ _)); [reflexivity |].
    rewrite !Rabs_right; lra.
  - change (sub2 _ 0 0) with 3. exact_arith.
    rewrite Rabs_right by lra. lra.
Qed.

Lemma SolveLinearSystem_solves_witness :
  let M := fst system_2x2 in
  let b := snd system_2x2 in
  square 2 M /\
  (forall i, (0 <= i < 2)%Z ->
     dec 1 (-10) < Rabs (sub2 (gaussian_elimination 2 (augmented M b)) i i)) /\
  length (SolveLinearSystem M b []) = length b /\
  forall i, (0 <= i < 2)%Z ->
    row_product M (SolveLinearSystem M b []) 2 i = sub1 b i.
Proof.
  intros M b.
  assert (Hsq : square 2 M) by (split; [reflexivity | repeat constructor]).
  assert (Hdiag : forall i, (0 <= i < 2)%Z ->
            dec 1 (-10) < Rabs (sub2 (gaussian_elimination 2 (augmented M b)) i i)).
  { intros i Hi. pose proof threshold_bounds as Hpos.
    unfold M, b. rewrite system_2x2_eliminated. exact_arith.
    assert (Hcases : i = 0%Z \/ i = 1%Z) by lia.
    destruct Hcases as [-> | ->].
    - change (sub2 _ 0 0) with 3. rewrite Rabs_right by lra. lra.
    - change (sub2 _ 1 1) with (2 - 1 / 3 * 4). rewrite Rabs_right by lra. lra. }
  exact (conj Hsq (conj Hdiag (SolveLinearSystem_solves M b [] Hsq Hdiag))).
Defined.

Lemma swap_rows_same (M : list (list R)) (i : Z) : swap_rows M i i = M.
Proof.
  unfold swap_rows. destruct (M !! Z.to_nat i) as [row|] eqn:Hrow; cbn [default].
  - rewrite list_insert_insert_eq. now apply list_insert_id.
  - apply lookup_ge_None_1 in Hrow.
    rewrite (list_insert_ge M) by exact Hrow. now apply list_insert_ge.
Qed.

(** The pass of a column that is zero from the diagonal down finds no
    pivot and leaves the matrix as it is. *)
Lemma elimination_step_zero_column (n i : Z) (M : list (list R)) :
  (forall k, (i <= k < n)%Z -> sub2 M k i = 0) -> (0 <= i < n)%Z ->
  elimination_step n i M = M.
Proof.
  intros Hcol Hi. pose proof threshold_positive as Hpos.
  assert (Hm : find_pivot M n i = i).
  { unfold find_pivot.
    apply (for_loop_invariant (fun _ m => m = i)); [lia | reflexivity |].
    intros k m Hk ->. exact_arith.
    rewrite (Hcol k), (Hcol i) by lia.
    now rewrite (proj2 (Rltb_false _ _)) by lra. }
  unfold elimination_step. rewrite Hm, swap_rows_same. exact_arith.
  rewrite (Hcol i) by lia.
  now rewrite Rabs_R0, (proj2 (Rltb_true _ _)) by exact Hpos.
Qed.

(** X24: on the reals, for the zero matrix no pivot is found and no
    unknown is divided: [SolveLinearSystem] leaves [b] itself in [x], and
    nothing tells the caller that the system has no unique solution. *)
Theorem SolveLinearSystem_zero_matrix (M : list (list R)) (b x0 : list R) :
  let n := Z.of_nat (length b) in
  square n M ->
  (forall r c, (0 <= r < n)%Z -> (0 <= c < n)%Z -> sub2 M r c = 0) ->
  SolveLinearSystem M b x0 = b.
Proof.
  intros n _ Hzero. pose proof threshold_positive as Hpos.
  destruct (augmented_entries M b) as [Hshape Hent]. fold n in Hshape, Hent.
  assert (HA : forall r c, (0 <= r < n)%Z -> (0 <= c < n)%Z ->
            sub2 (augmented M b) r c = 0).
  { intros r c Hr Hc. rewrite Hent by lia.
    replace (c =? n)%Z with false by (symmetry; apply Z.eqb_neq; lia).
    now apply Hzero. }
  assert (HG : gaussian_elimination n (augmented M b) = augmented M b).
  { unfold gaussian_elimination.
    apply (for_loop_invariant (fun _ M' => M' = augmented M b));
      [lia | reflexivity |].
    intros i M' Hi ->. apply elimination_step_zero_column; [| lia].
    intros k Hk. apply HA; lia. }
  unfold SolveLinearSystem. fold n. rewrite HG.
  assert (H : length (back_substitution (augmented M b) n x0) = Z.to_nat n /\
              forall r, (0 <= r < n)%Z ->
                sub1 (back_substitution (augmented M b) n x0) r = sub1 b r).
  { apply (for_loop_down_invariant (fun i x =>
      length x = Z.to_nat n /\
      forall r, (i <= r < n)%Z -> sub1 x r = sub1 b r)); [lia | |].
    - split; [apply length_resize | intros r Hr; lia].
    - intros i x Hi [Hlen Hrows]. cbv zeta.
      assert (Hlen1 : length (assign1 x i (sub2 (augmented M b) i n)) = Z.to_nat n)
        by (unfold assign1; now rewrite length_insert).
      destruct (back_substitution_row n (augmented M b) i _ Hlen1 ltac:(lia))
        as (Hlen2 & Hother & Hxi).
      exact_arith. rewrite (HA i i) by lia.
      rewrite Rabs_R0, (proj2 (Rltb_false _ _)) by lra.
      split; [exact Hlen2 |].
      intros r Hr. destruct (Z.eq_dec r i) as [->|Hri].
      + rewrite Hxi, sub1_assign1, Z.eqb_refl by lia.
        rewrite (Rsum_ext_in _ (fun _ => 0)).
        * rewrite Rsum_zero, Hent, Z.eqb_refl by lia. lra.
        * intros c Hc. apply In_seqZ in Hc. rewrite (HA i c) by lia. lra.
      + rewrite Hother, sub1_assign1 by lia.
        replace (r =? i)%Z with false by (symmetry; apply Z.eqb_neq; lia).
        apply Hrows. lia. }
  destruct H as [Hlen Hrows]. apply list_eq. intros k.
  destruct (Nat.lt_ge_cases k (length b)) as [Hlt|Hge].
  - specialize (Hrows (Z.of_nat k) ltac:(lia)). unfold sub1 in Hrows.
    rewrite Nat2Z.id in Hrows.
    destruct (lookup_lt_is_Some_2 b k Hlt) as [v Hv].
    destruct (lookup_lt_is_Some_2 (back_substitution (augmented M b) n x0) k)
      as [w Hw]; [lia |].
    rewrite Hv, Hw in *. cbn in Hrows. now subst.
  - rewrite !lookup_ge_None_2 by lia. reflexivity.
Qed.

Lemma SolveLinearSystem_zero_matrix_witness :
  let M := fst zero_system_2x2 in
  let b := snd zero_system_2x2 in
  square 2 M /\
  (forall r c, (0 <= r < 2)%Z -> (0 <= c < 2)%Z -> sub2 M r c = 0) /\
  SolveLinearSystem M b [] = b.
Proof.
  intros M b.
  assert (Hsq : square 2 M) by (split; [reflexivity | repeat constructor]).
  assert (Hzero : forall r c, (0 <= r < 2)%Z -> (0 <= c < 2)%Z -> sub2 M r c = 0).
  { intros r c Hr Hc.
    assert (Hr' : r = 0%Z \/ r = 1%Z) by lia.
    assert (Hc' : c = 0%Z \/ c = 1%Z) by lia.
    destruct Hr' as [-> | ->], Hc' as [-> | ->]; reflexivity. }
  exact (conj Hsq (conj Hzero (SolveLinearSystem_zero_matrix M b [] Hsq Hzero))).
Defined.

End OnReals.
End LinearSystemFacts.
